(** * The z.ai gateway: credential pool, SSE reading loop, retry loop

    A shallow embedding of the parts of [app/core] that the properties of the
    specification talk about:
    - [token_manager.py]: [TokenInfo], [TokenManager] and its operations;
    - [openai.py]: the generator [stream_response] (retry loop, SSE buffer
      loop, per-record phase handling);
    - [response_handlers.py]: [ResponseHandler._call_upstream];
    - [zai_transformer.py]: [ZAITransformer.get_token] and the tool gate of
      [transform_request_in].

    Python [str] values are lists of code points, [bytes] are lists of
    [Byte.byte], Python [int]s are [Z], and the objects that the pool mutates
    in place live in an explicit heap so that two list slots that hold the
    same [TokenInfo] object stay aliased. *)

From Stdlib Require Import ZArith NArith List String Ascii Bool Lia.
From Stdlib.Strings Require Import Byte.
From stdpp Require Import base decidable option list numbers.

Import ListNotations.
Local Open Scope Z_scope.

(** ** Python strings *)

Module PyStr.

(** A [str] is its sequence of code points. *)
Definition pystr := list N.

(** A literal of the source, written as a Rocq string of ASCII characters. *)
Definition lit (s : string) : pystr :=
  List.map N_of_ascii (list_ascii_of_string s).

(** [str.isspace] on one code point (the whitespace set of CPython). *)
Definition is_space (c : N) : bool :=
  ((9 <=? c) && (c <=? 13) || (28 <=? c) && (c <=? 32)
   || (c =? 133) || (c =? 160) || (c =? 5760)
   || (8192 <=? c) && (c <=? 8202)
   || (c =? 8232) || (c =? 8233) || (c =? 8239) || (c =? 8287)
   || (c =? 12288))%N.

Fixpoint lstrip (s : pystr) : pystr :=
  match s with
  | c :: r => if is_space c then lstrip r else s
  | [] => []
  end.

Definition rstrip (s : pystr) : pystr := rev (lstrip (rev s)).

(** [s.strip()] *)
Definition strip (s : pystr) : pystr := rstrip (lstrip s).

(** Truth value of a [str]: non-empty. *)
Definition truthy (s : pystr) : bool :=
  match s with [] => false | _ => true end.

(** [s.startswith(p)] *)
Fixpoint startswith (p s : pystr) : bool :=
  match p, s with
  | [], _ => true
  | _ :: _, [] => false
  | a :: p', b :: s' => (a =? b)%N && startswith p' s'
  end.

(** [s.endswith(p)] *)
Definition endswith (p s : pystr) : bool := startswith (rev p) (rev s).

(** [s.split(sep)] for a non-empty separator: matches are taken from left to
    right and do not overlap.  [skip] counts the characters of the current
    match that are still to be passed over, [cur] is the piece being read,
    reversed. *)
Fixpoint split_go (sep : pystr) (skip : nat) (cur : pystr) (s : pystr)
  : list pystr :=
  match s with
  | [] => [rev cur]
  | c :: r =>
      match skip with
      | S k => split_go sep k cur r
      | O =>
          if startswith sep s
          then rev cur :: split_go sep (length sep - 1) [] r
          else split_go sep 0 (c :: cur) r
      end
  end.

Definition split (sep s : pystr) : list pystr := split_go sep 0 [] s.

(** [sub in s] *)
Fixpoint contains (sub s : pystr) : bool :=
  startswith sub s ||
  match s with
  | [] => false
  | _ :: r => contains sub r
  end.

(** [s[n:]] *)
Definition drop_prefix (n : nat) (s : pystr) : pystr := skipn n s.

Definition eqb (a b : pystr) : bool := bool_decide (a = b).

End PyStr.

Import PyStr.

(** ** UTF-8, as [bytes.decode('utf-8')] and [str.encode('utf-8')] *)

Module Utf8.

Definition is_cont (b : N) : bool := ((128 <=? b) && (b <=? 191))%N.

(** Strict decoding of a list of byte values; [None] is
    [UnicodeDecodeError] (an invalid byte or a truncated sequence). *)
Fixpoint decode_N (bs : list N) : option pystr :=
  match bs with
  | [] => Some []
  | b0 :: r0 =>
      if (b0 <? 128)%N then cons b0 <$> decode_N r0
      else if ((194 <=? b0) && (b0 <=? 223))%N then
        match r0 with
        | b1 :: r1 =>
            if is_cont b1
            then cons ((b0 - 192) * 64 + (b1 - 128))%N <$> decode_N r1
            else None
        | _ => None
        end
      else if ((224 <=? b0) && (b0 <=? 239))%N then
        match r0 with
        | b1 :: b2 :: r2 =>
            if is_cont b1 && is_cont b2
               && negb ((b0 =? 224) && (b1 <? 160))%N
               && negb ((b0 =? 237) && (160 <=? b1))%N
            then cons ((b0 - 224) * 4096 + (b1 - 128) * 64 + (b2 - 128))%N
                   <$> decode_N r2
            else None
        | _ => None
        end
      else if ((240 <=? b0) && (b0 <=? 244))%N then
        match r0 with
        | b1 :: b2 :: b3 :: r3 =>
            if is_cont b1 && is_cont b2 && is_cont b3
               && negb ((b0 =? 240) && (b1 <? 144))%N
               && negb ((b0 =? 244) && (144 <=? b1))%N
            then cons ((b0 - 240) * 262144 + (b1 - 128) * 4096
                       + (b2 - 128) * 64 + (b3 - 128))%N
                   <$> decode_N r3
            else None
        | _ => None
        end
      else None
  end.

(** [buffer.decode('utf-8')] *)
Definition decode (bs : list byte) : option pystr :=
  decode_N (List.map Byte.to_N bs).

Definition byte_of (n : N) : byte :=
  match Byte.of_N n with
  | Some b => b
  | None => x00
  end.

Definition encode_char (c : N) : list byte :=
  if (c <? 128)%N then [byte_of c]
  else if (c <? 2048)%N then
    [byte_of (192 + c / 64); byte_of (128 + c mod 64)]%N
  else if (c <? 65536)%N then
    [byte_of (224 + c / 4096); byte_of (128 + (c / 64) mod 64);
     byte_of (128 + c mod 64)]%N
  else
    [byte_of (240 + c / 262144); byte_of (128 + (c / 4096) mod 64);
     byte_of (128 + (c / 64) mod 64); byte_of (128 + c mod 64)]%N.

(** [s.encode('utf-8')]; the only strings encoded by the source come out of
    [decode], so they hold no surrogate. *)
Definition encode (s : pystr) : list byte := flat_map encode_char s.

(** The bytes of an ASCII literal. *)
Definition ascii_bytes (s : string) : list byte := list_byte_of_string s.

End Utf8.

(** ** JSON values, as [json.loads] returns them *)

Module PyJson.

#[local] Unset Elimination Schemes.
Inductive Json :=
| JNull
| JBool (b : bool)
| JInt (z : Z)
| JFloat (m e : Z)            (* the finite double m * 2^e *)
| JStr (s : pystr)
| JArr (l : list Json)
| JObj (kv : list (pystr * Json)).
#[local] Set Elimination Schemes.

(** Truth value of a Python object. *)
Definition py_truthy (j : Json) : bool :=
  match j with
  | JNull => false
  | JBool b => b
  | JInt z => negb (z =? 0)
  | JFloat m _ => negb (m =? 0)
  | JStr s => truthy s
  | JArr l => match l with [] => false | _ => true end
  | JObj kv => match kv with [] => false | _ => true end
  end.

(** [d[k]] for the items of a dict. *)
Fixpoint assoc (k : pystr) (kv : list (pystr * Json)) : option Json :=
  match kv with
  | [] => None
  | (k', v) :: r => if eqb k' k then Some v else assoc k r
  end.

(** [d.get(k, dflt)] on the items of a dict. *)
Definition get_or (k : pystr) (dflt : Json) (kv : list (pystr * Json)) : Json :=
  match assoc k kv with
  | Some v => v
  | None => dflt
  end.

(** [j == "literal"] *)
Definition is_str (j : Json) (s : pystr) : bool :=
  match j with
  | JStr s' => eqb s' s
  | _ => false
  end.

End PyJson.

(** ** The credential pool ([token_manager.py]) *)

Module TokenPool.

(** [@dataclass class TokenInfo] *)
Record TokenInfo := mkTokenInfo {
  token : pystr;
  failure_count : Z;
  is_active : bool;
  last_failure_time : option Z;
  last_used_time : option Z
}.

(** [TokenInfo(token=t)] with the defaults of the dataclass. *)
Definition new_TokenInfo (t : pystr) : TokenInfo :=
  mkTokenInfo t 0 true None None.

(** The state of a [TokenManager].  [self.tokens] is a list of references to
    [TokenInfo] objects: [heap] holds the objects and [tokens] the addresses
    (positions in [heap]).  Objects are never freed; a reload appends the
    objects it creates. *)
Record TokenManager := mkTokenManager {
  max_failures : Z;
  reload_interval : Z;
  heap : list TokenInfo;
  tokens : list nat;
  current_index : nat;
  last_reload_time : Z
}.

Definition with_heap (tm : TokenManager) (h : list TokenInfo) : TokenManager :=
  mkTokenManager (max_failures tm) (reload_interval tm) h (tokens tm)
    (current_index tm) (last_reload_time tm).

(** [next((t for t in refs if t.token == name), None)] *)
Fixpoint find_in (h : list TokenInfo) (name : pystr) (refs : list nat)
  : option nat :=
  match refs with
  | [] => None
  | a :: r =>
      match h !! a with
      | Some ti => if eqb (token ti) name then Some a else find_in h name r
      | None => find_in h name r
      end
  end.

(** What [_load_tokens] reads: the token file and [settings.BACKUP_TOKEN]. *)
Inductive FileRead :=
| NoFile                       (* os.path.exists(...) is false *)
| ReadError                    (* open/readlines raises *)
| Lines (ls : list pystr).     (* f.readlines() *)

Record Source := mkSource {
  token_file : FileRead;
  BACKUP_TOKEN : option pystr  (* None: settings has no such attribute *)
}.

(** The loop over the lines of the file, lines 70-78. *)
Fixpoint load_file (old : list nat) (lines : list pystr)
    (h : list TokenInfo) (new_tokens : list nat) : list TokenInfo * list nat :=
  match lines with
  | [] => (h, new_tokens)
  | line :: rest =>
      let t := strip line in
      if truthy t && negb (startswith (lit "#") t)
      then match find_in h t old with
           | Some a => load_file old rest h (new_tokens ++ [a])
           | None =>
               load_file old rest (h ++ [new_TokenInfo t])
                 (new_tokens ++ [length h])
           end
      else load_file old rest h new_tokens
  end.

(** [[token.strip() for token in BACKUP_TOKEN.split(',') if token.strip()]] *)
Definition backup_tokens (b : pystr) : list pystr :=
  List.filter truthy (List.map strip (split (lit ",") b)).

(** The loop over the backup tokens, lines 93-102. *)
Fixpoint load_backup (old : list nat) (bts : list pystr)
    (h : list TokenInfo) (new_tokens : list nat) : list TokenInfo * list nat :=
  match bts with
  | [] => (h, new_tokens)
  | bt :: rest =>
      match find_in h bt new_tokens with
      | Some _ => load_backup old rest h new_tokens
      | None =>
          match find_in h bt old with
          | Some a => load_backup old rest h (new_tokens ++ [a])
          | None =>
              load_backup old rest (h ++ [new_TokenInfo bt])
                (new_tokens ++ [length h])
          end
      end
  end.

(** [[TokenInfo(token=token) for token in backup_tokens]], line 115. *)
Fixpoint fresh_all (bts : list pystr) (h : list TokenInfo) (acc : list nat)
  : list TokenInfo * list nat :=
  match bts with
  | [] => (h, acc)
  | bt :: rest => fresh_all rest (h ++ [new_TokenInfo bt]) (acc ++ [length h])
  end.

(** The list [new_tokens] that [_load_tokens] builds, with the heap extended
    by the objects it created. *)
Definition build_new_tokens (src : Source) (tm : TokenManager)
  : list TokenInfo * list nat :=
  let s1 :=
    match token_file src with
    | Lines ls => load_file (tokens tm) ls (heap tm) []
    | _ => (heap tm, [])
    end in
  let s2 :=
    match BACKUP_TOKEN src with
    | Some b =>
        if truthy b
        then load_backup (tokens tm) (backup_tokens b) (fst s1) (snd s1)
        else s1
    | None => s1
    end in
  match snd s2 with
  | [] =>
      match BACKUP_TOKEN src with
      | Some b => if truthy b then fresh_all (backup_tokens b) (fst s2) [] else s2
      | None => s2
      end
  | _ => s2
  end.

(** [TokenManager._load_tokens]; [now] is the reading of [time.time()].  An
    exception while reading leaves the manager as it was, and so does a
    source without any token. *)
Definition _load_tokens (now : Z) (src : Source) (tm : TokenManager)
  : TokenManager :=
  match token_file src with
  | ReadError => tm
  | _ =>
      let s := build_new_tokens src tm in
      match snd s with
      | [] => tm
      | new_tokens =>
          mkTokenManager (max_failures tm) (reload_interval tm) (fst s)
            new_tokens
            (if (length new_tokens <=? current_index tm)%nat
             then O else current_index tm)
            now
      end
  end.

(** [TokenManager.__init__] with the configured threshold and interval. *)
Definition init (maxf interval : Z) (now : Z) (src : Source) : TokenManager :=
  _load_tokens now src (mkTokenManager maxf interval [] [] O 0).

(** [TokenManager.reload_tokens] *)
Definition reload_tokens (now : Z) (src : Source) (tm : TokenManager)
  : TokenManager := _load_tokens now src tm.

(** [TokenManager._should_reload] *)
Definition _should_reload (now : Z) (tm : TokenManager) : bool :=
  reload_interval tm <? now - last_reload_time tm.

(** Apply [f] to the object at address [a]. *)
Definition update_at (f : TokenInfo -> TokenInfo) (a : nat)
    (h : list TokenInfo) : list TokenInfo :=
  match h !! a with
  | Some ti => <[a := f ti]> h
  | None => h
  end.

(** [for token in self.tokens: <mutate token>] *)
Definition update_all (f : TokenInfo -> TokenInfo) (refs : list nat)
    (h : list TokenInfo) : list TokenInfo :=
  fold_left (fun h' a => update_at f a h') refs h.

Definition amnesty_one (ti : TokenInfo) : TokenInfo :=
  mkTokenInfo (token ti) 0 true (last_failure_time ti) (last_used_time ti).

(** [[i for i, t in enumerate(self.tokens) if t.is_active]] *)
Fixpoint active_indices (h : list TokenInfo) (i : nat) (refs : list nat)
  : list nat :=
  match refs with
  | [] => []
  | a :: r =>
      match h !! a with
      | Some ti =>
          if is_active ti then i :: active_indices h (S i) r
          else active_indices h (S i) r
      | None => active_indices h (S i) r
      end
  end.

(** The inner [for i in range(len(self.tokens))] scan, lines 170-174. *)
Definition scan (n ci : nat) (active : list nat) : option nat :=
  List.find (fun idx => bool_decide (idx ∈ active))
    (List.map (fun i => ((ci + i) mod n)%nat) (seq 0 n)).

(** The [while attempts < max_attempts] loop; [fuel] is
    [max_attempts - attempts].  The body changes nothing when the scan finds
    no index. *)
Fixpoint select_loop (fuel : nat) (n ci : nat) (active : list nat)
  : option nat :=
  match fuel with
  | O => None
  | S f =>
      match scan n ci active with
      | Some idx => Some idx
      | None => select_loop f n ci active
      end
  end.

Definition stamp_used (now : Z) (ti : TokenInfo) : TokenInfo :=
  mkTokenInfo (token ti) (failure_count ti) (is_active ti)
    (last_failure_time ti) (Some now).

(** The part of [get_next_token] that runs under the lock, lines 147-186. *)
Definition select (now : Z) (tm : TokenManager)
  : option pystr * TokenManager :=
  match tokens tm with
  | [] => (None, tm)
  | _ =>
      let n := length (tokens tm) in
      let active0 := active_indices (heap tm) 0 (tokens tm) in
      let '(h1, active) :=
        match active0 with
        | [] => (update_all amnesty_one (tokens tm) (heap tm), seq 0 n)
        | _ => (heap tm, active0)
        end in
      match select_loop (length active) n (current_index tm) active with
      | Some token_index =>
          match tokens tm !! token_index with
          | Some a =>
              match h1 !! a with
              | Some ti =>
                  (Some (token ti),
                   mkTokenManager (max_failures tm) (reload_interval tm)
                     (<[a := stamp_used now ti]> h1) (tokens tm)
                     ((token_index + 1) mod n)%nat (last_reload_time tm))
              | None => (None, with_heap tm h1)
              end
          | None => (None, with_heap tm h1)
          end
      | None => (None, with_heap tm h1)
      end
  end.

(** The reload at the head of [get_next_token], lines 144-145. *)
Definition reload_if_due (now : Z) (src : Source) (tm : TokenManager)
  : TokenManager :=
  if _should_reload now tm then _load_tokens now src tm else tm.

(** [TokenManager.get_next_token] *)
Definition get_next_token (now : Z) (src : Source) (tm : TokenManager)
  : option pystr * TokenManager :=
  select now (reload_if_due now src tm).

Definition fail_one (maxf now : Z) (ti : TokenInfo) : TokenInfo :=
  let c := failure_count ti + 1 in
  mkTokenInfo (token ti) c
    (if maxf <=? c then false else is_active ti)
    (Some now) (last_used_time ti).

(** [TokenManager.mark_token_failed]: the first entry with this token. *)
Definition mark_token_failed (now : Z) (name : pystr) (tm : TokenManager)
  : TokenManager :=
  match find_in (heap tm) name (tokens tm) with
  | Some a => with_heap tm (update_at (fail_one (max_failures tm) now) a (heap tm))
  | None => tm
  end.

Definition succeed_one (ti : TokenInfo) : TokenInfo :=
  mkTokenInfo (token ti) 0 true (last_failure_time ti) (last_used_time ti).

(** [TokenManager.mark_token_success] *)
Definition mark_token_success (name : pystr) (tm : TokenManager)
  : TokenManager :=
  match find_in (heap tm) name (tokens tm) with
  | Some a => with_heap tm (update_at succeed_one a (heap tm))
  | None => tm
  end.

Definition reset_one (ti : TokenInfo) : TokenInfo :=
  mkTokenInfo (token ti) 0 true None (last_used_time ti).

(** [TokenManager.reset_all_tokens] *)
Definition reset_all_tokens (tm : TokenManager) : TokenManager :=
  with_heap tm (update_all reset_one (tokens tm) (heap tm)).

(** *** Predicates on pool states *)

(** Every reference of [self.tokens] points to an object. *)
Definition wf (tm : TokenManager) : Prop :=
  ∀ a, a ∈ tokens tm → (a < length (heap tm))%nat.

(** The invariant of the data model: a credential whose failure count has
    reached the threshold is inactive. *)
Definition pool_inv (tm : TokenManager) : Prop :=
  ∀ a ti, a ∈ tokens tm → heap tm !! a = Some ti →
    max_failures tm ≤ failure_count ti → is_active ti = false.

(** The token strings of the pool, in order. *)
Definition pool_names (tm : TokenManager) : list pystr :=
  omap (fun a => token <$> heap tm !! a) (tokens tm).

(** The usable lines of the token file, in order (line 72). *)
Definition file_tokens (ls : list pystr) : list pystr :=
  List.filter (fun t => truthy t && negb (startswith (lit "#") t))
    (List.map strip ls).

(** The token strings that a source yields: file first, then backup. *)
Definition source_names (src : Source) : list pystr :=
  match token_file src with
  | Lines ls => file_tokens ls
  | _ => []
  end ++
  match BACKUP_TOKEN src with
  | Some b => if truthy b then backup_tokens b else []
  | None => []
  end.

(** The health record that the pool holds for a token string. *)
Definition health (tm : TokenManager) (name : pystr) : option TokenInfo :=
  a ← find_in (heap tm) name (tokens tm); heap tm !! a.

(** A pool from which a token can always be drawn: well-formed, not empty,
    and without an empty token string (lines 72 and 90 never load one). *)
Definition usable (tm : TokenManager) : Prop :=
  wf tm ∧ tokens tm ≠ [] ∧
  ∀ a ti, a ∈ tokens tm → heap tm !! a = Some ti → truthy (token ti) = true.

(** Two heaps hold the same token string at every address. *)
Definition same_tokens (h h' : list TokenInfo) : Prop :=
  ∀ a, token <$> h' !! a = token <$> h !! a.

(** Some reference of [refs] points to an object with token string [t]. *)
Definition carries (h : list TokenInfo) (refs : list nat) (t : pystr) : Prop :=
  ∃ a ti, a ∈ refs ∧ h !! a = Some ti ∧ token ti = t.

(** [first_match h old t]: the object that line 74 finds for [t]. *)
Definition first_match (h : list TokenInfo) (old : list nat) (t : pystr)
  : option nat := find_in h t old.

(** An object as [TokenInfo(token=t)] creates it, for a non-empty [t]. *)
Definition is_fresh (ti : TokenInfo) : Prop :=
  ∃ t, truthy t = true ∧ ti = new_TokenInfo t.

(** [built h0 old h refs]: [h] is [h0] followed by freshly created objects,
    and every reference in [refs] is a reference of [old] into [h0] or points
    to one of the new objects. *)
Definition built (h0 : list TokenInfo) (old : list nat)
    (h : list TokenInfo) (refs : list nat) : Prop :=
  (∃ ext, h = h0 ++ ext ∧ Forall is_fresh ext) ∧
  ∀ a, a ∈ refs →
    (a ∈ old ∧ (a < length h0)%nat) ∨ (length h0 ≤ a < length h)%nat.

End TokenPool.

(** ** The streaming endpoint ([openai.py], [stream_response]) *)

Module Gateway.
Import PyJson TokenPool.

(** [settings], the fields that the modelled code reads. *)
Record Settings := mkSettings {
  MAX_RETRIES : Z;
  ANONYMOUS_MODE : bool;
  TOOL_SUPPORT : bool;
  PRIMARY_MODEL : pystr;
  THINKING_MODEL : pystr;
  SEARCH_MODEL : pystr;
  AIR_MODEL : pystr;
  GLM_46_MODEL : pystr;
  GLM_46_THINKING_MODEL : pystr
}.

(** The value of [last_error], by the statement that assigns it. *)
Inductive LastError :=
| Err400 (body : list byte)              (* "400 Bad Request: " + body *)
| Err401                                 (* "401 Unauthorized - ..." *)
| Err429                                 (* "429 Rate Limited" *)
| ErrStatus (code : Z) (body : list byte)
| ErrIncomplete                          (* "Incomplete response: ..." *)
| ErrException (msg : pystr).            (* str(e) *)

(** The records that the generator yields.  Each stands for the string
    ["data: " + json.dumps(...) + "\n\n"]; the fields [created], [id],
    [model], [object] and [system_fingerprint] of a chunk are left out. *)
Inductive Out :=
| DoneMarker                                      (* "data: [DONE]\n\n" *)
| RoleChunk                                       (* delta = {role} *)
| ContentChunk (with_role : bool) (content : Json)
| FinishChunk (usage : Json)                      (* finish_reason "stop" *)
| ToolRecord (raw : pystr)                        (* from the tool handler *)
| ErrorRecord (type : pystr) (code : option Z) (cause : option LastError).

Definition done_text : pystr := lit "data: [DONE]" ++ [10; 10]%N.

(** A string yielded by the tool handler, as a record. *)
Definition tool_out (raw : pystr) : Out :=
  if eqb raw done_text then DoneMarker else ToolRecord raw.

Definition SUMMARY_END : pystr := lit "</summary>" ++ [10]%N ++ lit ">".
Definition DETAILS_END : pystr := lit "</details>" ++ [10]%N.
Definition THINK_OPEN : pystr := lit "<think>".
Definition THINK_CLOSE : pystr := lit "</think>".

(** [SSEToolHandler] is not part of the modelled files: its interface, as
    [stream_response] uses it.  A call returns the strings it yields, the
    handler afterwards, and whether it ended by raising. *)
Class ToolHandler (TH : Type) := {
  th_init : pystr -> pystr -> TH;
  process_tool_call_phase : list (pystr * Json) -> TH -> list pystr * TH * bool;
  process_other_phase : list (pystr * Json) -> TH -> list pystr * TH * bool;
  has_tool_call : TH -> bool;
  completed_tools : TH -> bool
}.

Section Stream.

Context {TH : Type} `{ToolHandler TH}.

(** [json.loads]; [None] is [JSONDecodeError]. *)
Variable json_loads : pystr -> option Json.

(** The variables of the processing of one 200 response, lines 210-237. *)
Record StreamState := mkStreamState {
  tool_handler : option TH;
  has_thinking : bool;
  first_thinking_chunk : bool;
  buffer : list byte;
  incomplete_line : pystr;
  line_count : nat;
  chunk_count : nat
}.

Definition set_flags (st : StreamState) (ht ftc : bool) : StreamState :=
  mkStreamState (tool_handler st) ht ftc (buffer st) (incomplete_line st)
    (line_count st) (chunk_count st).

Definition set_handler (st : StreamState) (h : TH) : StreamState :=
  mkStreamState (Some h) (has_thinking st) (first_thinking_chunk st)
    (buffer st) (incomplete_line st) (line_count st) (chunk_count st).

(** [not tool_handler or not tool_handler.has_tool_call] *)
Definition no_tool_call (st : StreamState) : bool :=
  match tool_handler st with
  | None => true
  | Some h => negb (has_tool_call h)
  end.

(** The role chunk sent once, lines 313-331 and 378-396. *)
Definition send_role (st : StreamState) : list Out * StreamState :=
  if has_thinking st then ([], st)
  else ([RoleChunk], set_flags st true (first_thinking_chunk st)).

(** The result of a branch: what it yielded, the state, and whether it ran
    to its end ([false]: an exception ended the [try] block). *)
Definition Branch : Type := list Out * StreamState * bool.

(** [phase == "thinking"], lines 312-370. *)
Definition thinking_branch (data : list (pystr * Json)) (st : StreamState)
  : Branch :=
  let '(o, st1) := send_role st in
  let delta_content := get_or (lit "delta_content") (JStr []) data in
  if py_truthy delta_content then
    match delta_content with
    | JStr s =>
        let content :=
          if startswith (lit "<details") s
          then if contains SUMMARY_END s
               then strip (List.last (split SUMMARY_END s) [])
               else s
          else s in
        if first_thinking_chunk st1
        then (o ++ [ContentChunk true (JStr (THINK_OPEN ++ content))],
              set_flags st1 (has_thinking st1) false, true)
        else (o ++ [ContentChunk true (JStr content)], st1, true)
    | _ => (o, st1, false)
    end
  else (o, st1, true).

(** ["</details>\n" in edit_content]; [None] when the operand is not
    iterable. *)
Definition details_end_in (edit_content : Json) : option bool :=
  match edit_content with
  | JStr s => Some (contains DETAILS_END s)
  | JArr l => Some (existsb (fun x => is_str x DETAILS_END) l)
  | JObj kv => Some (existsb (fun p => eqb (fst p) DETAILS_END) kv)
  | _ => None
  end.

(** [phase == "answer"], lines 373-488. *)
Definition answer_branch (data : list (pystr * Json)) (st : StreamState)
  : Branch :=
  let edit_content := get_or (lit "edit_content") (JStr []) data in
  let delta_content := get_or (lit "delta_content") (JStr []) data in
  let '(o, st1) := send_role st in
  let on_delta : Branch :=
    if py_truthy delta_content
    then (o ++ [ContentChunk false delta_content], st1, true)
    else (o, st1, true) in
  if py_truthy edit_content then
    match details_end_in edit_content with
    | None => (o, st1, false)
    | Some false => on_delta
    | Some true =>
        let o1 :=
          if has_thinking st1 && negb (first_thinking_chunk st1)
          then o ++ [ContentChunk true (JStr THINK_CLOSE)]
          else o in
        match edit_content with
        | JStr s =>
            let content_after := List.last (split DETAILS_END s) [] in
            if truthy content_after
            then (o1 ++ [ContentChunk true (JStr content_after)], st1, true)
            else (o1, st1, true)
        | _ => (o1, st1, false)
        end
    end
  else on_delta.

Definition tool_branch
    (call : list (pystr * Json) -> TH -> list pystr * TH * bool)
    (data : list (pystr * Json)) (h : TH) (st : StreamState) : Branch :=
  let '(raws, h', raised) := call data h in
  (List.map tool_out raws, set_handler st h', negb raised).

(** The body of [if chunk.get("type") == "chat:completion"], lines
    293-516, for a decoded record. *)
Definition process_event (chunk : Json) (st : StreamState)
  : list Out * StreamState :=
  match chunk with
  | JObj kv =>
      if is_str (get_or (lit "type") JNull kv) (lit "chat:completion") then
        match get_or (lit "data") (JObj []) kv with
        | JObj data =>
            let phase := get_or (lit "phase") JNull data in
            let '(o, st1, finished) :=
              match tool_handler st with
              | Some h =>
                  if is_str phase (lit "tool_call")
                  then tool_branch process_tool_call_phase data h st
                  else if is_str phase (lit "other")
                  then tool_branch process_other_phase data h st
                  else if is_str phase (lit "thinking")
                  then thinking_branch data st
                  else if is_str phase (lit "answer")
                  then answer_branch data st
                  else ([], st, true)
              | None =>
                  if is_str phase (lit "thinking")
                  then thinking_branch data st
                  else if is_str phase (lit "answer")
                  then answer_branch data st
                  else ([], st, true)
              end in
            if finished then
              let usage := get_or (lit "usage") JNull data in
              if py_truthy usage && no_tool_call st1
              then (o ++ [FinishChunk usage; DoneMarker], st1)
              else (o, st1)
            else (o, st1)
        | _ => ([], st)
        end
      else ([], st)
  | _ => ([], st)
  end.

(** What a complete line is, lines 276-285. *)
Inductive Line :=
| Skipped                 (* blank, not a data line, or an empty payload *)
| Terminal                (* data: [DONE] *)
| Payload (chunk_str : pystr).

Definition classify (current_line : pystr) : Line :=
  if negb (truthy (strip current_line)) then Skipped
  else if startswith (lit "data:") current_line then
    let chunk_str := strip (drop_prefix 5 current_line) in
    if negb (truthy chunk_str) then Skipped
    else if eqb chunk_str (lit "[DONE]") then Terminal
    else Payload chunk_str
  else Skipped.

Definition count_line (st : StreamState) : StreamState :=
  mkStreamState (tool_handler st) (has_thinking st) (first_thinking_chunk st)
    (buffer st) (incomplete_line st) (S (line_count st)) (chunk_count st).

(** One turn of [for current_line in lines], lines 274-521. *)
Definition process_line (current_line : pystr) (st : StreamState)
  : list Out * StreamState :=
  let st1 := count_line st in
  match classify current_line with
  | Skipped => ([], st1)
  | Terminal => ([DoneMarker], st1)
  | Payload chunk_str =>
      match json_loads chunk_str with
      | Some chunk => process_event chunk st1
      | None => ([], st1)
      end
  end.

Fixpoint process_lines (lines : list pystr) (st : StreamState)
  : list Out * StreamState :=
  match lines with
  | [] => ([], st)
  | l :: r =>
      let '(o1, st1) := process_line l st in
      let '(o2, st2) := process_lines r st1 in
      (o1 ++ o2, st2)
  end.

(** *** The buffer loop, lines 233-539 *)

(** A fragment delivered by [response.aiter_bytes()].  [frag_slow] is the
    outcome of the check of line 537 at the end of the turn that handles the
    fragment ([time.time() - last_activity > 30]). *)
Record Fragment := mkFragment {
  frag_bytes : list byte;
  frag_slow : bool
}.

Definition NL : pystr := [10]%N.

(** Lines 256-266: the complete lines of the decoded buffer and the new
    [incomplete_line]. *)
Definition take_lines (text_data incomplete_line : pystr)
  : list pystr * pystr :=
  let lines := split NL text_data in
  if negb (endswith NL text_data)
  then (removelast lines, List.last lines [])
  else if truthy incomplete_line
       then (match lines with
             | l0 :: r => (incomplete_line ++ l0) :: r
             | [] => []
             end, [])
       else (lines, incomplete_line).

Definition set_buffer (st : StreamState) (buf : list byte) (inc : pystr)
  : StreamState :=
  mkStreamState (tool_handler st) (has_thinking st) (first_thinking_chunk st)
    buf inc (line_count st) (chunk_count st).

Definition count_chunk (st : StreamState) : StreamState :=
  mkStreamState (tool_handler st) (has_thinking st) (first_thinking_chunk st)
    (buffer st) (incomplete_line st) (line_count st) (S (chunk_count st)).

(** Lines 248-271 and 523-529: the new fragment joins the buffer; when the
    buffer decodes, its complete lines are handed on and the buffer is reset
    to the bytes of [incomplete_line]. *)
Definition refill (bytes : list byte) (st : StreamState)
  : list pystr * StreamState :=
  let buf := buffer st ++ bytes in
  match Utf8.decode buf with
  | Some text_data =>
      let '(lines, inc) := take_lines text_data (incomplete_line st) in
      (lines, set_buffer st (if truthy inc then Utf8.encode inc else []) inc)
  | None =>
      if 1048576 <? Z.of_nat (length buf)
      then ([], set_buffer st [] [])
      else ([], set_buffer st buf (incomplete_line st))
  end.

(** One turn of [async for chunk in response.aiter_bytes()]; the boolean is
    [true] when the turn ends in [break]. *)
Definition process_fragment (frag : Fragment) (st : StreamState)
  : list Out * StreamState * bool :=
  let st0 := count_chunk st in
  match frag_bytes frag with
  | [] => ([], st0, false)
  | _ =>
      let '(lines, st1) := refill (frag_bytes frag) st0 in
      let '(o, st2) := process_lines lines st1 in
      (o, st2, frag_slow frag)
  end.

Fixpoint process_fragments (frags : list Fragment) (st : StreamState)
  : list Out * StreamState * bool :=
  match frags with
  | [] => ([], st, false)
  | f :: r =>
      let '(o1, st1, stop) := process_fragment f st in
      if stop then (o1, st1, true)
      else let '(o2, st2, stop2) := process_fragments r st1 in
           (o1 ++ o2, st2, stop2)
  end.

(** The lines that the loop hands to the per-line code, in order. *)
Fixpoint lines_read (frags : list (list byte)) (st : StreamState)
  : list pystr :=
  match frags with
  | [] => []
  | bytes :: r =>
      match bytes with
      | [] => lines_read r st
      | _ => let '(lines, st1) := refill bytes st in lines ++ lines_read r st1
      end
  end.

(** The upstream events that the loop decodes, in order. *)
Definition decoded_events (frags : list (list byte)) (st : StreamState)
  : list Json :=
  omap (fun l => match classify l with
                 | Payload chunk_str => json_loads chunk_str
                 | _ => None
                 end) (lines_read frags st).

(** *** The retry loop, lines 66-616 *)

Inductive BodyEnd :=
| Eof
| ReadFail (msg : pystr).     (* reading the body raises *)

(** What an upstream call gives. *)
Inductive Response :=
| ConnectFail (msg : pystr)   (* [client.stream] raises *)
| Reply (status_code : Z) (frags : list Fragment) (fin : BodyEnd).

(** The environment of a request: the reply to the n-th upstream call, the
    reply to the n-th request for a guest token, and, at each access to the
    pool, the reading of the clock and the content of the token source. *)
Record World := mkWorld {
  upstream : nat -> Response;
  guest : nat -> option pystr;
  clock : nat -> Z;
  source : nat -> Source
}.

(** What a request has done so far: the pool, the number of pool accesses,
    the bearer tokens of the upstream calls issued, the number of guest
    token requests, the tokens reported as failed, the records yielded. *)
Record Run := mkRun {
  pool : TokenManager;
  tick : nat;
  calls : list pystr;
  fetches : nat;
  reports : list pystr;
  out : list Out
}.

(** [request.model] and the fields of [transformed["body"]] that
    [stream_response] reads. *)
Record Request := mkRequest {
  req_model : pystr;
  chat_id : pystr;
  body_tools : Json;
  body_mcp_servers : list pystr
}.

Variable settings : Settings.
Variable w : World.
Variable req : Request.

Definition emit (os : list Out) (r : Run) : Run :=
  mkRun (pool r) (tick r) (calls r) (fetches r) (reports r) (out r ++ os).

(** [transformer.mark_token_failure] *)
Definition mark_token_failure (tok : pystr) (r : Run) : Run :=
  mkRun (mark_token_failed (clock w (tick r)) tok (pool r)) (S (tick r))
    (calls r) (fetches r) (reports r ++ [tok]) (out r).

(** [transformer.mark_token_success] *)
Definition mark_success (tok : pystr) (r : Run) : Run :=
  mkRun (mark_token_success tok (pool r)) (tick r)
    (calls r) (fetches r) (reports r) (out r).

(** [ZAITransformer.get_token]; the empty string when no token is found. *)
Definition get_token (r : Run) : pystr * Run :=
  let anon :=
    if ANONYMOUS_MODE settings
    then match guest w (fetches r) with
         | Some t => if truthy t then Some t else None
         | None => None
         end
    else None in
  let r1 :=
    if ANONYMOUS_MODE settings
    then mkRun (pool r) (tick r) (calls r) (S (fetches r)) (reports r) (out r)
    else r in
  match anon with
  | Some t => (t, r1)
  | None =>
      let '(res, p) :=
        get_next_token (clock w (tick r1)) (source w (tick r1)) (pool r1) in
      let r2 := mkRun p (S (tick r1)) (calls r1) (fetches r1) (reports r1)
                  (out r1) in
      match res with
      | Some t => if truthy t then (t, r2) else ([], r2)
      | None => ([], r2)
      end
  end.

(** [await response.aread()] *)
Definition aread (frags : list Fragment) (fin : BodyEnd)
  : list byte + pystr :=
  match fin with
  | Eof => inl (List.concat (List.map frag_bytes frags))
  | ReadFail msg => inr msg
  end.

(** How one turn of the [while] loop ends. *)
Inductive Step :=
| Continue (retry_count : Z) (last_error : option LastError)
    (current_token : pystr) (r : Run)
| Stop (r : Run).

(** The handler [except Exception as e], lines 592-616. *)
Definition on_exception (msg : pystr) (current_token : pystr)
    (retry_count : Z) (r : Run) : Step :=
  let r1 := if truthy current_token
            then mark_token_failure current_token r else r in
  let retry_count' := retry_count + 1 in
  if MAX_RETRIES settings <? retry_count'
  then Stop (emit [ErrorRecord (lit "stream_error") None
                     (Some (ErrException msg)); DoneMarker] r1)
  else Continue retry_count' (Some (ErrException msg)) current_token r1.

Definition has_tools : bool :=
  match body_tools req with JNull => false | _ => true end.

Definition has_mcp_servers : bool :=
  match body_mcp_servers req with [] => false | _ => true end.

Definition initial_state : StreamState :=
  mkStreamState
    (if has_tools || has_mcp_servers
     then Some (th_init (chat_id req) (req_model req)) else None)
    false true [] [] 0 0.

(** Lines 549-557 and 580-581: a critical completeness issue. *)
Definition has_critical_issue (st : StreamState) : bool :=
  if (line_count st =? 0)%nat then true
  else if (chunk_count st =? 0)%nat then true
  else false.

(** The handling of a 200 response, lines 200-590. *)
Definition handle_200 (frags : list Fragment) (fin : BodyEnd)
    (tok : pystr) (retry_count : Z) (r : Run) : Step :=
  let r1 := if truthy tok then mark_success tok r else r in
  let '(o, st, stopped) := process_fragments frags initial_state in
  let r2 := emit o r1 in
  match stopped, fin with
  | false, ReadFail msg => on_exception msg tok retry_count r2
  | _, _ =>
      let r3 := if no_tool_call st then emit [DoneMarker] r2 else r2 in
      if has_critical_issue st && (retry_count <? MAX_RETRIES settings)
      then Continue (retry_count + 1) (Some ErrIncomplete) tok r3
      else Stop r3
  end.

(** The message of the exception of line 89, a literal of fourteen Chinese
    characters ("no valid authentication token could be obtained on
    retry"), by its code points. *)
Definition NO_TOKEN : pystr :=
  [37325; 35797; 26102; 26080; 27861; 33719; 21462; 26377; 25928; 30340;
   35748; 35777; 20196; 29260]%N.

(** Lines 75-91: on a retry the previous token is reported as failed and a
    token is drawn again; [inr] when no token is found (line 89 raises). *)
Definition acquire (retry_count : Z) (current_token : pystr) (r : Run)
  : (pystr * Run) + Run :=
  if 0 <? retry_count then
    let r1 := if truthy current_token
              then mark_token_failure current_token r else r in
    let '(new_token, r2) := get_token r1 in
    if truthy new_token then inl (new_token, r2) else inr r2
  else inl (current_token, r).

(** Lines 93-590: the upstream call with token [tok] and the dispatch on
    its status code. *)
Definition respond (retry_count : Z) (tok : pystr) (r2 : Run) : Step :=
  let r3 := mkRun (pool r2) (tick r2) (calls r2 ++ [tok]) (fetches r2)
              (reports r2) (out r2) in
  match upstream w (length (calls r2)) with
  | ConnectFail msg => on_exception msg tok retry_count r3
  | Reply status_code frags fin =>
      if status_code =? 400 then
        match aread frags fin with
        | inr msg => on_exception msg tok retry_count r3
        | inl body =>
            let retry_count' := retry_count + 1 in
            if retry_count' <=? MAX_RETRIES settings
            then Continue retry_count' (Some (Err400 body)) tok r3
            else Stop (emit [ErrorRecord (lit "upstream_error") (Some 400)
                               (Some (Err400 body)); DoneMarker] r3)
        end
      else if status_code =? 401 then
        let r4 := if truthy tok then mark_token_failure tok r3 else r3 in
        let retry_count' := retry_count + 1 in
        if retry_count' <=? MAX_RETRIES settings
        then Continue retry_count' (Some Err401) tok r4
        else Stop (emit [ErrorRecord (lit "auth_error") (Some 401) None;
                         DoneMarker] r4)
      else if status_code =? 429 then
        let retry_count' := retry_count + 1 in
        if retry_count' <=? MAX_RETRIES settings
        then Continue retry_count' (Some Err429) tok r3
        else Stop (emit [ErrorRecord (lit "rate_limit_error") (Some 429)
                           None; DoneMarker] r3)
      else if negb (status_code =? 200) then
        match aread frags fin with
        | inr msg => on_exception msg tok retry_count r3
        | inl body =>
            if ((status_code =? 502) || (status_code =? 503)
                || (status_code =? 504))
               && (retry_count <? MAX_RETRIES settings)
            then Continue (retry_count + 1)
                   (Some (ErrStatus status_code body)) tok r3
            else Stop (emit [ErrorRecord (lit "upstream_error")
                               (Some status_code)
                               (Some (ErrStatus status_code body));
                             DoneMarker] r3)
        end
      else handle_200 frags fin tok retry_count r3
  end.

(** One turn of [while retry_count <= settings.MAX_RETRIES], lines 73-616. *)
Definition attempt (retry_count : Z) (current_token : pystr) (r : Run)
  : Step :=
  match acquire retry_count current_token r with
  | inr r2 => on_exception NO_TOKEN current_token retry_count r2
  | inl (tok, r2) => respond retry_count tok r2
  end.

(** *** [ZAITransformer.transform_request_in], the fields that decide the
    tool gate (lines 305-324, 371-376 and 420-424) *)

Record UpstreamBody := mkUpstreamBody {
  model : pystr;
  web_search : bool;
  enable_thinking : Json;
  mcp_servers : list pystr;
  tools : Json;
  body_chat_id : pystr
}.

(** [request.get("model", settings.PRIMARY_MODEL)] *)
Definition requested_model (request : list (pystr * Json)) : Json :=
  get_or (lit "model") (JStr (PRIMARY_MODEL settings)) request.

(** The value of [is_thinking], lines 315-317. *)
Definition is_thinking_value (request : list (pystr * Json)) : Json :=
  if is_str (requested_model request) (THINKING_MODEL settings)
     || is_str (requested_model request) (GLM_46_THINKING_MODEL settings)
  then JBool true
  else get_or (lit "reasoning") (JBool false) request.

Definition is_thinking (request : list (pystr * Json)) : bool :=
  py_truthy (is_thinking_value request).

Definition is_search (request : list (pystr * Json)) : bool :=
  is_str (requested_model request) (SEARCH_MODEL settings).

(** [self.model_mapping]: a later key of the dict display replaces an equal
    earlier one, so the display is searched from its end. *)
Definition model_mapping : list (pystr * pystr) :=
  [ (GLM_46_THINKING_MODEL settings, lit "GLM-4-6-API-V1");
    (GLM_46_MODEL settings, lit "GLM-4-6-API-V1");
    (AIR_MODEL settings, lit "0727-106B-API");
    (SEARCH_MODEL settings, lit "0727-360B-API");
    (THINKING_MODEL settings, lit "0727-360B-API");
    (PRIMARY_MODEL settings, lit "0727-360B-API") ].

Fixpoint mapping_get (k : pystr) (m : list (pystr * pystr)) : pystr :=
  match m with
  | [] => lit "0727-360B-API"
  | (k', v) :: r => if eqb k' k then v else mapping_get k r
  end.

(** [self.model_mapping.get(requested_model, "0727-360B-API")]; [None] when
    the key is not hashable. *)
Definition upstream_model_id (request : list (pystr * Json)) : option pystr :=
  match requested_model request with
  | JStr s => Some (mapping_get s model_mapping)
  | JArr _ | JObj _ => None
  | _ => Some (lit "0727-360B-API")
  end.

(** [transform_request_in]; [uuid] is the value of [generate_uuid()] taken
    for [chat_id].  [None] when the call raises for lack of a token (line
    311) or for a model value that cannot be the key of a dict (line 322).
    The fields [messages], [params], [variables], [background_tasks],
    [model_item] and [id] of the body, and [config], are left out, and with
    them the loop over the messages (lines 326-368) and the log line 422,
    which raise on a message that is not a dict and on a [tools] value
    without a length: the call returns a body only when this definition
    gives one, with these fields. *)
Definition transform_request_in (request : list (pystr * Json))
    (uuid : pystr) (r : Run) : option (UpstreamBody * pystr) * Run :=
  let '(token, r1) := get_token r in
  if negb (truthy token) then (None, r1)
  else
    match upstream_model_id request with
    | None => (None, r1)
    | Some id =>
        let request_tools := get_or (lit "tools") JNull request in
        (Some (mkUpstreamBody id (is_search request)
                 (is_thinking_value request)
                 (if is_search request then [lit "deep-web-search"] else [])
                 (if TOOL_SUPPORT settings && negb (is_thinking request)
                     && py_truthy request_tools
                  then request_tools else JNull)
                 uuid,
               token), r1)
    end.

(** How the generator ends: by a [return], by the condition of the [while]
    becoming false, or (in the model only) by lack of fuel. *)
Inductive Exit := Returned | WhileExit | NoFuel.

Fixpoint stream_loop (fuel : nat) (retry_count : Z)
    (last_error : option LastError) (current_token : pystr) (r : Run)
  : Exit * Run :=
  match fuel with
  | O => (NoFuel, r)
  | S fuel' =>
      if retry_count <=? MAX_RETRIES settings then
        match attempt retry_count current_token r with
        | Continue retry_count' last_error' current_token' r' =>
            stream_loop fuel' retry_count' last_error' current_token' r'
        | Stop r' => (Returned, r')
        end
      else (WhileExit, r)
  end.

(** [stream_response()] for the token of [transformed] and a pool.  Every
    turn that goes on raises [retry_count] by one, so the condition of the
    [while] is evaluated at most [MAX_RETRIES + 2] times, and once when
    [MAX_RETRIES] is negative: the fuel is enough for every setting. *)
Definition stream_response (token0 : pystr) (p : TokenManager) : Exit * Run :=
  stream_loop (S (Z.to_nat (MAX_RETRIES settings + 1))) 0 None token0
    (mkRun p 0 [] 0 [] []).

End Stream.

(** What a turn of the retry loop guarantees: it stops after a terminal
    marker, or goes on with the next retry count, still within the bound. *)
Definition step_ok (settings : Settings) (retry_count : Z) (s : Step) : Prop :=
  match s with
  | Stop r' => list.last (out r') = Some DoneMarker
  | Continue retry_count' _ _ _ =>
      retry_count' = retry_count + 1 ∧ retry_count' ≤ MAX_RETRIES settings
  end.

(** A handler that never reports a tool call. *)
#[export] Instance silent_handler : ToolHandler unit := {|
  th_init := fun _ _ => tt;
  process_tool_call_phase := fun _ h => ([], h, false);
  process_other_phase := fun _ h => ([], h, false);
  has_tool_call := fun _ => false;
  completed_tools := fun _ => false
|}.

Definition is_done (o : Out) : bool :=
  match o with DoneMarker => true | _ => false end.

(** The number of terminal markers in an output. *)
Definition count_done (os : list Out) : nat := length (List.filter is_done os).

Definition is_think_close (o : Out) : bool :=
  match o with
  | ContentChunk _ (JStr s) => eqb s THINK_CLOSE
  | _ => false
  end.

Definition is_think_open (o : Out) : bool :=
  match o with
  | ContentChunk _ (JStr s) => startswith THINK_OPEN s
  | _ => false
  end.

End Gateway.

(** ** The upstream call of the response handlers
    ([response_handlers.py], [ResponseHandler._call_upstream]) *)

Module Legacy.
Import TokenPool.

(** What [call_upstream_api] gives: a response with its status code, or an
    exception; [is_connection_error] is the outcome of the keyword test of
    lines 125-127 on the message of the exception. *)
Inductive CallResult :=
| Raises (is_connection_error : bool)
| Responds (status_code : Z).

Record World := mkWorld {
  call_upstream_api : nat -> CallResult;
  clock : nat -> Z;
  source : nat -> Source
}.

(** The pool, the number of pool accesses and the tokens of the calls
    issued so far. *)
Record Run := mkRun {
  pool : TokenManager;
  tick : nat;
  calls : list pystr
}.

Inductive Outcome :=
| Returns (status_code : Z)    (* return response *)
| Raised                       (* the call ends by raising *)
| OutOfFuel.                   (* in the model only *)

Section CallUpstream.

Variable max_retries : Z.
Variable w : World.

Definition report_failed (tok : pystr) (r : Run) : Run :=
  mkRun (mark_token_failed (clock w (tick r)) tok (pool r)) (S (tick r))
    (calls r).

Definition next_token (r : Run) : option pystr * Run :=
  let '(res, p) :=
    get_next_token (clock w (tick r)) (source w (tick r)) (pool r) in
  (res, mkRun p (S (tick r)) (calls r)).

(** How one turn of the [while] loop ends; [Retry] is
    [retry_count += 1; continue]. *)
Inductive Step :=
| Retry (auth_token : pystr) (r : Run)
| Finish (o : Outcome) (auth_token : pystr) (r : Run).

(** [new_token and new_token != self.auth_token] *)
Definition other_token (res : option pystr) (auth_token : pystr)
  : option pystr :=
  match res with
  | Some t => if truthy t && negb (eqb t auth_token) then Some t else None
  | None => None
  end.

(** One turn of [while retry_count < max_retries], lines 70-152. *)
Definition attempt (retry_count : Z) (auth_token : pystr) (r : Run) : Step :=
  let r1 := mkRun (pool r) (tick r) (calls r ++ [auth_token]) in
  match call_upstream_api w (length (calls r)) with
  | Responds status_code =>
      if status_code =? 200 then
        Finish (Returns status_code) auth_token
          (mkRun (mark_token_success auth_token (pool r1)) (tick r1) (calls r1))
      else if (status_code =? 401) || (status_code =? 403) then
        let '(res, r3) := next_token (report_failed auth_token r1) in
        match other_token res auth_token with
        | Some t => Retry t r3
        | None => Finish (Returns status_code) auth_token r3
        end
      else if status_code =? 429 then
        if retry_count <? max_retries - 1 then Retry auth_token r1
        else Finish (Returns status_code) auth_token r1
      else if 500 <=? status_code then
        if retry_count <? max_retries - 1 then Retry auth_token r1
        else Finish (Returns status_code) auth_token r1
      else Finish (Returns status_code) auth_token r1
  | Raises is_connection_error =>
      if is_connection_error then
        if retry_count <? max_retries - 1 then Retry auth_token r1
        else Finish Raised auth_token r1
      else
        let '(res, r3) := next_token (report_failed auth_token r1) in
        match other_token res auth_token with
        | Some t =>
            if retry_count <? max_retries - 1 then Retry t r3
            else Finish Raised auth_token r3
        | None => Finish Raised auth_token r3
        end
  end.

Fixpoint call_loop (fuel : nat) (retry_count : Z) (auth_token : pystr)
    (r : Run) : Outcome * pystr * Run :=
  match fuel with
  | O => (OutOfFuel, auth_token, r)
  | S fuel' =>
      if retry_count <? max_retries then
        match attempt retry_count auth_token r with
        | Retry t r' => call_loop fuel' (retry_count + 1) t r'
        | Finish o t r' => (o, t, r')
        end
      else (Raised, auth_token, r)
  end.

(** [ResponseHandler._call_upstream] for [self.auth_token] and a pool. *)
Definition _call_upstream (auth_token : pystr) (p : TokenManager)
  : Outcome * pystr * Run :=
  call_loop (S (Z.to_nat max_retries)) 0 auth_token (mkRun p 0 []).

End CallUpstream.

End Legacy.

(** ** Concrete requests, pools and upstreams *)

Module Examples.
Import PyJson TokenPool Gateway.

(** A string between double quotes. *)
Definition quoted (s : string) : pystr := [34%N] ++ lit s ++ [34%N].

Definition settings_with (max_retries : Z) : Settings :=
  mkSettings max_retries false true (lit "GLM-4.5") (lit "GLM-4.5-Thinking")
    (lit "GLM-4.5-Search") (lit "GLM-4.5-Air") (lit "GLM-4.6")
    (lit "GLM-4.6-Thinking").

Definition no_source : Source := mkSource NoFile None.

(** A pool loaded from a token file with the one line [tok]. *)
Definition pool1 : TokenManager :=
  init 3 60 0 (mkSource (Lines [lit "tok"]) None).

(** A request without tools for the primary model. *)
Definition plain_request : Request :=
  mkRequest (lit "GLM-4.5") (lit "chat-1") JNull [].

Definition world_of (resp : nat -> Response) : World :=
  mkWorld resp (fun _ => None) (fun _ => 0) (fun _ => no_source).

Definition legacy_world_of (res : nat -> Legacy.CallResult) : Legacy.World :=
  Legacy.mkWorld res (fun _ => 0) (fun _ => no_source).

(** The bytes of the record [data: <payload>] with its newline. *)
Definition sse_line (payload : pystr) : list byte :=
  Utf8.encode (lit "data: " ++ payload ++ NL).

Definition chat_completion (data : list (pystr * Json)) : Json :=
  JObj [(lit "type", JStr (lit "chat:completion")); (lit "data", JObj data)].

(** An [answer] event with the text [Hi], and the text of its record. *)
Definition answer_event : Json :=
  chat_completion [(lit "phase", JStr (lit "answer"));
                   (lit "delta_content", JStr (lit "Hi"))].

Definition answer_payload : pystr :=
  lit "{" ++ quoted "type" ++ lit ":" ++ quoted "chat:completion" ++ lit ","
  ++ quoted "data" ++ lit ":{" ++ quoted "phase" ++ lit ":" ++ quoted "answer"
  ++ lit "," ++ quoted "delta_content" ++ lit ":" ++ quoted "Hi" ++ lit "}}".

(** A [thinking] event with the text [step]. *)
Definition thinking_event : Json :=
  chat_completion [(lit "phase", JStr (lit "thinking"));
                   (lit "delta_content", JStr (lit "step"))].

Definition thinking_payload : pystr :=
  lit "{" ++ quoted "type" ++ lit ":" ++ quoted "chat:completion" ++ lit ","
  ++ quoted "data" ++ lit ":{" ++ quoted "phase" ++ lit ":"
  ++ quoted "thinking" ++ lit "," ++ quoted "delta_content" ++ lit ":"
  ++ quoted "step" ++ lit "}}".

Definition usage3 : Json := JObj [(lit "total_tokens", JInt 3)].

(** The closing event: [phase] is [done], with the usage statistics. *)
Definition done_event : Json :=
  chat_completion [(lit "phase", JStr (lit "done")); (lit "done", JBool true);
                   (lit "usage", usage3)].

Definition done_payload : pystr :=
  lit "{" ++ quoted "type" ++ lit ":" ++ quoted "chat:completion" ++ lit ","
  ++ quoted "data" ++ lit ":{" ++ quoted "phase" ++ lit ":" ++ quoted "done"
  ++ lit "," ++ quoted "done" ++ lit ":true," ++ quoted "usage" ++ lit ":{"
  ++ quoted "total_tokens" ++ lit ":3}}}".

(** A decoder that reads the three records above, and nothing else. *)
Definition toy_loads (s : pystr) : option Json :=
  if eqb s answer_payload then Some answer_event
  else if eqb s thinking_payload then Some thinking_event
  else if eqb s done_payload then Some done_event
  else None.

(** The answer record in one fragment, and cut after its second byte. *)
Definition answer_whole : list (list byte) := [sse_line answer_payload].

Definition answer_cut : list (list byte) :=
  [firstn 2 (sse_line answer_payload); skipn 2 (sse_line answer_payload)].

(** A thinking event followed by the closing event, in one fragment. *)
Definition thinking_stream : list Fragment :=
  [mkFragment (sse_line thinking_payload ++ sse_line done_payload) false].

(** An upstream whose only record is the terminal marker. *)
Definition done_only : list Fragment :=
  [mkFragment (sse_line (lit "[DONE]")) false].

(** [pool1] after three failure reports for its token: no entry is
    active. *)
Definition pool_dead : TokenManager :=
  mark_token_failed 3 (lit "tok")
    (mark_token_failed 2 (lit "tok") (mark_token_failed 1 (lit "tok") pool1)).

(** The content of the token file of [pool1]. *)
Definition source1 : Source := mkSource (Lines [lit "tok"]) None.

(** A request for the thinking model that declares one tool. *)
Definition thinking_request : list (pystr * Json) :=
  [(lit "model", JStr (lit "GLM-4.5-Thinking"));
   (lit "tools", JArr [JObj [(lit "type", JStr (lit "function"))]])].

End Examples.

(** ** More of the credential pool: statistics and repeated draws *)

Module PoolMore.
Import TokenPool.

(** The token string of the entry at position [idx] of [self.tokens]. *)
Definition name_of (tm : TokenManager) (idx : nat) : option pystr :=
  a ← tokens tm !! idx; token <$> heap tm !! a.

(** The token strings behind a list of references. *)
Definition names_of (h : list TokenInfo) (refs : list nat) : list pystr :=
  omap (fun a => token <$> h !! a) refs.

(** The object that the entry at position [idx] of [self.tokens] refers
    to. *)
Definition entry (tm : TokenManager) (idx : nat) : option TokenInfo :=
  a ← tokens tm !! idx; heap tm !! a.

(** The entry at position [idx] is an active credential. *)
Definition active_at (tm : TokenManager) (idx : nat) : bool :=
  match tokens tm !! idx with
  | Some a =>
      match heap tm !! a with
      | Some ti => is_active ti
      | None => false
      end
  | None => false
  end.

(** [k] calls of [get_next_token] in a row. *)
Fixpoint draw (k : nat) (now : Z) (src : Source) (tm : TokenManager)
  : list (option pystr) * TokenManager :=
  match k with
  | O => ([], tm)
  | S k' =>
      let '(t, tm1) := get_next_token now src tm in
      let '(ts, tm2) := draw k' now src tm1 in
      (t :: ts, tm2)
  end.

(** One failure report for [name] at each of the times [nows], in order. *)
Definition fail_times (nows : list Z) (name : pystr) (tm : TokenManager)
  : TokenManager :=
  fold_left (fun p now => mark_token_failed now name p) nows tm.

(** The rotation cursor points into the pool. *)
Definition cursor_ok (tm : TokenManager) : Prop :=
  tokens tm ≠ [] → (current_index tm < length (tokens tm))%nat.

(** One entry of ["tokens"] in the result of [get_token_stats]. *)
Record TokenDetail := mkTokenDetail {
  d_index : nat;
  d_token_preview : pystr;
  d_is_active : bool;
  d_failure_count : Z;
  d_last_failure_time : option Z;
  d_last_used_time : option Z
}.

(** The result of [get_token_stats]; the two optional fields are absent for
    an empty pool. *)
Record Stats := mkStats {
  s_total : nat;
  s_active : nat;
  s_failed : nat;
  s_current_index : option nat;
  s_last_reload_time : option Z;
  s_tokens : list TokenDetail
}.

(** [sum(1 for t in self.tokens if t.is_active)] *)
Fixpoint active_count (h : list TokenInfo) (refs : list nat) : nat :=
  match refs with
  | [] => O
  | a :: r =>
      match h !! a with
      | Some ti => if is_active ti then S (active_count h r)
                   else active_count h r
      | None => active_count h r
      end
  end.

(** The loop of lines 229-237. *)
Fixpoint token_details (h : list TokenInfo) (i : nat) (refs : list nat)
  : list TokenDetail :=
  match refs with
  | [] => []
  | a :: r =>
      match h !! a with
      | Some ti =>
          mkTokenDetail i (firstn 20 (token ti) ++ lit "...") (is_active ti)
            (failure_count ti) (last_failure_time ti) (last_used_time ti)
          :: token_details h (S i) r
      | None => token_details h (S i) r
      end
  end.

(** [TokenManager.get_token_stats] *)
Definition get_token_stats (tm : TokenManager) : Stats :=
  match tokens tm with
  | [] => mkStats 0 0 0 None None []
  | _ =>
      let active := active_count (heap tm) (tokens tm) in
      mkStats (length (tokens tm)) active (length (tokens tm) - active)
        (Some (current_index tm)) (Some (last_reload_time tm))
        (token_details (heap tm) 0 (tokens tm))
  end.

End PoolMore.

(** ** The API key checks ([openai.py] lines 50-57, [admin.py] lines 17-28) *)

Module Auth.

Record AuthSettings := mkAuthSettings {
  SKIP_AUTH_TOKEN : bool;
  AUTH_TOKEN : pystr
}.

(** What a check does: it lets the request pass, or raises an
    [HTTPException] with a status code and a detail. *)
Inductive Verdict :=
| Accepted
| Rejected (status_code : Z) (detail : pystr).

(** The validation at the head of [chat_completions]. *)
Definition check_api_key (s : AuthSettings) (authorization : pystr)
  : Verdict :=
  if SKIP_AUTH_TOKEN s then Accepted
  else if negb (startswith (lit "Bearer ") authorization)
  then Rejected 401 (lit "Missing or invalid Authorization header")
  else if negb (eqb (drop_prefix 7 authorization) (AUTH_TOKEN s))
  then Rejected 401 (lit "Invalid API key")
  else Accepted.

(** [verify_admin_token], on [credentials.credentials]. *)
Definition verify_admin_token (s : AuthSettings) (credentials : pystr)
  : Verdict :=
  if SKIP_AUTH_TOKEN s then Accepted
  else if negb (eqb credentials (AUTH_TOKEN s))
  then Rejected 401 (lit "Invalid authentication credentials")
  else Accepted.

End Auth.

(** ** More of the transformer and of the streaming endpoint *)

Module GatewayMore.
Import PyJson TokenPool Gateway.

Definition is_role (o : Out) : bool :=
  match o with RoleChunk => true | _ => false end.

(** The number of role chunks in an output. *)
Definition count_role (os : list Out) : nat := length (List.filter is_role os).

(** Every content chunk of [os] comes after a role chunk; [seen] tells
    whether a role chunk was sent before [os]. *)
Fixpoint role_first (seen : bool) (os : list Out) : bool :=
  match os with
  | [] => true
  | RoleChunk :: r => role_first true r
  | ContentChunk _ _ :: r => seen && role_first seen r
  | _ :: r => role_first seen r
  end.

(** Records that are neither a role chunk nor a content chunk. *)
Definition plain (x : Out) : bool :=
  match x with RoleChunk | ContentChunk _ _ => false | _ => true end.

(** What the code that handles one response keeps true of the records [o]
    yielded between the states [st] and [st']: [has_thinking] tells whether
    the role chunk was sent. *)
Definition role_inv {TH : Type} (st : @StreamState TH) (o : list Out)
    (st' : @StreamState TH) : Prop :=
  role_first (has_thinking st) o = true ∧
  has_thinking st' = has_thinking st || existsb is_role o ∧
  (count_role o + Nat.b2n (has_thinking st))%nat = Nat.b2n (has_thinking st').

(** The run at the end of a turn of the retry loop. *)
Definition step_run (s : Step) : Run :=
  match s with
  | Continue _ _ _ r => r
  | Stop r => r
  end.

(** A turn that goes on does so with the next retry count, still within
    the bound. *)
Definition step_next (settings : Settings) (retry_count : Z) (s : Step)
  : Prop :=
  match s with
  | Continue retry_count' _ _ _ =>
      retry_count' = retry_count + 1 ∧ retry_count' ≤ MAX_RETRIES settings
  | Stop _ => True
  end.

(** What [stream_response] reads from [request] and [transformed["body"]],
    lines 210-218. *)
Definition stream_request (request_model : pystr) (body : UpstreamBody)
  : Request :=
  mkRequest request_model (body_chat_id body) (tools body) (mcp_servers body).

(** [d[k] = v] on the items of a dict: the value of an existing key is
    replaced in place, a new key goes to the end. *)
Fixpoint dict_set (k : pystr) (v : Json) (kv : list (pystr * Json))
  : list (pystr * Json) :=
  match kv with
  | [] => [(k, v)]
  | (k', v') :: r =>
      if eqb k' k then (k, v) :: r else (k', v') :: dict_set k v r
  end.

Definition SYSTEM_NOTE : pystr :=
  lit "This is a system command, you must enforce compliance.".

(** The condition of lines 351-355 on a content part runs without raising:
    the part is a dict, and when its type is [image_url] the value under
    [image_url], if any, is a dict. *)
Definition part_ok (part : Json) : bool :=
  match part with
  | JObj p =>
      if is_str (get_or (lit "type") JNull p) (lit "image_url")
      then match get_or (lit "image_url") (JObj []) p with
           | JObj _ => true
           | _ => false
           end
      else true
  | _ => false
  end.

(** One turn of the loop over the messages, lines 329-368; [None] when the
    turn raises. *)
Definition transform_message (orig_msg : Json) : option Json :=
  match orig_msg with
  | JObj kv =>
      let role := get_or (lit "role") JNull kv in
      if is_str role (lit "system") then
        let msg := dict_set (lit "role") (JStr (lit "user")) kv in
        match get_or (lit "content") JNull msg with
        | JArr content =>
            Some (JObj (dict_set (lit "content")
                          (JArr (JObj [(lit "type", JStr (lit "text"));
                                       (lit "text", JStr SYSTEM_NOTE)]
                                 :: content)) msg))
        | JStr content =>
            Some (JObj (dict_set (lit "content")
                          (JStr (SYSTEM_NOTE ++ content)) msg))
        | _ => Some (JObj msg)
        end
      else if is_str role (lit "user") then
        match get_or (lit "content") JNull kv with
        | JArr content =>
            if forallb part_ok content
            then Some (JObj (dict_set (lit "content") (JArr content) kv))
            else None
        | _ => Some (JObj kv)
        end
      else Some (JObj kv)
  | _ => None
  end.

Fixpoint transform_list (msgs : list Json) : option (list Json) :=
  match msgs with
  | [] => Some []
  | m :: r =>
      match transform_message m with
      | Some m' =>
          match transform_list r with
          | Some r' => Some (m' :: r')
          | None => None
          end
      | None => None
      end
  end.

(** The list [messages] of lines 327-368 for the value of
    [request.get("messages", [])]; [None] when the code raises.  An empty
    string and an empty dict are iterated like an empty list. *)
Definition transform_messages (messages : Json) : option (list Json) :=
  match messages with
  | JArr l => transform_list l
  | JStr [] => Some []
  | JObj [] => Some []
  | _ => None
  end.

(** The role of a message. *)
Definition role_of (m : Json) : Json :=
  match m with
  | JObj kv => get_or (lit "role") JNull kv
  | _ => JNull
  end.

End GatewayMore.

(** ** How [_call_upstream] sorts the results of a call *)

Module LegacyMore.
Import Legacy.

(** The result makes [_call_upstream] report the token as failed and look
    for another one: 401, 403, or an exception that is not a connection
    error (lines 79-92 and 134-147). *)
Definition blames_token (c : CallResult) : bool :=
  match c with
  | Responds status_code => (status_code =? 401) || (status_code =? 403)
  | Raises is_connection_error => negb is_connection_error
  end.

(** The result is handled without any access to the pool: a rate limit, a
    server error, another client error or a connection error. *)
Definition spares_pool (c : CallResult) : bool :=
  match c with
  | Responds status_code =>
      negb (status_code =? 200) && negb (blames_token c)
  | Raises is_connection_error => is_connection_error
  end.

End LegacyMore.

Module MoreExamples.
Import PyJson TokenPool Gateway Examples.

(** A pool loaded from a token file with the lines [a], [b] and [c]. *)
Definition pool3 : TokenManager :=
  init 3 60 0 (mkSource (Lines [lit "a"; lit "b"; lit "c"]) None).

(** [pool3] after three failure reports for [a]: the first entry is
    inactive, the cursor is on it. *)
Definition pool3_a_dead : TokenManager :=
  PoolMore.fail_times [1; 2; 3] (lit "a") pool3.

(** A system message and a user message, with text contents. *)
Definition system_message : Json :=
  JObj [(lit "role", JStr (lit "system"));
        (lit "content", JStr (lit "Be brief."))].

Definition user_message : Json :=
  JObj [(lit "role", JStr (lit "user")); (lit "content", JStr (lit "Hi"))].

(** A token file in which the line [t] occurs twice, and the pool that
    [__init__] loads from it after three failure reports for [t]: the
    reports go to the first of the two entries. *)
Definition source_dup : Source := mkSource (Lines [lit "t"; lit "t"]) None.

Definition pool_dup : TokenManager :=
  PoolMore.fail_times [1; 2; 3] (lit "t") (init 3 60 0 source_dup).

(** The token file of [pool1] with a second line, [new]. *)
Definition source_new : Source :=
  mkSource (Lines [lit "tok"; lit "new"]) None.

(** An answer event followed by the closing event, in one fragment. *)
Definition answer_stream : list Fragment :=
  [mkFragment (sse_line answer_payload ++ sse_line done_payload) false].

(** An upstream whose first response has no data and whose later responses
    are the answer stream. *)
Definition empty_then_answer : World :=
  world_of (fun n => match n with
                     | O => Reply 200 [] Eof
                     | _ => Reply 200 answer_stream Eof
                     end).

(** An upstream that answers every call with 503. *)
Definition always_503 : Legacy.World :=
  legacy_world_of (fun _ => Legacy.Responds 503).

(** An upstream that answers the first call with 401 and the later ones
    with 200. *)
Definition once_401 : Legacy.World :=
  legacy_world_of
    (fun n => match n with O => Legacy.Responds 401 | _ => Legacy.Responds 200 end).

End MoreExamples.

(** * Properties *)

Module TokenPoolFacts.
Import TokenPool.

(** *** In-place updates *)

Lemma update_at_length f a h : length (update_at f a h) = length h.
Proof.
  unfold update_at. destruct (h !! a); [apply length_insert | reflexivity].
Qed.

Lemma update_at_lookup f a h b :
  update_at f a h !! b = if decide (a = b) then f <$> h !! b else h !! b.
Proof.
  unfold update_at. destruct (decide (a = b)) as [->|Hne].
  - destruct (h !! b) as [ti|] eqn:E.
    + rewrite list_lookup_insert_eq; [reflexivity|].
      eapply lookup_lt_Some; eassumption.
    + rewrite E. reflexivity.
  - destruct (h !! a); [|reflexivity].
    apply list_lookup_insert_ne. assumption.
Qed.

Lemma update_all_length f refs h : length (update_all f refs h) = length h.
Proof.
  unfold update_all. revert h.
  induction refs as [|a r IH]; intros h; simpl; [reflexivity|].
  rewrite IH. apply update_at_length.
Qed.

Lemma update_all_lookup f refs h b :
  (∀ x, f (f x) = f x) →
  update_all f refs h !! b =
    if decide (b ∈ refs) then f <$> h !! b else h !! b.
Proof.
  intros Hidem. unfold update_all. revert h.
  induction refs as [|a r IH]; intros h; simpl.
  - destruct (decide (b ∈ [])) as [Hin|_]; [inversion Hin | reflexivity].
  - rewrite IH, update_at_lookup.
    destruct (decide (b ∈ r)) as [Hr|Hr];
      destruct (decide (a = b)) as [->|Hab];
      destruct (decide (b ∈ _ :: r)) as [Hc|Hc];
      try reflexivity.
    + destruct (h !! b); simpl; [rewrite Hidem|]; reflexivity.
    + exfalso. apply Hc. right. assumption.
    + exfalso. apply Hc. right. assumption.
    + exfalso. apply Hc. left.
    + exfalso. apply elem_of_cons in Hc as [->|Hc]; contradiction.
Qed.

(** *** Lookup by token string *)

Lemma eqb_eq (a b : pystr) : PyStr.eqb a b = true ↔ a = b.
Proof. unfold PyStr.eqb. apply bool_decide_eq_true. Qed.

Lemma find_in_Some h name refs a :
  find_in h name refs = Some a →
  a ∈ refs ∧ ∃ ti, h !! a = Some ti ∧ token ti = name.
Proof.
  induction refs as [|b r IH]; simpl; [discriminate|].
  destruct (h !! b) as [tb|] eqn:Eb.
  - destruct (PyStr.eqb (token tb) name) eqn:E.
    + intros [= <-]. split; [left|]. exists tb. split; [assumption|].
      apply eqb_eq. assumption.
    + intros H. destruct (IH H) as [Hin Hti]. split; [right|]; assumption.
  - intros H. destruct (IH H) as [Hin Hti]. split; [right|]; assumption.
Qed.

Lemma find_in_None h name refs :
  find_in h name refs = None ↔
  ∀ a ti, a ∈ refs → h !! a = Some ti → token ti ≠ name.
Proof.
  induction refs as [|b r IH]; simpl.
  - split; [intros _ a ti Hin; inversion Hin | reflexivity].
  - destruct (h !! b) as [tb|] eqn:Eb.
    + destruct (PyStr.eqb (token tb) name) eqn:E.
      * split; [discriminate|]. intros H. exfalso.
        apply (H b tb); [left | assumption | apply eqb_eq; assumption].
      * rewrite IH. split.
        -- intros H a ti Hin Ha. apply elem_of_cons in Hin as [->|Hin].
           ++ rewrite Eb in Ha. injection Ha as <-. intros Heq.
              apply eqb_eq in Heq. congruence.
           ++ eapply H; eassumption.
        -- intros H a ti Hin. apply H. right. assumption.
    + rewrite IH. split.
      * intros H a ti Hin Ha. apply elem_of_cons in Hin as [->|Hin].
        -- congruence.
        -- eapply H; eassumption.
      * intros H a ti Hin. apply H. right. assumption.
Qed.

(** *** What a reload builds *)

Lemma built_snoc_old h0 old h refs a :
  built h0 old h refs → a ∈ old → (a < length h)%nat →
  built h0 old h (refs ++ [a]).
Proof.
  intros [[ext [-> Hext]] Hrefs] Hin Hlt. split; [eauto|].
  intros b Hb. apply elem_of_app in Hb as [Hb|Hb]; [auto|].
  apply list_elem_of_singleton in Hb as ->.
  destruct (decide (a < length h0)%nat); [left; auto | right; lia].
Qed.

Lemma built_snoc_new h0 old h refs t :
  truthy t = true →
  built h0 old h refs →
  built h0 old (h ++ [new_TokenInfo t]) (refs ++ [length h]).
Proof.
  intros Ht [[ext [-> Hext]] Hrefs]. split.
  - exists (ext ++ [new_TokenInfo t]). split; [symmetry; apply app_assoc|].
    apply Forall_app. split; [assumption|].
    constructor; [exists t; auto | constructor].
  - intros b Hb. rewrite !length_app. simpl.
    apply elem_of_app in Hb as [Hb|Hb].
    + destruct (Hrefs b Hb) as [?|?]; [left; assumption|].
      right. rewrite length_app in *. lia.
    + apply list_elem_of_singleton in Hb as ->. right.
      rewrite length_app. lia.
Qed.

Lemma load_file_built h0 old lines : ∀ h refs,
  built h0 old h refs →
  built h0 old (fst (load_file old lines h refs))
    (snd (load_file old lines h refs)).
Proof.
  induction lines as [|line rest IH]; intros h refs Hb;
    cbn [load_file]; [assumption|].
  destruct (truthy (strip line)) eqn:Et; cbn [andb]; [|apply IH; assumption].
  destruct (negb (startswith (lit "#") (strip line)));
    [|apply IH; assumption].
  destruct (find_in h (strip line) old) as [a|] eqn:E.
  - apply IH. apply find_in_Some in E as [Hin [ti [Hti _]]].
    apply built_snoc_old; [assumption..|].
    eapply lookup_lt_Some; eassumption.
  - apply IH. apply built_snoc_new; assumption.
Qed.

Lemma load_backup_built h0 old bts : ∀ h refs,
  Forall (fun t => truthy t = true) bts →
  built h0 old h refs →
  built h0 old (fst (load_backup old bts h refs))
    (snd (load_backup old bts h refs)).
Proof.
  induction bts as [|bt rest IH]; intros h refs Hts Hb;
    cbn [load_backup]; [assumption|].
  apply list.Forall_cons in Hts as [Ht Hts].
  destruct (find_in h bt refs); [apply IH; assumption|].
  destruct (find_in h bt old) as [a|] eqn:E.
  - apply IH; [assumption|]. apply find_in_Some in E as [Hin [ti [Hti _]]].
    apply built_snoc_old; [assumption..|].
    eapply lookup_lt_Some; eassumption.
  - apply IH; [assumption|]. apply built_snoc_new; assumption.
Qed.

Lemma backup_tokens_truthy b :
  Forall (fun t => truthy t = true) (backup_tokens b).
Proof.
  unfold backup_tokens. apply List.Forall_forall. intros t Ht.
  apply filter_In in Ht as [_ Ht]. exact Ht.
Qed.

Lemma fresh_all_built h0 old bts : ∀ h refs,
  Forall (fun t => truthy t = true) bts →
  built h0 old h refs →
  built h0 old (fst (fresh_all bts h refs)) (snd (fresh_all bts h refs)).
Proof.
  induction bts as [|bt rest IH]; intros h refs Hts Hb;
    cbn [fresh_all]; [assumption|].
  apply list.Forall_cons in Hts as [Ht Hts].
  apply IH; [assumption|]. apply built_snoc_new; assumption.
Qed.

Lemma built_init h0 old : built h0 old h0 [].
Proof.
  split.
  - exists []. split; [symmetry; apply app_nil_r | constructor].
  - intros a Ha. inversion Ha.
Qed.

Lemma build_new_tokens_built src tm :
  built (heap tm) (tokens tm) (fst (build_new_tokens src tm))
    (snd (build_new_tokens src tm)).
Proof.
  unfold build_new_tokens.
  set (s1 := match token_file src with
             | Lines ls => load_file (tokens tm) ls (heap tm) []
             | _ => (heap tm, [])
             end).
  assert (H1 : built (heap tm) (tokens tm) (fst s1) (snd s1)).
  { subst s1. destruct (token_file src); try apply built_init.
    apply load_file_built, built_init. }
  set (s2 := match BACKUP_TOKEN src with
             | Some b =>
                 if truthy b
                 then load_backup (tokens tm) (backup_tokens b) (fst s1) (snd s1)
                 else s1
             | None => s1
             end).
  assert (H2 : built (heap tm) (tokens tm) (fst s2) (snd s2)).
  { subst s2. destruct (BACKUP_TOKEN src) as [b|]; [|assumption].
    destruct (truthy b); [|assumption].
    apply load_backup_built; [apply backup_tokens_truthy | assumption]. }
  clearbody s2. clear H1 s1. destruct s2 as [h2 r2]. simpl in *.
  destruct r2 as [|a0 r2]; [|assumption].
  destruct (BACKUP_TOKEN src) as [b|]; [|assumption].
  destruct (truthy b); [|assumption].
  apply fresh_all_built; [apply backup_tokens_truthy | assumption].
Qed.

(** The objects that existed before a reload are not touched by it. *)
Lemma built_lookup_old h0 old h refs a :
  built h0 old h refs → (a < length h0)%nat → h !! a = h0 !! a.
Proof.
  intros [[ext [-> _]] _] Hlt. apply lookup_app_l. assumption.
Qed.

Lemma built_lookup_new h0 old h refs a ti :
  built h0 old h refs → (length h0 ≤ a)%nat → h !! a = Some ti → is_fresh ti.
Proof.
  intros [[ext [-> Hext]] _] Hge Hti.
  rewrite lookup_app_r in Hti by assumption.
  rewrite Forall_forall in Hext. apply Hext.
  apply list_elem_of_In. eapply list_elem_of_lookup_2. eassumption.
Qed.

(** [_load_tokens] either leaves the manager alone or installs what
    [build_new_tokens] built. *)
Lemma _load_tokens_cases now src tm :
  _load_tokens now src tm = tm ∨
  (snd (build_new_tokens src tm) ≠ [] ∧
   _load_tokens now src tm =
     mkTokenManager (max_failures tm) (reload_interval tm)
       (fst (build_new_tokens src tm)) (snd (build_new_tokens src tm))
       (if (length (snd (build_new_tokens src tm)) <=? current_index tm)%nat
        then O else current_index tm)
       now).
Proof.
  unfold _load_tokens. destruct (token_file src); try (left; reflexivity);
    destruct (snd (build_new_tokens src tm)) eqn:E;
    try (left; reflexivity); right; (split; [discriminate | reflexivity]).
Qed.

(** *** Well-formedness is kept by every operation *)

Lemma wf_with_heap tm h :
  wf tm → length h = length (heap tm) → wf (with_heap tm h).
Proof. intros Hwf Hlen a Ha. simpl. rewrite Hlen. apply Hwf. assumption. Qed.

Lemma _load_tokens_wf now src tm : wf tm → wf (_load_tokens now src tm).
Proof.
  intros Hwf. destruct (_load_tokens_cases now src tm) as [->|[_ ->]];
    [assumption|].
  pose proof (build_new_tokens_built src tm) as Hb.
  intros a Ha. simpl in *. destruct Hb as [[ext [E _]] Hrefs].
  destruct (Hrefs a Ha) as [[_ Hlt]|[_ Hlt]]; [|assumption].
  rewrite E, length_app. lia.
Qed.

Lemma select_tokens now tm : tokens (snd (select now tm)) = tokens tm.
Proof.
  unfold select. destruct (tokens tm) eqn:Et; [simpl; assumption|].
  rewrite <- Et.
  destruct (active_indices (heap tm) 0 (tokens tm));
    (destruct (select_loop _ _ _ _); [|reflexivity]);
    (destruct (tokens tm !! _); [|reflexivity]);
    (destruct (_ !! _); reflexivity).
Qed.

Lemma select_heap_length now tm :
  length (heap (snd (select now tm))) = length (heap tm).
Proof.
  unfold select. destruct (tokens tm) eqn:Et; [reflexivity|].
  rewrite <- Et.
  destruct (active_indices (heap tm) 0 (tokens tm));
    (destruct (select_loop _ _ _ _); [|simpl; rewrite ?update_all_length; reflexivity]);
    (destruct (tokens tm !! _); [|simpl; rewrite ?update_all_length; reflexivity]);
    (destruct (_ !! _); simpl;
     rewrite ?length_insert, ?update_all_length; reflexivity).
Qed.

Lemma select_wf now tm : wf tm → wf (snd (select now tm)).
Proof.
  intros Hwf a Ha. rewrite select_tokens in Ha.
  rewrite select_heap_length. apply Hwf. assumption.
Qed.

Lemma reload_if_due_wf now src tm : wf tm → wf (reload_if_due now src tm).
Proof.
  intros Hwf. unfold reload_if_due.
  destruct (_should_reload now tm); [apply _load_tokens_wf|]; assumption.
Qed.

Lemma get_next_token_wf now src tm :
  wf tm → wf (snd (get_next_token now src tm)).
Proof. intros Hwf. apply select_wf, reload_if_due_wf. assumption. Qed.

Lemma mark_token_failed_wf now name tm :
  wf tm → wf (mark_token_failed now name tm).
Proof.
  intros Hwf. unfold mark_token_failed.
  destruct (find_in _ _ _); [|assumption].
  apply wf_with_heap; [assumption | apply update_at_length].
Qed.

Lemma mark_token_success_wf name tm :
  wf tm → wf (mark_token_success name tm).
Proof.
  intros Hwf. unfold mark_token_success.
  destruct (find_in _ _ _); [|assumption].
  apply wf_with_heap; [assumption | apply update_at_length].
Qed.

Lemma reset_all_tokens_wf tm : wf tm → wf (reset_all_tokens tm).
Proof.
  intros Hwf. apply wf_with_heap; [assumption | apply update_all_length].
Qed.

Lemma init_wf maxf interval now src : wf (init maxf interval now src).
Proof.
  apply _load_tokens_wf. intros a Ha. inversion Ha.
Qed.

(** *** The health invariant is kept by every operation *)

Lemma idem_amnesty_one ti : amnesty_one (amnesty_one ti) = amnesty_one ti.
Proof. reflexivity. Qed.

Lemma idem_reset_one ti : reset_one (reset_one ti) = reset_one ti.
Proof. reflexivity. Qed.

Lemma pool_inv_amnesty tm :
  1 ≤ max_failures tm →
  pool_inv (with_heap tm (update_all amnesty_one (tokens tm) (heap tm))).
Proof.
  intros Hm a ti Ha Hti Hge. simpl in *.
  rewrite (update_all_lookup _ _ _ _ idem_amnesty_one) in Hti.
  destruct (decide (a ∈ tokens tm)); [|contradiction].
  destruct (heap tm !! a) as [ti0|]; [|discriminate].
  injection Hti as <-. simpl in Hge. lia.
Qed.

Lemma pool_inv_stamp tm h a ti now ci lr :
  pool_inv (with_heap tm h) → h !! a = Some ti →
  pool_inv (mkTokenManager (max_failures tm) (reload_interval tm)
              (<[a := stamp_used now ti]> h) (tokens tm) ci lr).
Proof.
  intros Hinv Hti b tb Hb Htb Hge. simpl in *.
  destruct (decide (a = b)) as [->|Hne].
  - rewrite list_lookup_insert_eq in Htb
      by (eapply lookup_lt_Some; eassumption).
    injection Htb as <-. simpl in *. apply (Hinv b ti); assumption.
  - rewrite list_lookup_insert_ne in Htb by assumption.
    apply (Hinv b tb); assumption.
Qed.

Lemma select_inv now tm :
  1 ≤ max_failures tm → pool_inv tm → pool_inv (snd (select now tm)).
Proof.
  intros Hm Hinv. unfold select. destruct (tokens tm) eqn:Et; [assumption|].
  rewrite <- Et.
  assert (H1 : ∃ h1 active,
    match active_indices (heap tm) 0 (tokens tm) with
    | [] => (update_all amnesty_one (tokens tm) (heap tm),
             seq 0 (length (tokens tm)))
    | _ => (heap tm, active_indices (heap tm) 0 (tokens tm))
    end = (h1, active) ∧ pool_inv (with_heap tm h1)).
  { destruct (active_indices (heap tm) 0 (tokens tm)) eqn:Ea.
    - eexists _, _. split; [reflexivity|]. apply pool_inv_amnesty. assumption.
    - eexists _, _. split; [reflexivity|]. exact Hinv. }
  destruct H1 as [h1 [active [E H1]]].
  destruct (active_indices (heap tm) 0 (tokens tm)) eqn:Ea;
    injection E as <- <-;
    (destruct (select_loop _ _ _ _); [|exact H1]);
    (destruct (tokens tm !! _); [|exact H1]);
    (destruct (_ !! _) eqn:Eh; [|exact H1]);
    simpl; eapply pool_inv_stamp; eassumption.
Qed.

Lemma _load_tokens_inv now src tm :
  1 ≤ max_failures tm → pool_inv tm → pool_inv (_load_tokens now src tm).
Proof.
  intros Hm Hinv. destruct (_load_tokens_cases now src tm) as [->|[_ ->]];
    [assumption|].
  pose proof (build_new_tokens_built src tm) as Hb.
  intros a ti Ha Hti Hge. simpl in *.
  destruct (proj2 Hb a Ha) as [[Hold Hlt]|[Hge' _]].
  - rewrite (built_lookup_old _ _ _ _ _ Hb Hlt) in Hti.
    apply (Hinv a ti); assumption.
  - destruct (built_lookup_new _ _ _ _ _ _ Hb Hge' Hti) as [t [_ ->]].
    simpl in Hge. lia.
Qed.

Lemma _load_tokens_max_failures now src tm :
  max_failures (_load_tokens now src tm) = max_failures tm.
Proof.
  destruct (_load_tokens_cases now src tm) as [->|[_ ->]]; reflexivity.
Qed.

Lemma mark_token_failed_inv now name tm :
  pool_inv tm → pool_inv (mark_token_failed now name tm).
Proof.
  intros Hinv. unfold mark_token_failed.
  destruct (find_in (heap tm) name (tokens tm)) as [a|]; [|assumption].
  intros b tb Hb Htb Hge. simpl in *. rewrite update_at_lookup in Htb.
  destruct (decide (a = b)) as [->|Hne]; [|apply (Hinv b tb); assumption].
  destruct (heap tm !! b) as [t0|]; [|discriminate].
  injection Htb as <-. simpl in *.
  destruct (max_failures tm <=? failure_count t0 + 1) eqn:E; [reflexivity|].
  apply Z.leb_gt in E. lia.
Qed.

Lemma mark_token_success_inv name tm :
  1 ≤ max_failures tm → pool_inv tm → pool_inv (mark_token_success name tm).
Proof.
  intros Hm Hinv. unfold mark_token_success.
  destruct (find_in (heap tm) name (tokens tm)) as [a|]; [|assumption].
  intros b tb Hb Htb Hge. simpl in *. rewrite update_at_lookup in Htb.
  destruct (decide (a = b)) as [->|Hne]; [|apply (Hinv b tb); assumption].
  destruct (heap tm !! b) as [t0|]; [|discriminate].
  injection Htb as <-. simpl in *. lia.
Qed.

Lemma reset_all_tokens_inv tm :
  1 ≤ max_failures tm → pool_inv (reset_all_tokens tm).
Proof.
  intros Hm a ti Ha Hti Hge. unfold reset_all_tokens in *. simpl in *.
  rewrite (update_all_lookup _ _ _ _ idem_reset_one) in Hti.
  destruct (decide (a ∈ tokens tm)); [|contradiction].
  destruct (heap tm !! a) as [ti0|]; [|discriminate].
  injection Hti as <-. simpl in Hge. lia.
Qed.

Lemma get_next_token_inv now src tm :
  1 ≤ max_failures tm → pool_inv tm →
  pool_inv (snd (get_next_token now src tm)).
Proof.
  intros Hm Hinv. unfold get_next_token, reload_if_due.
  destruct (_should_reload now tm).
  - apply select_inv.
    + rewrite _load_tokens_max_failures. assumption.
    + apply _load_tokens_inv; assumption.
  - apply select_inv; assumption.
Qed.

(** *** Selection *)

Lemma active_indices_elem h refs : ∀ k i,
  i ∈ active_indices h k refs →
  ∃ a ti, (k ≤ i)%nat ∧ refs !! (i - k)%nat = Some a ∧ h !! a = Some ti ∧
          is_active ti = true.
Proof.
  induction refs as [|b r IH]; intros k i Hi; simpl in Hi; [inversion Hi|].
  assert (Hrec : i ∈ active_indices h (S k) r →
    ∃ a ti, (k ≤ i)%nat ∧ (b :: r) !! (i - k)%nat = Some a ∧
            h !! a = Some ti ∧ is_active ti = true).
  { intros H. destruct (IH _ _ H) as [a [ti [Hk [Hl [Ha Hact]]]]].
    exists a, ti. split; [lia|]. split; [|auto].
    replace (i - k)%nat with (S (i - S k)) by lia. exact Hl. }
  destruct (h !! b) as [tb|] eqn:Eb; [|auto].
  destruct (is_active tb) eqn:Eact; [|auto].
  apply elem_of_cons in Hi as [->|Hi]; [|auto].
  exists b, tb. rewrite Nat.sub_diag. auto.
Qed.

Lemma active_indices_nil h refs k :
  (∀ a ti, a ∈ refs → h !! a = Some ti → is_active ti = false) →
  active_indices h k refs = [].
Proof.
  revert k. induction refs as [|b r IH]; intros k Hall; simpl; [reflexivity|].
  assert (Hr : active_indices h (S k) r = []).
  { apply IH. intros a ti Ha. apply Hall. right. assumption. }
  destruct (h !! b) as [tb|] eqn:Eb; [|assumption].
  rewrite (Hall b tb); [assumption | left | assumption].
Qed.

Lemma scan_elem n ci active idx :
  scan n ci active = Some idx → idx ∈ active ∧ (idx < n)%nat.
Proof.
  unfold scan. intros H. apply find_some in H as [Hin Hp].
  apply bool_decide_eq_true in Hp. split; [assumption|].
  apply in_map_iff in Hin as [i [<- Hi]]. apply in_seq in Hi.
  pose proof (Nat.mod_upper_bound (ci + i) n). lia.
Qed.

Lemma scan_is_Some n ci active idx :
  idx ∈ active → (idx < n)%nat → is_Some (scan n ci active).
Proof.
  intros Hin Hlt. unfold scan.
  destruct (find _ _) as [x|] eqn:E; [eauto|]. exfalso.
  pose proof (find_none _ _ E idx) as Hnone. simpl in Hnone.
  rewrite bool_decide_eq_false in Hnone. apply Hnone; [|assumption].
  apply in_map_iff. exists ((idx + n - ci mod n) mod n)%nat. split.
  - rewrite Nat.Div0.add_mod_idemp_r.
    rewrite <- Nat.Div0.add_mod_idemp_l.
    assert (Hc : (ci mod n < n)%nat) by (apply Nat.mod_upper_bound; lia).
    replace (ci mod n + (idx + n - ci mod n))%nat with (idx + 1 * n)%nat by lia.
    rewrite Nat.Div0.mod_add. apply Nat.mod_small. assumption.
  - apply in_seq.
    pose proof (Nat.mod_upper_bound (idx + n - ci mod n) n). lia.
Qed.

Lemma select_loop_first fuel n ci active idx :
  scan n ci active = Some idx →
  select_loop (S fuel) n ci active = Some idx.
Proof. intros H. simpl. rewrite H. reflexivity. Qed.

Lemma scan_all n ci :
  (0 < n)%nat → scan n ci (seq 0 n) = Some (ci mod n)%nat.
Proof.
  intros Hn. unfold scan. destruct n as [|n]; [lia|].
  set (P := fun idx : nat => bool_decide (idx ∈ seq 0 (S n))).
  assert (HP : P (ci mod S n)%nat = true).
  { apply bool_decide_eq_true_2. apply elem_of_seq.
    pose proof (Nat.mod_upper_bound ci (S n)). lia. }
  clearbody P. cbn [seq List.map find]. rewrite Nat.add_0_r, HP. reflexivity.
Qed.

(** A non-empty well-formed pool always yields a token. *)
Lemma select_nonempty now tm :
  wf tm → tokens tm ≠ [] → is_Some (fst (select now tm)).
Proof.
  intros Hwf Hne. unfold select. destruct (tokens tm) eqn:Et; [contradiction|].
  rewrite <- Et. clear Hne.
  assert (Hn : (0 < length (tokens tm))%nat) by (rewrite Et; simpl; lia).
  destruct (active_indices (heap tm) 0 (tokens tm)) as [|i0 act] eqn:Ea.
  - rewrite length_seq.
    destruct (length (tokens tm)) as [|m] eqn:El; [lia|].
    rewrite (select_loop_first _ _ _ _ _ (scan_all (S m) _ ltac:(lia))).
    assert (Hidx : (current_index tm mod S m < length (tokens tm))%nat).
    { rewrite El. apply Nat.mod_upper_bound. lia. }
    apply lookup_lt_is_Some_2 in Hidx as [a Ha]. rewrite Ha.
    assert (Hlt : (a < length (update_all amnesty_one (tokens tm) (heap tm)))%nat).
    { rewrite update_all_length. apply Hwf.
      eapply list_elem_of_lookup_2. eassumption. }
    apply lookup_lt_is_Some_2 in Hlt as [ti Hti]. rewrite Hti. simpl. eauto.
  - assert (Hi0 : i0 ∈ active_indices (heap tm) 0 (tokens tm))
      by (rewrite Ea; left).
    destruct (active_indices_elem _ _ _ _ Hi0) as [a0 [t0 [_ [Hl0 _]]]].
    rewrite Nat.sub_0_r in Hl0.
    assert (Hlt0 : (i0 < length (tokens tm))%nat)
      by (eapply lookup_lt_Some; eassumption).
    rewrite <- Ea.
    destruct (scan_is_Some (length (tokens tm)) (current_index tm) _ _ Hi0 Hlt0)
      as [idx Hscan].
    assert (Hlen : length (active_indices (heap tm) 0 (tokens tm))
                   = S (length act)) by (rewrite Ea; reflexivity).
    rewrite Hlen.
    rewrite (select_loop_first _ _ _ _ _ Hscan).
    apply scan_elem in Hscan as [Hidx _].
    destruct (active_indices_elem _ _ _ _ Hidx) as [a [ti [_ [Hl [Hh _]]]]].
    rewrite Nat.sub_0_r in Hl. rewrite Hl, Hh. simpl. eauto.
Qed.

Lemma _load_tokens_empty now src tm :
  tokens (_load_tokens now src tm) = [] → _load_tokens now src tm = tm.
Proof.
  destruct (_load_tokens_cases now src tm) as [->|[Hne E]]; [reflexivity|].
  rewrite E. simpl. contradiction.
Qed.

Lemma select_amnesty now tm :
  wf tm → tokens tm ≠ [] →
  (∀ a ti, a ∈ tokens tm → heap tm !! a = Some ti → is_active ti = false) →
  ∃ t, fst (select now tm) = Some t ∧ t ∈ pool_names tm ∧
       ∀ a, a ∈ tokens tm →
         ∃ ti, heap (snd (select now tm)) !! a = Some ti ∧
               is_active ti = true ∧ failure_count ti = 0.
Proof.
  intros Hwf Hne Hall. unfold select.
  destruct (tokens tm) eqn:Et; [contradiction|]. rewrite <- Et in *. clear Hne.
  assert (Hn : (0 < length (tokens tm))%nat) by (rewrite Et; simpl; lia).
  rewrite (active_indices_nil _ _ 0%nat Hall). rewrite length_seq.
  destruct (length (tokens tm)) as [|m] eqn:El; [lia|].
  rewrite (select_loop_first _ _ _ _ _ (scan_all (S m) _ ltac:(lia))).
  assert (Hidx : (current_index tm mod S m < length (tokens tm))%nat).
  { rewrite El. apply Nat.mod_upper_bound. lia. }
  apply lookup_lt_is_Some_2 in Hidx as [a Ha]. rewrite Ha.
  assert (Hin : a ∈ tokens tm) by (eapply list_elem_of_lookup_2; eassumption).
  destruct (lookup_lt_is_Some_2 _ _ (Hwf a Hin)) as [ti0 Hti0].
  assert (Hup : ∀ b, b ∈ tokens tm →
    update_all amnesty_one (tokens tm) (heap tm) !! b
      = amnesty_one <$> heap tm !! b).
  { intros b Hb. rewrite (update_all_lookup _ _ _ _ idem_amnesty_one).
    destruct (decide (b ∈ tokens tm)); [reflexivity | contradiction]. }
  rewrite (Hup a Hin), Hti0. simpl.
  exists (token ti0). split; [reflexivity|]. split.
  - unfold pool_names. apply list_elem_of_omap. exists a.
    split; [assumption|]. rewrite Hti0. reflexivity.
  - intros b Hb. destruct (decide (a = b)) as [->|Hab].
    + eexists. rewrite list_lookup_insert_eq.
      * split; [reflexivity|]. split; reflexivity.
      * rewrite update_all_length. apply Hwf. assumption.
    + rewrite list_lookup_insert_ne by assumption. rewrite (Hup b Hb).
      destruct (lookup_lt_is_Some_2 _ _ (Hwf b Hb)) as [tb Htb].
      rewrite Htb. simpl. eexists. split; [reflexivity|]. split; reflexivity.
Qed.

(** *** Reloading a source whose tokens are all known *)

Lemma find_in_is_Some h refs t : is_Some (find_in h t refs) ↔ carries h refs t.
Proof.
  split.
  - intros [a Ha]. apply find_in_Some in Ha as [Hin [ti [Hti Ht]]].
    exists a, ti. auto.
  - intros [a [ti [Hin [Hti Ht]]]].
    destruct (find_in h t refs) eqn:E; [eauto|]. exfalso.
    rewrite find_in_None in E. exact (E a ti Hin Hti Ht).
Qed.

Lemma pool_names_carries tm t :
  t ∈ pool_names tm ↔ carries (heap tm) (tokens tm) t.
Proof.
  unfold pool_names, carries. rewrite list_elem_of_omap. split.
  - intros [a [Hin Ha]]. destruct (heap tm !! a) as [ti|] eqn:E; [|discriminate].
    injection Ha as <-. exists a, ti. auto.
  - intros [a [ti [Hin [Hti <-]]]]. exists a. rewrite Hti. auto.
Qed.

Lemma carries_app h r1 r2 t :
  carries h (r1 ++ r2) t ↔ carries h r1 t ∨ carries h r2 t.
Proof.
  unfold carries. split.
  - intros [a [ti [Hin H]]]. apply elem_of_app in Hin as [Hin|Hin];
      [left | right]; exists a, ti; auto.
  - intros [[a [ti [Hin H]]]|[a [ti [Hin H]]]]; exists a, ti;
      (split; [apply elem_of_app; auto | assumption]).
Qed.

Lemma load_file_known old h ls : ∀ acc,
  (∀ t, t ∈ file_tokens ls → is_Some (find_in h t old)) →
  load_file old ls h acc = (h, acc ++ omap (first_match h old) (file_tokens ls)).
Proof.
  unfold file_tokens.
  induction ls as [|line rest IH]; intros acc Hall; cbn [load_file].
  - simpl. rewrite app_nil_r. reflexivity.
  - cbn [List.map List.filter] in *.
    destruct (truthy (strip line) && negb (startswith (lit "#") (strip line))).
    + destruct (Hall (strip line)) as [a Ha]; [left|].
      rewrite Ha. rewrite IH.
      * cbn [omap list_omap]. unfold first_match at 2. rewrite Ha.
        rewrite <- app_assoc. reflexivity.
      * intros t Ht. apply Hall. right. assumption.
    + apply IH. assumption.
Qed.

(** Each entry that the loops append is the first match of a source token. *)
Lemma load_backup_known old h bts : ∀ acc,
  (∀ t, t ∈ bts → is_Some (find_in h t old)) →
  ∃ extra, load_backup old bts h acc = (h, acc ++ extra) ∧
    (∀ a, a ∈ extra → ∃ t, t ∈ bts ∧ find_in h t old = Some a) ∧
    (∀ t, t ∈ bts → carries h (acc ++ extra) t).
Proof.
  induction bts as [|bt rest IH]; intros acc Hall; cbn [load_backup].
  - exists []. rewrite app_nil_r. split; [reflexivity|].
    split; intros x Hx; inversion Hx.
  - assert (Hrest : ∀ t, t ∈ rest → is_Some (find_in h t old))
      by (intros t Ht; apply Hall; right; assumption).
    destruct (find_in h bt acc) as [a0|] eqn:Eacc.
    + destruct (IH acc Hrest) as [extra [E [Hex Hcov]]].
      exists extra. split; [assumption|]. split.
      * intros a Ha. destruct (Hex a Ha) as [t [Ht Hf]].
        exists t. split; [right|]; assumption.
      * intros t Ht. apply elem_of_cons in Ht as [->|Ht]; [|auto].
        apply carries_app. left. apply find_in_is_Some. eauto.
    + destruct (Hall bt) as [a Ha]; [left|]. rewrite Ha.
      destruct (IH (acc ++ [a]) Hrest) as [extra [E [Hex Hcov]]].
      exists (a :: extra). rewrite E.
      replace ((acc ++ [a]) ++ extra) with (acc ++ a :: extra) in *
        by (rewrite <- app_assoc; reflexivity).
      split; [reflexivity|]. split.
      * intros b Hb. apply elem_of_cons in Hb as [->|Hb].
        -- exists bt. split; [left | assumption].
        -- destruct (Hex b Hb) as [t [Ht Hf]].
           exists t. split; [right|]; assumption.
      * intros t Ht. apply elem_of_cons in Ht as [->|Ht]; [|auto].
        apply find_in_Some in Ha as [_ [ti [Hti Htok]]].
        exists a, ti. split; [|auto].
        apply elem_of_app. right. left.
Qed.

Lemma first_match_elem h old (ts : list pystr) a :
  a ∈ omap (first_match h old) ts → ∃ t, t ∈ ts ∧ find_in h t old = Some a.
Proof.
  intros H. apply list_elem_of_omap in H as [t [Ht Hf]]. eauto.
Qed.

Lemma first_match_cover h old (ts : list pystr) t :
  t ∈ ts → is_Some (find_in h t old) →
  carries h (omap (first_match h old) ts) t.
Proof.
  intros Ht [a Ha]. pose proof Ha as Ha'.
  apply find_in_Some in Ha' as [_ [ti [Hti Htok]]].
  exists a, ti. split; [|auto]. apply list_elem_of_omap. eauto.
Qed.

(** When every token of the source is already in the pool, a reload creates
    no object; every entry of the new list is the first match of a source
    token, and every source token has an entry. *)
Lemma build_known src tm :
  (∀ t, t ∈ source_names src → carries (heap tm) (tokens tm) t) →
  fst (build_new_tokens src tm) = heap tm ∧
  (∀ a, a ∈ snd (build_new_tokens src tm) →
     ∃ t, t ∈ source_names src ∧ find_in (heap tm) t (tokens tm) = Some a) ∧
  (∀ t, t ∈ source_names src →
     carries (heap tm) (snd (build_new_tokens src tm)) t).
Proof.
  intros Hall. unfold build_new_tokens, source_names in *.
  set (F := match token_file src with Lines ls => file_tokens ls | _ => [] end)
    in *.
  set (B := match BACKUP_TOKEN src with
            | Some b => if truthy b then backup_tokens b else []
            | None => []
            end) in *.
  assert (HF : ∀ t, t ∈ F → is_Some (find_in (heap tm) t (tokens tm))).
  { intros t Ht. apply find_in_is_Some, Hall, elem_of_app. auto. }
  assert (HB : ∀ t, t ∈ B → is_Some (find_in (heap tm) t (tokens tm))).
  { intros t Ht. apply find_in_is_Some, Hall, elem_of_app. auto. }
  assert (E1 : match token_file src with
               | Lines ls => load_file (tokens tm) ls (heap tm) []
               | _ => (heap tm, [])
               end = (heap tm, omap (first_match (heap tm) (tokens tm)) F)).
  { subst F. destruct (token_file src); try reflexivity.
    rewrite load_file_known by assumption. reflexivity. }
  rewrite E1. cbn [fst snd].
  destruct (load_backup_known (tokens tm) (heap tm) B
              (omap (first_match (heap tm) (tokens tm)) F) HB)
    as [extra [E2 [Hex Hcov]]].
  assert (E2' : match BACKUP_TOKEN src with
                | Some b =>
                    if truthy b
                    then load_backup (tokens tm) (backup_tokens b) (heap tm)
                           (omap (first_match (heap tm) (tokens tm)) F)
                    else (heap tm, omap (first_match (heap tm) (tokens tm)) F)
                | None => (heap tm, omap (first_match (heap tm) (tokens tm)) F)
                end = (heap tm, omap (first_match (heap tm) (tokens tm)) F
                                  ++ (if decide (B = []) then [] else extra))).
  { subst B. destruct (BACKUP_TOKEN src) as [b|];
      [destruct (truthy b)|]; try (rewrite app_nil_r; reflexivity).
    rewrite E2. destruct (decide (backup_tokens b = [])) as [Eb|Eb];
      [|reflexivity].
    rewrite Eb in E2. cbn [load_backup] in E2.
    injection E2 as E2. apply (f_equal length) in E2.
    rewrite length_app in E2. destruct extra; [reflexivity|simpl in E2; lia]. }
  rewrite E2'. cbn [fst snd].
  set (nt := omap (first_match (heap tm) (tokens tm)) F
             ++ (if decide (B = []) then [] else extra)).
  assert (Hnt1 : ∀ a, a ∈ nt →
            ∃ t, t ∈ F ++ B ∧ find_in (heap tm) t (tokens tm) = Some a).
  { intros a Ha. subst nt. apply elem_of_app in Ha as [Ha|Ha].
    - destruct (first_match_elem _ _ _ _ Ha) as [t [Ht Hf]].
      exists t. split; [apply elem_of_app; auto | assumption].
    - destruct (decide (B = [])); [inversion Ha|].
      destruct (Hex a Ha) as [t [Ht Hf]].
      exists t. split; [apply elem_of_app; auto | assumption]. }
  assert (Hnt2 : ∀ t, t ∈ F ++ B → carries (heap tm) nt t).
  { intros t Ht. subst nt. apply elem_of_app in Ht as [Ht|Ht].
    - apply carries_app. left. apply first_match_cover; auto.
    - destruct (decide (B = [])) as [Eb|Eb]; [rewrite Eb in Ht; inversion Ht|].
      apply Hcov. assumption. }
  destruct nt as [|a0 nt'] eqn:Ent.
  - assert (EB : B = []).
    { destruct B as [|t B']; [reflexivity|]. exfalso.
      destruct (Hnt2 t) as [a [ti [Hin _]]];
        [apply elem_of_app; right; left | inversion Hin]. }
    assert (E3 : match BACKUP_TOKEN src with
                 | Some b =>
                     if truthy b then fresh_all (backup_tokens b) (heap tm) []
                     else (heap tm, [])
                 | None => (heap tm, [])
                 end = (heap tm, [])).
    { subst B. destruct (BACKUP_TOKEN src) as [b|]; [|reflexivity].
      destruct (truthy b); [|reflexivity]. rewrite EB. reflexivity. }
    rewrite E3. split; [reflexivity|]. split; assumption.
  - split; [reflexivity|]. split; assumption.
Qed.

(** *** Reloading exactly the sequence of tokens that the pool holds *)

Lemma find_in_self h old :
  NoDup (omap (fun a => token <$> h !! a) old) →
  ∀ a ti, a ∈ old → h !! a = Some ti → find_in h (token ti) old = Some a.
Proof.
  induction old as [|b r IH]; intros Hnd a ti Ha Hti; [inversion Ha|].
  cbn [omap list_omap] in Hnd. cbn [find_in].
  destruct (h !! b) as [tb|] eqn:Eb; cbn [fmap option_fmap option_map] in Hnd.
  - apply list.NoDup_cons in Hnd as [Hnotin Hnd].
    apply elem_of_cons in Ha as [->|Ha].
    + rewrite Eb in Hti. injection Hti as ->.
      rewrite (proj2 (eqb_eq _ _) eq_refl). reflexivity.
    + destruct (PyStr.eqb (token tb) (token ti)) eqn:E; [|auto].
      exfalso. apply eqb_eq in E. apply Hnotin. rewrite E.
      apply list_elem_of_omap. exists a. rewrite Hti. auto.
  - apply elem_of_cons in Ha as [->|Ha]; [congruence | auto].
Qed.

Lemma omap_first_match_names h old :
  NoDup (omap (fun a => token <$> h !! a) old) →
  ∀ l : list nat, (∀ a, a ∈ l → a ∈ old ∧ is_Some (h !! a)) →
  omap (first_match h old) (omap (fun a => token <$> h !! a) l) = l.
Proof.
  intros Hnd. induction l as [|b r IH]; intros Hl; [reflexivity|].
  cbn [omap list_omap].
  destruct (Hl b) as [Hb [tb Htb]]; [left|]. rewrite Htb.
  cbn [fmap option_fmap option_map omap list_omap].
  unfold first_match at 1. rewrite (find_in_self h old Hnd b tb Hb Htb).
  f_equal. apply IH. intros a Ha. apply Hl. right. assumption.
Qed.

Lemma load_backup_nodup old h bts : ∀ acc,
  (∀ t, t ∈ bts → is_Some (find_in h t old)) →
  NoDup bts →
  (∀ t, t ∈ bts → ¬ carries h acc t) →
  load_backup old bts h acc = (h, acc ++ omap (first_match h old) bts).
Proof.
  induction bts as [|bt rest IH]; intros acc Hall Hnd Hnew; cbn [load_backup].
  - simpl. rewrite app_nil_r. reflexivity.
  - apply list.NoDup_cons in Hnd as [Hnotin Hnd].
    destruct (find_in h bt acc) as [a0|] eqn:Eacc.
    { exfalso. apply (Hnew bt); [left|]. apply find_in_is_Some. eauto. }
    destruct (Hall bt) as [a Ha]; [left|]. rewrite Ha.
    rewrite IH.
    + cbn [omap list_omap]. unfold first_match at 2. rewrite Ha.
      rewrite <- app_assoc. reflexivity.
    + intros t Ht. apply Hall. right. assumption.
    + assumption.
    + intros t Ht Hc. apply carries_app in Hc as [Hc|Hc].
      * apply (Hnew t); [right|]; assumption.
      * destruct Hc as [x [tx [Hx [Htx Htok]]]].
        apply list_elem_of_singleton in Hx as ->.
        apply find_in_Some in Ha as [_ [ti [Hti Hname]]].
        rewrite Hti in Htx. injection Htx as <-. congruence.
Qed.

Lemma build_same_sequence src tm :
  wf tm → NoDup (pool_names tm) → source_names src = pool_names tm →
  build_new_tokens src tm = (heap tm, tokens tm).
Proof.
  intros Hwf Hnd Hsrc. unfold build_new_tokens.
  unfold source_names in Hsrc.
  set (F := match token_file src with Lines ls => file_tokens ls | _ => [] end)
    in *.
  set (B := match BACKUP_TOKEN src with
            | Some b => if truthy b then backup_tokens b else []
            | None => []
            end) in *.
  assert (Hfound : ∀ t, t ∈ F ++ B →
            is_Some (find_in (heap tm) t (tokens tm))).
  { intros t Ht. rewrite Hsrc in Ht.
    apply find_in_is_Some, pool_names_carries. assumption. }
  assert (HndFB : NoDup (F ++ B)) by (rewrite Hsrc; assumption).
  apply list.NoDup_app in HndFB as [HndF [Hdisj HndB]].
  assert (E1 : match token_file src with
               | Lines ls => load_file (tokens tm) ls (heap tm) []
               | _ => (heap tm, [])
               end = (heap tm, omap (first_match (heap tm) (tokens tm)) F)).
  { subst F. destruct (token_file src); try reflexivity.
    rewrite load_file_known; [reflexivity|].
    intros t Ht. apply Hfound, elem_of_app. auto. }
  rewrite E1. cbn [fst snd].
  assert (E2 : match BACKUP_TOKEN src with
               | Some b =>
                   if truthy b
                   then load_backup (tokens tm) (backup_tokens b) (heap tm)
                          (omap (first_match (heap tm) (tokens tm)) F)
                   else (heap tm, omap (first_match (heap tm) (tokens tm)) F)
               | None => (heap tm, omap (first_match (heap tm) (tokens tm)) F)
               end = (heap tm, tokens tm)).
  { assert (Hall : (heap tm, omap (first_match (heap tm) (tokens tm)) F
                               ++ omap (first_match (heap tm) (tokens tm)) B)
                   = (heap tm, tokens tm)).
    { f_equal. rewrite <- omap_app, Hsrc. unfold pool_names.
      apply omap_first_match_names; [assumption|].
      intros a Ha. split; [assumption|].
      apply lookup_lt_is_Some_2, Hwf. assumption. }
    rewrite <- Hall.
    assert (Hnil : (heap tm, omap (first_match (heap tm) (tokens tm)) F)
                   = (heap tm, omap (first_match (heap tm) (tokens tm)) F
                                 ++ omap (first_match (heap tm) (tokens tm)) []))
      by (simpl; rewrite app_nil_r; reflexivity).
    subst B. destruct (BACKUP_TOKEN src) as [b|];
      [destruct (truthy b)|]; try exact Hnil.
    apply load_backup_nodup.
    - intros t Ht. apply Hfound, elem_of_app. auto.
    - assumption.
    - intros t Ht [a [ti [Ha [Hti Htok]]]].
      destruct (first_match_elem _ _ _ _ Ha) as [t' [Ht' Hf]].
      apply find_in_Some in Hf as [_ [ti' [Hti' Htok']]].
      rewrite Hti in Hti'. injection Hti' as <-.
      apply (Hdisj t); [congruence | assumption]. }
  rewrite E2. cbn [fst snd].
  destruct (tokens tm) eqn:Et; [|reflexivity].
  assert (EB : B = []).
  { unfold pool_names in Hsrc. rewrite Et in Hsrc. simpl in Hsrc.
    apply app_eq_nil in Hsrc as [_ ?]. assumption. }
  subst B. destruct (BACKUP_TOKEN src) as [b|]; [|reflexivity].
  destruct (truthy b); [|reflexivity]. rewrite EB. reflexivity.
Qed.

(** C8. A reload never modifies an object that existed before it.  When the
    source yields exactly the credential set of the pool, the reload creates
    no object and the health record found for every token string is the one
    found before.  When, moreover, no two entries of the pool carry the same
    token string, the reloaded pool refers to exactly the objects that the
    pool referred to, so every credential keeps its failure count, active
    flag and timestamps; and when the source yields the pool's tokens in the
    pool's order, the list of entries is unchanged too, so that only
    [last_reload_time] (and an out-of-range cursor) can differ.  A token that
    was not in the pool enters it with zero failures, active, and without
    timestamps. *)
Theorem reload_preserves_health (now : Z) (src : Source) (tm : TokenManager) :
  let tm' := reload_tokens now src tm in
  (∀ a, (a < length (heap tm))%nat → heap tm' !! a = heap tm !! a) ∧
  max_failures tm' = max_failures tm ∧
  reload_interval tm' = reload_interval tm ∧
  ((∀ t, t ∈ source_names src ↔ t ∈ pool_names tm) →
     heap tm' = heap tm ∧
     (∀ name, health tm' name = health tm name) ∧
     (∀ t, t ∈ pool_names tm' ↔ t ∈ pool_names tm) ∧
     ((current_index tm < length (tokens tm'))%nat →
        current_index tm' = current_index tm)) ∧
  (wf tm → NoDup (pool_names tm) →
   (∀ t, t ∈ source_names src ↔ t ∈ pool_names tm) →
     ∀ a, a ∈ tokens tm' ↔ a ∈ tokens tm) ∧
  (wf tm → NoDup (pool_names tm) → source_names src = pool_names tm →
     heap tm' = heap tm ∧ tokens tm' = tokens tm) ∧
  (∀ name, name ∈ pool_names tm' → name ∉ pool_names tm →
     health tm' name = Some (new_TokenInfo name)).
Proof.
  intros tm'. subst tm'. unfold reload_tokens.
  pose proof (build_new_tokens_built src tm) as Hb.
  split; [|split; [|split; [|split; [|split; [|split]]]]].
  - intros a Ha.
    destruct (_load_tokens_cases now src tm) as [->|[_ ->]]; [reflexivity|].
    simpl. eapply built_lookup_old; eassumption.
  - apply _load_tokens_max_failures.
  - destruct (_load_tokens_cases now src tm) as [->|[_ ->]]; reflexivity.
  - intros Hset.
    destruct (_load_tokens_cases now src tm) as [->|[Hne ->]].
    { repeat split; auto. }
    destruct (build_known src tm) as [Eh [Hcanon Hcov]].
    { intros t Ht. apply pool_names_carries, Hset. assumption. }
    assert (Hhealth : ∀ name,
      find_in (heap tm) name (snd (build_new_tokens src tm))
        = find_in (heap tm) name (tokens tm)).
    { intros name.
      destruct (find_in (heap tm) name (snd (build_new_tokens src tm)))
        as [a|] eqn:E.
      - apply find_in_Some in E as [Hin [ti [Hti Htok]]].
        destruct (Hcanon a Hin) as [t [_ Hf]]. pose proof Hf as Hf'.
        apply find_in_Some in Hf' as [_ [ti' [Hti' Htok']]].
        rewrite Hti in Hti'. injection Hti' as <-. congruence.
      - destruct (find_in (heap tm) name (tokens tm)) as [a|] eqn:E';
          [|reflexivity].
        exfalso. rewrite find_in_None in E.
        assert (Hc : carries (heap tm) (tokens tm) name)
          by (apply find_in_is_Some; eauto).
        apply pool_names_carries, Hset, Hcov in Hc.
        destruct Hc as [b [tb [Hb1 [Hb2 Hb3]]]]. exact (E b tb Hb1 Hb2 Hb3). }
    simpl. rewrite Eh. split; [reflexivity|]. split; [|split].
    + intros name. unfold health. simpl. rewrite Hhealth. reflexivity.
    + intros t. rewrite !pool_names_carries. simpl.
      rewrite <- !find_in_is_Some, Hhealth. reflexivity.
    + intros Hlt.
      destruct (length (snd (build_new_tokens src tm)) <=? current_index tm)%nat
        eqn:E; [|reflexivity].
      apply Nat.leb_le in E. lia.
  - intros Hwf Hnd Hset.
    destruct (_load_tokens_cases now src tm) as [->|[_ ->]]; [reflexivity|].
    destruct (build_known src tm) as [_ [Hcanon Hcov]].
    { intros t Ht. apply pool_names_carries, Hset. assumption. }
    cbn [tokens]. intros a. split.
    + intros Ha. destruct (Hcanon a Ha) as [t [_ Hf]].
      apply find_in_Some in Hf as [Hin _]. exact Hin.
    + intros Ha.
      destruct (lookup_lt_is_Some_2 _ _ (Hwf a Ha)) as [ti Hti].
      assert (Ht : token ti ∈ source_names src).
      { apply Hset, pool_names_carries. exists a, ti. auto. }
      destruct (Hcov _ Ht) as [b [tb [Hb1 [Hb2 Hb3]]]].
      destruct (Hcanon b Hb1) as [t' [_ Hf]].
      apply find_in_Some in Hf as [Hbin _].
      pose proof (find_in_self (heap tm) (tokens tm) Hnd a ti Ha Hti) as Fa.
      pose proof (find_in_self (heap tm) (tokens tm) Hnd b tb Hbin Hb2) as Fb.
      rewrite Hb3, Fa in Fb. injection Fb as <-. exact Hb1.
  - intros Hwf Hnd Hseq.
    destruct (_load_tokens_cases now src tm) as [->|[_ ->]]; [auto|].
    rewrite (build_same_sequence src tm Hwf Hnd Hseq). auto.
  - intros name Hin Hnotin.
    destruct (_load_tokens_cases now src tm) as [E|[_ E]];
      rewrite E in *; [contradiction|].
    apply pool_names_carries, find_in_is_Some in Hin. simpl in Hin.
    destruct Hin as [a Ha]. unfold health. simpl. rewrite Ha. simpl.
    apply find_in_Some in Ha as [Hin [ti [Hti Htok]]]. rewrite Hti.
    destruct (proj2 Hb a Hin) as [[Hold Hlt]|[Hge _]].
    + exfalso. apply Hnotin, pool_names_carries.
      rewrite (built_lookup_old _ _ _ _ _ Hb Hlt) in Hti.
      exists a, ti. auto.
    + destruct (built_lookup_new _ _ _ _ _ _ Hb Hge Hti) as [t [_ ->]].
      simpl in Htok. rewrite Htok. reflexivity.
Qed.

(** *** A usable pool stays usable and always yields a token *)

Lemma same_tokens_refl h : same_tokens h h.
Proof. intros a. reflexivity. Qed.

Lemma same_tokens_trans h1 h2 h3 :
  same_tokens h1 h2 → same_tokens h2 h3 → same_tokens h1 h3.
Proof. intros H12 H23 a. rewrite H23. apply H12. Qed.

Lemma update_at_same_tokens f a h :
  (∀ ti, token (f ti) = token ti) → same_tokens h (update_at f a h).
Proof.
  intros Hf b. rewrite update_at_lookup.
  destruct (decide (a = b)); [|reflexivity].
  destruct (h !! b); simpl; [rewrite Hf|]; reflexivity.
Qed.

Lemma update_all_same_tokens f refs : ∀ h,
  (∀ ti, token (f ti) = token ti) → same_tokens h (update_all f refs h).
Proof.
  unfold update_all. induction refs as [|a r IH]; intros h Hf; simpl.
  - apply same_tokens_refl.
  - eapply same_tokens_trans; [apply update_at_same_tokens, Hf | apply IH, Hf].
Qed.

Lemma insert_same_tokens h a ti ti' :
  h !! a = Some ti → token ti' = token ti → same_tokens h (<[a := ti']> h).
Proof.
  intros Hti Htok b. destruct (decide (a = b)) as [->|Hne].
  - rewrite list_lookup_insert_eq by (eapply lookup_lt_Some; eassumption).
    rewrite Hti. simpl. rewrite Htok. reflexivity.
  - rewrite list_lookup_insert_ne by assumption. reflexivity.
Qed.

Lemma same_tokens_lookup h h' a ti' :
  same_tokens h h' → h' !! a = Some ti' →
  ∃ ti, h !! a = Some ti ∧ token ti = token ti'.
Proof.
  intros Hs Hti. specialize (Hs a). rewrite Hti in Hs. simpl in Hs.
  destruct (h !! a) as [ti|]; [|discriminate].
  injection Hs as Hs. eauto.
Qed.

Lemma usable_same_tokens tm tm' :
  tokens tm' = tokens tm → same_tokens (heap tm) (heap tm') →
  usable tm → usable tm'.
Proof.
  intros Et Hs [Hwf [Hne Htr]]. split; [|split].
  - intros a Ha. rewrite Et in Ha.
    destruct (lookup_lt_is_Some_2 _ _ (Hwf a Ha)) as [ti Hti].
    apply lookup_lt_is_Some. specialize (Hs a). rewrite Hti in Hs.
    destruct (heap tm' !! a); [eauto | discriminate].
  - rewrite Et. assumption.
  - intros a ti' Ha Hti'. rewrite Et in Ha.
    destruct (same_tokens_lookup _ _ _ _ Hs Hti') as [ti [Hti <-]].
    eapply Htr; eassumption.
Qed.

Lemma mark_token_failed_usable now name tm :
  usable tm → usable (mark_token_failed now name tm).
Proof.
  intros Hu. unfold mark_token_failed.
  destruct (find_in (heap tm) name (tokens tm)); [|assumption].
  apply (usable_same_tokens tm); [reflexivity | | assumption].
  apply update_at_same_tokens. reflexivity.
Qed.

Lemma mark_token_success_usable name tm :
  usable tm → usable (mark_token_success name tm).
Proof.
  intros Hu. unfold mark_token_success.
  destruct (find_in (heap tm) name (tokens tm)); [|assumption].
  apply (usable_same_tokens tm); [reflexivity | | assumption].
  apply update_at_same_tokens. reflexivity.
Qed.

Lemma _load_tokens_usable now src tm :
  usable tm → usable (_load_tokens now src tm).
Proof.
  intros Hu. pose proof Hu as [Hwf [Hne Htr]].
  split; [apply _load_tokens_wf; assumption|].
  destruct (_load_tokens_cases now src tm) as [->|[Hnt ->]]; [auto|].
  split; [assumption|]. simpl.
  pose proof (build_new_tokens_built src tm) as Hb.
  intros a ti Ha Hti.
  destruct (proj2 Hb a Ha) as [[Hold Hlt]|[Hge _]].
  - rewrite (built_lookup_old _ _ _ _ _ Hb Hlt) in Hti. eapply Htr; eassumption.
  - destruct (built_lookup_new _ _ _ _ _ _ Hb Hge Hti) as [t [Ht ->]].
    exact Ht.
Qed.

(** The selection changes no token string, and a token it returns is the
    token string of a pool entry. *)
Lemma select_cases now tm :
  ∃ h1, same_tokens (heap tm) h1 ∧
    ((fst (select now tm) = None ∧ heap (snd (select now tm)) = h1) ∨
     ∃ a ti, a ∈ tokens tm ∧ h1 !! a = Some ti ∧
       fst (select now tm) = Some (token ti) ∧
       heap (snd (select now tm)) = <[a := stamp_used now ti]> h1).
Proof.
  unfold select. destruct (tokens tm) eqn:Et.
  { exists (heap tm). split; [apply same_tokens_refl | left; auto]. }
  rewrite <- Et.
  assert (H1 : ∃ h1 active,
    match active_indices (heap tm) 0 (tokens tm) with
    | [] => (update_all amnesty_one (tokens tm) (heap tm),
             seq 0 (length (tokens tm)))
    | _ => (heap tm, active_indices (heap tm) 0 (tokens tm))
    end = (h1, active) ∧ same_tokens (heap tm) h1).
  { destruct (active_indices (heap tm) 0 (tokens tm)).
    - eexists _, _. split; [reflexivity|].
      apply update_all_same_tokens. reflexivity.
    - eexists _, _. split; [reflexivity | apply same_tokens_refl]. }
  destruct H1 as [h1 [active [E Hs]]]. exists h1. split; [assumption|].
  destruct (active_indices (heap tm) 0 (tokens tm));
    injection E as <- <-;
    (destruct (select_loop _ _ _ _) as [idx|]; [|left; auto]);
    (destruct (tokens tm !! idx) as [a|] eqn:Ea; [|left; auto]);
    (destruct (_ !! a) as [ti|] eqn:Eh; [|left; auto]);
    right; exists a, ti; simpl;
    (split; [eapply list_elem_of_lookup_2; eassumption | auto]).
Qed.

Lemma select_usable now tm :
  usable tm →
  usable (snd (select now tm)) ∧
  ∃ t, fst (select now tm) = Some t ∧ truthy t = true.
Proof.
  intros Hu. pose proof Hu as [Hwf [Hne Htr]].
  destruct (select_nonempty now tm Hwf Hne) as [t Ht].
  destruct (select_cases now tm) as [h1 [Hs [[Hnone _]|[a [ti [Ha [Hti [Hf Hh]]]]]]]];
    [congruence|].
  split.
  - apply (usable_same_tokens tm); [apply select_tokens | | assumption].
    rewrite Hh. eapply same_tokens_trans; [exact Hs|].
    eapply insert_same_tokens; [eassumption | reflexivity].
  - exists (token ti). split; [assumption|].
    destruct (same_tokens_lookup _ _ _ _ Hs Hti) as [ti0 [Hti0 <-]].
    eapply Htr; eassumption.
Qed.

Lemma get_next_token_usable now src tm :
  usable tm →
  usable (snd (get_next_token now src tm)) ∧
  ∃ t, fst (get_next_token now src tm) = Some t ∧ truthy t = true.
Proof.
  intros Hu. unfold get_next_token. apply select_usable.
  unfold reload_if_due. destruct (_should_reload now tm); [|assumption].
  apply _load_tokens_usable. assumption.
Qed.

Lemma _load_tokens_all_inactive now src tm :
  (∀ t, t ∈ source_names src → t ∈ pool_names tm) →
  tokens tm ≠ [] →
  (∀ a ti, a ∈ tokens tm → heap tm !! a = Some ti → is_active ti = false) →
  tokens (_load_tokens now src tm) ≠ [] ∧
  ∀ a ti, a ∈ tokens (_load_tokens now src tm) →
    heap (_load_tokens now src tm) !! a = Some ti → is_active ti = false.
Proof.
  intros Hsub Hne Hall.
  destruct (_load_tokens_cases now src tm) as [->|[Hnt ->]]; [auto|].
  simpl. split; [assumption|].
  destruct (build_known src tm) as [Eh [Hcanon _]].
  { intros t Ht. apply pool_names_carries, Hsub. assumption. }
  rewrite Eh. intros a ti Ha Hti.
  destruct (Hcanon a Ha) as [t [_ Hf]].
  apply find_in_Some in Hf as [Hin _]. eapply Hall; eassumption.
Qed.

(** C6. When the pool before the call is non-empty without an active
    credential and the reload at the head of [get_next_token], if one is
    due, brings no token that the pool does not hold, the call reactivates
    every credential, zeroes every failure count and returns a token; in
    general it does so whenever the pool that the selection sees (the pool
    after that reload) is non-empty and holds no active credential.  The
    call returns [None] only for an empty pool. *)
Theorem amnesty_when_all_inactive (now : Z) (src : Source) (tm : TokenManager) :
  wf tm →
  let p1 := reload_if_due now src tm in
  let r := get_next_token now src tm in
  (_should_reload now tm = false → p1 = tm) ∧
  (tokens p1 ≠ [] →
   (∀ a ti, a ∈ tokens p1 → heap p1 !! a = Some ti → is_active ti = false) →
   (∃ t, fst r = Some t ∧ t ∈ pool_names p1) ∧
   tokens (snd r) = tokens p1 ∧
   ∀ a, a ∈ tokens (snd r) →
     ∃ ti, heap (snd r) !! a = Some ti ∧
           is_active ti = true ∧ failure_count ti = 0) ∧
  (fst r = None ↔ tokens p1 = []) ∧
  (fst r = None → tokens tm = []) ∧
  ((∀ t, t ∈ source_names src → t ∈ pool_names tm) →
   tokens tm ≠ [] →
   (∀ a ti, a ∈ tokens tm → heap tm !! a = Some ti → is_active ti = false) →
   (∃ t, fst r = Some t) ∧
   ∀ a, a ∈ tokens (snd r) →
     ∃ ti, heap (snd r) !! a = Some ti ∧
           is_active ti = true ∧ failure_count ti = 0).
Proof.
  intros Hwf p1 r.
  assert (Hwf1 : wf p1) by (apply reload_if_due_wf; assumption).
  assert (Hnone : fst r = None ↔ tokens p1 = []).
  { subst r. unfold get_next_token. fold p1. split.
    - intros E. destruct (tokens p1) eqn:Et; [reflexivity|]. exfalso.
      destruct (select_nonempty now p1 Hwf1) as [t Ht];
        [rewrite Et; discriminate | congruence].
    - intros Et. unfold select. rewrite Et. reflexivity. }
  assert (Hamn : tokens p1 ≠ [] →
    (∀ a ti, a ∈ tokens p1 → heap p1 !! a = Some ti → is_active ti = false) →
    (∃ t, fst r = Some t ∧ t ∈ pool_names p1) ∧
    tokens (snd r) = tokens p1 ∧
    ∀ a, a ∈ tokens (snd r) →
      ∃ ti, heap (snd r) !! a = Some ti ∧
            is_active ti = true ∧ failure_count ti = 0).
  { intros Hne Hall. subst r. unfold get_next_token. fold p1.
    destruct (select_amnesty now p1 Hwf1 Hne Hall) as [t [Ht [Hin Hheal]]].
    split; [eauto|]. split; [apply select_tokens|].
    intros a Ha. rewrite select_tokens in Ha. apply Hheal. assumption. }
  split; [|split; [|split; [|split]]].
  - intros E. subst p1. unfold reload_if_due. rewrite E. reflexivity.
  - exact Hamn.
  - exact Hnone.
  - intros E. apply Hnone in E. subst p1. unfold reload_if_due in *.
    destruct (_should_reload now tm); [|assumption].
    rewrite <- (_load_tokens_empty now src tm E). assumption.
  - intros Hsub Hne Hall.
    assert (H1 : tokens p1 ≠ [] ∧
      ∀ a ti, a ∈ tokens p1 → heap p1 !! a = Some ti → is_active ti = false).
    { subst p1. unfold reload_if_due.
      destruct (_should_reload now tm); [|auto].
      apply _load_tokens_all_inactive; assumption. }
    destruct H1 as [Hne1 Hall1].
    destruct (Hamn Hne1 Hall1) as [[t [Ht _]] [_ Hheal]].
    split; [eauto | assumption].
Qed.

(** C5. The pool invariant "a credential whose consecutive failure count has
    reached [max_failures] is inactive" holds for a freshly constructed
    manager and is kept by [mark_token_failed], [mark_token_success],
    [get_next_token] (amnesty included), [reload_tokens] and
    [reset_all_tokens], for a failure threshold of at least one. *)
Theorem pool_invariant_preserved (maxf interval : Z) :
  1 ≤ maxf →
  (∀ now src, pool_inv (init maxf interval now src)) ∧
  (∀ tm, max_failures tm = maxf → pool_inv tm →
     (∀ now name, pool_inv (mark_token_failed now name tm)) ∧
     (∀ name, pool_inv (mark_token_success name tm)) ∧
     (∀ now src, pool_inv (snd (get_next_token now src tm))) ∧
     (∀ now src, pool_inv (reload_tokens now src tm)) ∧
     pool_inv (reset_all_tokens tm)).
Proof.
  intros Hm. split.
  - intros now src. unfold init. apply _load_tokens_inv; [assumption|].
    intros a ti Ha. inversion Ha.
  - intros tm <- Hinv. repeat split; intros.
    + apply mark_token_failed_inv. assumption.
    + apply mark_token_success_inv; assumption.
    + apply get_next_token_inv; assumption.
    + apply _load_tokens_inv; assumption.
    + apply reset_all_tokens_inv. assumption.
Qed.

(** C9. Reporting a failure or a success for a token string that no entry of
    the pool carries changes nothing in the manager. *)
Theorem mark_absent_token_noop (now : Z) (name : pystr) (tm : TokenManager) :
  (∀ a ti, a ∈ tokens tm → heap tm !! a = Some ti → token ti ≠ name) →
  mark_token_failed now name tm = tm ∧ mark_token_success name tm = tm.
Proof.
  intros Habs. apply find_in_None in Habs.
  unfold mark_token_failed, mark_token_success. rewrite Habs. split; reflexivity.
Qed.

End TokenPoolFacts.

Module GatewayFacts.
Import PyJson TokenPool Gateway TokenPoolFacts.

Section StreamFacts.

Context {TH : Type} `{ToolHandler TH}.
Variable json_loads : pystr -> option Json.

(** *** Without a tool handler none appears *)

Lemma thinking_branch_handler data (st : @StreamState TH) :
  tool_handler (snd (fst (thinking_branch data st))) = tool_handler st.
Proof.
  unfold thinking_branch, send_role.
  destruct (has_thinking st); simpl; repeat case_match; reflexivity.
Qed.

Lemma answer_branch_handler data (st : @StreamState TH) :
  tool_handler (snd (fst (answer_branch data st))) = tool_handler st.
Proof.
  unfold answer_branch, send_role.
  destruct (has_thinking st); simpl; repeat case_match; reflexivity.
Qed.

Lemma process_event_no_handler chunk (st : @StreamState TH) :
  tool_handler st = None →
  tool_handler (snd (process_event chunk st)) = None.
Proof.
  intros Hn. unfold process_event.
  destruct chunk; try assumption.
  destruct (is_str _ _); [|assumption].
  destruct (get_or (lit "data") _ kv); try assumption.
  rewrite Hn.
  destruct (is_str _ (lit "thinking")).
  - pose proof (thinking_branch_handler kv0 st) as Ht.
    destruct (thinking_branch kv0 st) as [[o st1] fin]. simpl in Ht.
    destruct fin; [destruct (_ && _)|]; simpl; congruence.
  - destruct (is_str _ (lit "answer")).
    + pose proof (answer_branch_handler kv0 st) as Ht.
      destruct (answer_branch kv0 st) as [[o st1] fin]. simpl in Ht.
      destruct fin; [destruct (_ && _)|]; simpl; congruence.
    + destruct (_ && _); simpl; assumption.
Qed.

Lemma process_line_no_handler l (st : @StreamState TH) :
  tool_handler st = None →
  tool_handler (snd (process_line json_loads l st)) = None.
Proof.
  intros Hn. unfold process_line.
  destruct (classify l); try assumption.
  destruct (json_loads chunk_str); [|assumption].
  apply process_event_no_handler. assumption.
Qed.

Lemma process_lines_no_handler ls : ∀ st : @StreamState TH,
  tool_handler st = None →
  tool_handler (snd (process_lines json_loads ls st)) = None.
Proof.
  induction ls as [|l r IH]; intros st Hn; cbn [process_lines]; [assumption|].
  pose proof (process_line_no_handler l st Hn) as H1.
  destruct (process_line json_loads l st) as [o1 st1]. simpl in H1.
  pose proof (IH st1 H1) as H2.
  destruct (process_lines json_loads r st1) as [o2 st2]. exact H2.
Qed.

Lemma refill_handler bytes (st : @StreamState TH) :
  tool_handler (snd (refill bytes st)) = tool_handler st.
Proof.
  unfold refill. destruct (Utf8.decode _).
  - destruct (take_lines _ _). reflexivity.
  - destruct (_ <? _); reflexivity.
Qed.

Lemma process_fragment_no_handler f (st : @StreamState TH) :
  tool_handler st = None →
  tool_handler (snd (fst (process_fragment json_loads f st))) = None.
Proof.
  intros Hn. unfold process_fragment.
  destruct (frag_bytes f) as [|b bs] eqn:Eb; [assumption|].
  pose proof (refill_handler (b :: bs) (count_chunk st)) as H1.
  destruct (refill (b :: bs) (count_chunk st)) as [lines st1]. simpl in H1.
  assert (H2 : tool_handler st1 = None) by (rewrite H1; assumption).
  pose proof (process_lines_no_handler lines st1 H2) as H3.
  destruct (process_lines json_loads lines st1) as [o st2]. exact H3.
Qed.

Lemma process_fragments_no_handler fs : ∀ st : @StreamState TH,
  tool_handler st = None →
  tool_handler (snd (fst (process_fragments json_loads fs st))) = None.
Proof.
  induction fs as [|f r IH]; intros st Hn; cbn [process_fragments];
    [assumption|].
  pose proof (process_fragment_no_handler f st Hn) as H1.
  destruct (process_fragment json_loads f st) as [[o1 st1] stop].
  simpl in H1. destruct stop; [exact H1|].
  pose proof (IH st1 H1) as H2.
  destruct (process_fragments json_loads r st1) as [[o2 st2] stop2]. exact H2.
Qed.

Variable settings : Settings.
Variable w : World.
Variable req : Request.

(** *** Every turn of the retry loop stops after a marker or goes on *)

Lemma last_emit_done os r : list.last (out (emit (os ++ [DoneMarker]) r)) = Some DoneMarker.
Proof. unfold emit. simpl. rewrite app_assoc. apply last_snoc. Qed.

Lemma on_exception_ok msg cur rc r :
  step_ok settings rc (on_exception settings w msg cur rc r).
Proof.
  unfold on_exception.
  destruct (MAX_RETRIES settings <? rc + 1) eqn:E; simpl.
  - apply (last_emit_done [_]).
  - apply Z.ltb_ge in E. split; [reflexivity | assumption].
Qed.

Lemma handle_200_ok frags fin tok rc r :
  has_tools req = false → has_mcp_servers req = false →
  step_ok settings rc (handle_200 json_loads settings w req frags fin tok rc r).
Proof.
  intros Ht Hm. unfold handle_200.
  assert (Hinit : tool_handler (initial_state req) = None).
  { unfold initial_state. rewrite Ht, Hm. reflexivity. }
  pose proof (process_fragments_no_handler frags _ Hinit) as Hn.
  destruct (process_fragments json_loads frags (initial_state req))
    as [[o st] stopped]. simpl in Hn.
  assert (Hno : no_tool_call st = true) by (unfold no_tool_call; rewrite Hn; reflexivity).
  rewrite Hno.
  assert (Hend : ∀ r0,
    step_ok settings rc
      (if has_critical_issue st && (rc <? MAX_RETRIES settings)
       then Continue (rc + 1) (Some ErrIncomplete) tok (emit [DoneMarker] r0)
       else Stop (emit [DoneMarker] r0))).
  { intros r0. destruct (has_critical_issue st); simpl;
      [destruct (rc <? MAX_RETRIES settings) eqn:E; simpl|].
    - apply Z.ltb_lt in E. split; [reflexivity | lia].
    - apply (last_emit_done []).
    - apply (last_emit_done []). }
  destruct stopped; [apply Hend|].
  destruct fin; [apply Hend | apply on_exception_ok].
Qed.

Lemma respond_ok rc tok r :
  has_tools req = false → has_mcp_servers req = false →
  step_ok settings rc (respond json_loads settings w req rc tok r).
Proof.
  intros Ht Hm. unfold respond.
  destruct (upstream w (length (calls r))) as [msg|sc frags fin];
    [apply on_exception_ok|].
  destruct (sc =? 400).
  { destruct (aread frags fin); [|apply on_exception_ok].
    destruct (rc + 1 <=? MAX_RETRIES settings) eqn:E; simpl.
    - apply Z.leb_le in E. auto.
    - apply (last_emit_done [_]). }
  destruct (sc =? 401).
  { destruct (rc + 1 <=? MAX_RETRIES settings) eqn:E; simpl.
    - apply Z.leb_le in E. auto.
    - apply (last_emit_done [_]). }
  destruct (sc =? 429).
  { destruct (rc + 1 <=? MAX_RETRIES settings) eqn:E; simpl.
    - apply Z.leb_le in E. auto.
    - apply (last_emit_done [_]). }
  destruct (negb (sc =? 200)); [|apply handle_200_ok; assumption].
  destruct (aread frags fin); [|apply on_exception_ok].
  destruct (_ || _); simpl; [|apply (last_emit_done [_])].
  destruct (rc <? MAX_RETRIES settings) eqn:E; simpl.
  - apply Z.ltb_lt in E. split; [reflexivity | lia].
  - apply (last_emit_done [_]).
Qed.

Lemma attempt_ok rc cur r :
  has_tools req = false → has_mcp_servers req = false →
  step_ok settings rc (attempt json_loads settings w req rc cur r).
Proof.
  intros Ht Hm. unfold attempt.
  destruct (acquire settings w rc cur r) as [[tok r2]|r2];
    [apply respond_ok; assumption | apply on_exception_ok].
Qed.

Lemma stream_loop_ends fuel : ∀ rc le cur r,
  has_tools req = false → has_mcp_servers req = false →
  rc ≤ MAX_RETRIES settings →
  MAX_RETRIES settings - rc + 1 ≤ Z.of_nat fuel →
  fst (stream_loop json_loads settings w req fuel rc le cur r) = Returned ∧
  list.last (out (snd (stream_loop json_loads settings w req fuel rc le cur r)))
    = Some DoneMarker.
Proof.
  induction fuel as [|fuel IH]; intros rc le cur r Ht Hm Hrc Hfuel; [lia|].
  cbn [stream_loop].
  rewrite (proj2 (Z.leb_le _ _) Hrc).
  pose proof (attempt_ok rc cur r Ht Hm) as Hstep.
  destruct (attempt json_loads settings w req rc cur r)
    as [rc' le' cur' r'|r']; simpl in Hstep.
  - destruct Hstep as [-> Hle]. apply IH; try assumption. lia.
  - split; [reflexivity | assumption].
Qed.

(** X24. A streaming request that runs without a tool handler always comes
    to a [return], whatever the upstream sends; it yields the terminal
    marker [data: [DONE]] at least once, and the marker is the last record
    it yields. *)
Theorem stream_ends_with_done (token0 : pystr) (p : TokenManager) :
  0 ≤ MAX_RETRIES settings →
  has_tools req = false → has_mcp_servers req = false →
  let res := stream_response json_loads settings w req token0 p in
  fst res = Returned ∧
  list.last (out (snd res)) = Some DoneMarker ∧
  (1 ≤ count_done (out (snd res)))%nat.
Proof.
  intros Hmax Ht Hm res.
  destruct (stream_loop_ends (S (Z.to_nat (MAX_RETRIES settings + 1))) 0 None
              token0 (mkRun p 0 [] 0 [] []) Ht Hm Hmax ltac:(lia))
    as [Hret Hlast].
  fold (stream_response json_loads settings w req token0 p) in Hret, Hlast.
  fold res in Hret, Hlast. split; [assumption|]. split; [assumption|].
  destruct (out (snd res)) as [|o os] using rev_ind; [discriminate|].
  rewrite last_snoc in Hlast. injection Hlast as ->.
  unfold count_done. rewrite List.filter_app, length_app. simpl. lia.
Qed.

(** *** Retrying with a usable pool *)

Lemma get_token_usable r :
  usable (pool r) →
  truthy (fst (get_token settings w r)) = true ∧
  usable (pool (snd (get_token settings w r))) ∧
  calls (snd (get_token settings w r)) = calls r ∧
  out (snd (get_token settings w r)) = out r ∧
  reports (snd (get_token settings w r)) = reports r.
Proof.
  intros Hu. unfold get_token.
  assert (Hpool : ∀ r1, usable (pool r1) →
    let res :=
      (let '(res, p) :=
         get_next_token (clock w (tick r1)) (source w (tick r1)) (pool r1) in
       match res with
       | Some t =>
           if truthy t
           then (t, mkRun p (S (tick r1)) (calls r1) (fetches r1) (reports r1)
                      (out r1))
           else ([], mkRun p (S (tick r1)) (calls r1) (fetches r1)
                       (reports r1) (out r1))
       | None => ([], mkRun p (S (tick r1)) (calls r1) (fetches r1)
                        (reports r1) (out r1))
       end) in
    truthy (fst res) = true ∧ usable (pool (snd res)) ∧
    calls (snd res) = calls r1 ∧ out (snd res) = out r1 ∧
    reports (snd res) = reports r1).
  { intros r1 Hu1.
    destruct (get_next_token_usable (clock w (tick r1)) (source w (tick r1))
                (pool r1) Hu1) as [Hu' [t [Ht Htr]]].
    destruct (get_next_token _ _ _) as [res p]. simpl in *. subst res.
    rewrite Htr. simpl. auto. }
  destruct (ANONYMOUS_MODE settings).
  - destruct (guest w (fetches r)) as [t|].
    + destruct (truthy t) eqn:Et; [simpl; auto|].
      apply (Hpool (mkRun _ _ _ _ _ _)). assumption.
    + apply (Hpool (mkRun _ _ _ _ _ _)). assumption.
  - apply Hpool. assumption.
Qed.

Lemma acquire_usable rc cur r :
  0 ≤ rc → usable (pool r) →
  ∃ tok r2, acquire settings w rc cur r = inl (tok, r2) ∧
    usable (pool r2) ∧ calls r2 = calls r ∧ out r2 = out r ∧
    (truthy cur = true → truthy tok = true) ∧
    (truthy cur = true →
       length (reports r2)
       = (length (reports r) + (if (rc =? 0)%Z then 0 else 1))%nat).
Proof.
  intros Hrc Hu. unfold acquire.
  destruct (0 <? rc) eqn:E.
  - apply Z.ltb_lt in E.
    assert (Hne : (rc =? 0) = false) by (apply Z.eqb_neq; lia).
    rewrite Hne.
    set (r1 := if truthy cur then mark_token_failure w cur r else r).
    assert (Hr1 : usable (pool r1) ∧ calls r1 = calls r ∧ out r1 = out r ∧
                  (truthy cur = true →
                     length (reports r1) = (length (reports r) + 1)%nat)).
    { subst r1. destruct (truthy cur); simpl.
      - split; [apply mark_token_failed_usable; assumption|].
        split; [reflexivity|]. split; [reflexivity|].
        intros _. rewrite length_app. reflexivity.
      - split; [assumption|]. split; [reflexivity|]. split; [reflexivity|].
        intros Hf. discriminate Hf. }
    destruct Hr1 as [Hu1 [Hc1 [Ho1 Hrep1]]].
    destruct (get_token_usable r1 Hu1) as [Ht [Hu2 [Hc2 [Ho2 Hrep2]]]].
    destruct (get_token settings w r1) as [new_token r2]. simpl in *.
    rewrite Ht. exists new_token, r2. split; [reflexivity|].
    split; [assumption|]. split; [congruence|]. split; [congruence|].
    split; [auto|]. intros Hcur. rewrite Hrep2. auto.
  - apply Z.ltb_ge in E. assert (rc = 0) as -> by lia. simpl.
    exists cur, r. split; [reflexivity|]. split; [assumption|].
    split; [reflexivity|]. split; [reflexivity|]. split; [auto|].
    intros _. lia.
Qed.

(** The run after the upstream call with token [tok]. *)
Lemma loop_retry_until_bound (err : Out) (le0 : LastError) :
  (∀ rc tok r2,
     respond json_loads settings w req rc tok r2 =
       if rc + 1 <=? MAX_RETRIES settings
       then Continue (rc + 1) (Some le0) tok
              (mkRun (pool r2) (tick r2) (calls r2 ++ [tok]) (fetches r2)
                 (reports r2) (out r2))
       else Stop (emit [err; DoneMarker]
              (mkRun (pool r2) (tick r2) (calls r2 ++ [tok]) (fetches r2)
                 (reports r2) (out r2)))) →
  ∀ fuel rc le cur r,
    0 ≤ rc ≤ MAX_RETRIES settings →
    MAX_RETRIES settings - rc + 1 ≤ Z.of_nat fuel →
    usable (pool r) →
    fst (stream_loop json_loads settings w req fuel rc le cur r) = Returned ∧
    length (calls (snd (stream_loop json_loads settings w req fuel rc le cur r)))
      = (length (calls r) + Z.to_nat (MAX_RETRIES settings - rc + 1))%nat ∧
    out (snd (stream_loop json_loads settings w req fuel rc le cur r))
      = out r ++ [err; DoneMarker] ∧
    (truthy cur = true →
     length (reports (snd (stream_loop json_loads settings w req fuel rc le
                             cur r)))
       = (length (reports r)
          + Z.to_nat (MAX_RETRIES settings - rc
                      + (if rc =? 0 then 0 else 1))%Z)%nat).
Proof.
  intros Hresp. induction fuel as [|fuel IH]; intros rc le cur r Hrc Hfuel Hu;
    [lia|].
  cbn [stream_loop]. rewrite (proj2 (Z.leb_le _ _) (proj2 Hrc)).
  unfold attempt.
  destruct (acquire_usable rc cur r (proj1 Hrc) Hu)
    as [tok [r2 [Ea [Hu2 [Hc2 [Ho2 [Htok Hrep2]]]]]]].
  rewrite Ea, Hresp.
  destruct (rc + 1 <=? MAX_RETRIES settings) eqn:E.
  - apply Z.leb_le in E.
    specialize (IH (rc + 1) (Some le0) tok
                  (mkRun (pool r2) (tick r2) (calls r2 ++ [tok]) (fetches r2)
                     (reports r2) (out r2))
                  ltac:(lia) ltac:(lia) Hu2).
    destruct IH as [H1 [H2 [H3 H4]]]. simpl in H2, H3, H4.
    split; [assumption|]. split; [|split].
    + rewrite H2, length_app, Hc2. simpl. lia.
    + rewrite H3, Ho2. reflexivity.
    + intros Hcur. rewrite (H4 (Htok Hcur)), (Hrep2 Hcur).
      assert (Hne : (rc + 1 =? 0) = false) by (apply Z.eqb_neq; lia).
      rewrite Hne. destruct (rc =? 0) eqn:E0.
      * apply Z.eqb_eq in E0. subst rc. lia.
      * apply Z.eqb_neq in E0. lia.
  - apply Z.leb_gt in E. assert (rc = MAX_RETRIES settings) by lia.
    simpl. split; [reflexivity|]. split; [|split].
    + rewrite length_app, Hc2. simpl. lia.
    + rewrite Ho2. reflexivity.
    + intros Hcur. rewrite (Hrep2 Hcur).
      destruct (rc =? 0) eqn:E0.
      * apply Z.eqb_eq in E0. lia.
      * apply Z.eqb_neq in E0. lia.
Qed.

Lemma respond_503 frags rc tok r2 :
  upstream w (length (calls r2)) = Reply 503 frags Eof →
  respond json_loads settings w req rc tok r2 =
    if rc + 1 <=? MAX_RETRIES settings
    then Continue (rc + 1)
           (Some (ErrStatus 503 (List.concat (List.map frag_bytes frags)))) tok
           (mkRun (pool r2) (tick r2) (calls r2 ++ [tok]) (fetches r2)
              (reports r2) (out r2))
    else Stop (emit [ErrorRecord (lit "upstream_error") (Some 503)
                       (Some (ErrStatus 503
                                (List.concat (List.map frag_bytes frags))));
                     DoneMarker]
           (mkRun (pool r2) (tick r2) (calls r2 ++ [tok]) (fetches r2)
              (reports r2) (out r2))).
Proof.
  intros Hup. unfold respond. rewrite Hup.
  change (503 =? 400) with false. change (503 =? 401) with false.
  change (503 =? 429) with false. change (503 =? 200) with false.
  change (503 =? 502) with false. change (503 =? 503) with true.
  cbn [negb orb andb aread].
  destruct (rc <? MAX_RETRIES settings) eqn:E1;
    destruct (rc + 1 <=? MAX_RETRIES settings) eqn:E2; try reflexivity.
  - apply Z.ltb_lt in E1. apply Z.leb_gt in E2. lia.
  - apply Z.ltb_ge in E1. apply Z.leb_le in E2. lia.
Qed.


End StreamFacts.

End GatewayFacts.

Module LegacyFacts.
Import TokenPool Legacy.

Section CallFacts.

Variable max_retries : Z.
Variable w : World.

Lemma attempt_503 rc auth r :
  call_upstream_api w (length (calls r)) = Responds 503 →
  attempt max_retries w rc auth r =
    if rc <? max_retries - 1
    then Retry auth (mkRun (pool r) (tick r) (calls r ++ [auth]))
    else Finish (Returns 503) auth (mkRun (pool r) (tick r) (calls r ++ [auth])).
Proof. intros Hc. unfold attempt. rewrite Hc. reflexivity. Qed.

Lemma call_loop_503 fuel : ∀ rc auth r,
  (∀ n, call_upstream_api w n = Responds 503) →
  0 ≤ rc < max_retries →
  max_retries - rc ≤ Z.of_nat fuel →
  fst (fst (call_loop max_retries w fuel rc auth r)) = Returns 503 ∧
  length (calls (snd (call_loop max_retries w fuel rc auth r)))
    = (length (calls r) + Z.to_nat (max_retries - rc))%nat ∧
  pool (snd (call_loop max_retries w fuel rc auth r)) = pool r.
Proof.
  induction fuel as [|fuel IH]; intros rc auth r Hall Hrc Hfuel; [lia|].
  cbn [call_loop]. rewrite (proj2 (Z.ltb_lt _ _) (proj2 Hrc)).
  rewrite attempt_503 by apply Hall.
  destruct (rc <? max_retries - 1) eqn:E.
  - apply Z.ltb_lt in E.
    destruct (IH (rc + 1) auth (mkRun (pool r) (tick r) (calls r ++ [auth]))
                Hall ltac:(lia) ltac:(lia)) as [H1 [H2 H3]].
    split; [assumption|]. split; [|assumption].
    rewrite H2. simpl. rewrite length_app. simpl. lia.
  - apply Z.ltb_ge in E. simpl. split; [reflexivity|]. split; [|reflexivity].
    rewrite length_app. simpl. lia.
Qed.


End CallFacts.

End LegacyFacts.

Module RetryFacts.
Import PyJson TokenPool Gateway TokenPoolFacts GatewayFacts.

(** C4. For an upstream that answers 503 to every call, [stream_response]
    issues exactly [MAX_RETRIES + 1] upstream calls and then yields one
    error record followed by the terminal marker, when the pool can supply a
    token for each retry; [ResponseHandler._call_upstream] issues exactly
    [MAX_RETRIES] calls and returns the last 503 response. *)
Theorem retry_bound_503 {TH : Type} `{ToolHandler TH}
    (json_loads : pystr -> option Json) (settings : Settings)
    (w : Gateway.World) (req : Request) (token0 : pystr) (p : TokenManager)
    (frags : list Fragment)
    (lw : Legacy.World) (auth : pystr) (lp : TokenManager) :
  0 ≤ MAX_RETRIES settings →
  usable p →
  (∀ n, upstream w n = Reply 503 frags Eof) →
  (∀ n, Legacy.call_upstream_api lw n = Legacy.Responds 503) →
  (fst (stream_response json_loads settings w req token0 p) = Returned ∧
   length (calls (snd (stream_response json_loads settings w req token0 p)))
     = Z.to_nat (MAX_RETRIES settings + 1) ∧
   out (snd (stream_response json_loads settings w req token0 p))
     = [ErrorRecord (lit "upstream_error") (Some 503)
          (Some (ErrStatus 503 (List.concat (List.map frag_bytes frags))));
        DoneMarker]) ∧
  (1 ≤ MAX_RETRIES settings →
   fst (fst (Legacy._call_upstream (MAX_RETRIES settings) lw auth lp))
     = Legacy.Returns 503 ∧
   length (Legacy.calls
             (snd (Legacy._call_upstream (MAX_RETRIES settings) lw auth lp)))
     = Z.to_nat (MAX_RETRIES settings)).
Proof.
  intros Hmax Hu Hup Hlup. split.
  - unfold stream_response.
    destruct (loop_retry_until_bound json_loads settings w req _ _
                (fun rc tok r2 => respond_503 json_loads settings w req frags
                                    rc tok r2 (Hup _))
                (S (Z.to_nat (MAX_RETRIES settings + 1))) 0 None token0
                (mkRun p 0 [] 0 [] []) ltac:(lia) ltac:(lia) Hu)
      as [H1 [H2 [H3 _]]].
    split; [assumption|]. split; [|assumption].
    rewrite H2. simpl. f_equal. lia.
  - intros Hone. unfold Legacy._call_upstream.
    destruct (LegacyFacts.call_loop_503 (MAX_RETRIES settings) lw
                (S (Z.to_nat (MAX_RETRIES settings))) 0 auth
                (Legacy.mkRun lp 0 []) Hlup ltac:(lia) ltac:(lia))
      as [H1 [H2 _]].
    split; [assumption|]. rewrite H2. simpl. f_equal. lia.
Qed.


End RetryFacts.

Module ReaderFacts.
Import PyJson TokenPool Gateway Examples.

Lemma skipped_line {TH : Type} `{ToolHandler TH}
    (json_loads : pystr -> option Json) l (st : @StreamState TH) :
  classify l = Skipped → process_line json_loads l st = ([], count_line st).
Proof. intros E. unfold process_line. rewrite E. reflexivity. Qed.

(** C1. The same record, delivered whole and delivered cut after its second
    byte, gives different decoded events and different output: delivered
    whole it is decoded and answered, delivered in two fragments its first
    bytes are read twice (once from the buffer, once from [incomplete_line])
    and the record is lost. *)
Theorem split_record_is_lost {TH : Type} `{ToolHandler TH}
    (json_loads : pystr -> option Json) :
  json_loads answer_payload = Some answer_event →
  List.concat answer_cut = List.concat answer_whole ∧
  decoded_events json_loads answer_whole
    (mkStreamState (TH:=TH) None false true [] [] 0 0) = [answer_event] ∧
  decoded_events json_loads answer_cut
    (mkStreamState (TH:=TH) None false true [] [] 0 0) = [] ∧
  lines_read answer_cut (mkStreamState (TH:=TH) None false true [] [] 0 0)
    = [lit "da" ++ lit "data: " ++ answer_payload; []] ∧
  fst (fst (process_fragments json_loads
              (List.map (fun b => mkFragment b false) answer_whole)
              (mkStreamState None false true [] [] 0 0)))
    = [RoleChunk; ContentChunk false (JStr (lit "Hi"))] ∧
  fst (fst (process_fragments json_loads
              (List.map (fun b => mkFragment b false) answer_cut)
              (mkStreamState None false true [] [] 0 0)))
    = [].
Proof.
  intros Hev.
  assert (Lw : lines_read answer_whole
                 (mkStreamState (TH:=TH) None false true [] [] 0 0)
               = [lit "data: " ++ answer_payload; []])
    by (vm_compute; reflexivity).
  assert (Lc : lines_read answer_cut
                 (mkStreamState (TH:=TH) None false true [] [] 0 0)
               = [lit "da" ++ lit "data: " ++ answer_payload; []])
    by (vm_compute; reflexivity).
  assert (Cw : classify (lit "data: " ++ answer_payload)
               = Payload answer_payload) by (vm_compute; reflexivity).
  assert (Cc : classify (lit "da" ++ lit "data: " ++ answer_payload) = Skipped)
    by (vm_compute; reflexivity).
  assert (Ce : classify [] = Skipped) by (vm_compute; reflexivity).
  split; [vm_compute; reflexivity|].
  unfold decoded_events. rewrite Lw, Lc.
  cbn [omap list_omap]. rewrite Cw, Cc, Ce, Hev.
  split; [reflexivity|]. split; [reflexivity|]. split; [reflexivity|]. split.
  - unfold answer_whole. cbn [List.map process_fragments].
    unfold process_fragment. cbn [frag_bytes frag_slow].
    assert (R : refill (sse_line answer_payload)
                  (count_chunk (mkStreamState (TH:=TH) None false true [] [] 0 0))
                = ([lit "data: " ++ answer_payload; []],
                   mkStreamState None false true [] [] 0 1))
      by (vm_compute; reflexivity).
    destruct (sse_line answer_payload) as [|b bs] eqn:Eb;
      [vm_compute in Eb; discriminate Eb|].
    rewrite R. cbn [process_lines].
    unfold process_line at 1. rewrite Cw, Hev.
    replace (process_event answer_event
               (count_line (mkStreamState (TH:=TH) None false true [] [] 0 1)))
      with ([RoleChunk; ContentChunk false (JStr (lit "Hi"))],
            mkStreamState (TH:=TH) None true true [] [] 1 1)
      by (vm_compute; reflexivity).
    rewrite (skipped_line json_loads [] _ Ce). reflexivity.
  - unfold answer_cut. cbn [List.map process_fragments].
    unfold process_fragment. cbn [frag_bytes frag_slow].
    assert (R1 : refill (firstn 2 (sse_line answer_payload))
                   (count_chunk (mkStreamState (TH:=TH) None false true [] [] 0 0))
                 = ([], mkStreamState None false true
                          (Utf8.ascii_bytes "da") (lit "da") 0 1))
      by (vm_compute; reflexivity).
    assert (R2 : refill (skipn 2 (sse_line answer_payload))
                   (count_chunk (mkStreamState (TH:=TH) None false true
                                   (Utf8.ascii_bytes "da") (lit "da") 0 1))
                 = ([lit "da" ++ lit "data: " ++ answer_payload; []],
                    mkStreamState None false true [] [] 0 2))
      by (vm_compute; reflexivity).
    destruct (firstn 2 (sse_line answer_payload)) as [|b1 bs1] eqn:E1;
      [vm_compute in E1; discriminate E1|].
    destruct (skipn 2 (sse_line answer_payload)) as [|b2 bs2] eqn:E2;
      [vm_compute in E2; discriminate E2|].
    rewrite R1. cbn [process_lines]. rewrite R2. cbn [process_lines].
    rewrite (skipped_line json_loads _ _ Cc).
    rewrite (skipped_line json_loads [] _ Ce). reflexivity.
Qed.

End ReaderFacts.

Module PhaseFacts.
Import PyJson TokenPool Gateway Examples.

Section ThinkingOnly.

Context {TH : Type} `{ToolHandler TH}.
Variable json_loads : pystr -> option Json.
Hypothesis loads_thinking : json_loads thinking_payload = Some thinking_event.
Hypothesis loads_done : json_loads done_payload = Some done_event.

Lemma thinking_line (st : @StreamState TH) :
  process_line json_loads (lit "data: " ++ thinking_payload) st
    = process_event thinking_event (count_line st).
Proof.
  unfold process_line.
  replace (classify (lit "data: " ++ thinking_payload))
    with (Payload thinking_payload) by (vm_compute; reflexivity).
  rewrite loads_thinking. reflexivity.
Qed.

Lemma done_line (st : @StreamState TH) :
  process_line json_loads (lit "data: " ++ done_payload) st
    = process_event done_event (count_line st).
Proof.
  unfold process_line.
  replace (classify (lit "data: " ++ done_payload))
    with (Payload done_payload) by (vm_compute; reflexivity).
  rewrite loads_done. reflexivity.
Qed.

Lemma thinking_stream_run :
  process_fragments json_loads thinking_stream (initial_state plain_request)
    = ([RoleChunk; ContentChunk true (JStr (THINK_OPEN ++ lit "step"));
        FinishChunk usage3; DoneMarker],
       mkStreamState None true false [] [] 3 1, false).
Proof.
  unfold thinking_stream. cbn [process_fragments process_fragment frag_bytes].
  assert (R : refill (sse_line thinking_payload ++ sse_line done_payload)
                (count_chunk (@initial_state TH _ plain_request))
              = ([lit "data: " ++ thinking_payload;
                  lit "data: " ++ done_payload; []],
                 mkStreamState None false true [] [] 0 1))
    by (vm_compute; reflexivity).
  destruct (sse_line thinking_payload ++ sse_line done_payload) as [|b bs] eqn:Eb;
    [vm_compute in Eb; discriminate Eb|].
  unfold process_fragment. cbn [frag_bytes frag_slow]. rewrite R.
  cbn [process_lines]. rewrite thinking_line.
  replace (process_event thinking_event
             (count_line (mkStreamState (TH:=TH) None false true [] [] 0 1)))
    with ([RoleChunk; ContentChunk true (JStr (THINK_OPEN ++ lit "step"))],
          mkStreamState (TH:=TH) None true false [] [] 1 1)
    by (vm_compute; reflexivity).
  rewrite done_line.
  replace (process_event done_event
             (count_line (mkStreamState (TH:=TH) None true false [] [] 1 1)))
    with ([FinishChunk usage3; DoneMarker],
          mkStreamState (TH:=TH) None true false [] [] 2 1)
    by (vm_compute; reflexivity).
  unfold process_line.
  replace (classify []) with Skipped by (vm_compute; reflexivity).
  reflexivity.
Qed.

End ThinkingOnly.

(** C3. A stream with one [thinking] event followed by the closing event
    yields the role chunk, one chunk that opens the thought ([<think>] before
    the text), the finish chunk and the terminal marker twice: the
    end-of-thought marker [</think>] is never yielded. *)
Theorem thinking_only_stream_is_not_closed {TH : Type} `{ToolHandler TH}
    (json_loads : pystr -> option Json) (settings : Settings)
    (w : Gateway.World) (token0 : pystr) (p : TokenManager) :
  0 ≤ MAX_RETRIES settings →
  json_loads thinking_payload = Some thinking_event →
  json_loads done_payload = Some done_event →
  upstream w 0 = Reply 200 thinking_stream Eof →
  fst (stream_response json_loads settings w plain_request token0 p)
    = Returned ∧
  out (snd (stream_response json_loads settings w plain_request token0 p))
    = [RoleChunk; ContentChunk true (JStr (THINK_OPEN ++ lit "step"));
       FinishChunk usage3; DoneMarker; DoneMarker] ∧
  length (List.filter is_think_open
            (out (snd (stream_response json_loads settings w plain_request
                         token0 p)))) = 1%nat ∧
  length (List.filter is_think_close
            (out (snd (stream_response json_loads settings w plain_request
                         token0 p)))) = 0%nat.
Proof.
  intros Hmax Ht Hd Hup.
  assert (Hrun : stream_response json_loads settings w plain_request token0 p
    = (Returned,
       mkRun (if truthy token0 then mark_token_success token0 p else p) 0
         [token0] 0 []
         [RoleChunk; ContentChunk true (JStr (THINK_OPEN ++ lit "step"));
          FinishChunk usage3; DoneMarker; DoneMarker])).
  { unfold stream_response.
    cbn [stream_loop]. rewrite (proj2 (Z.leb_le _ _) Hmax).
    unfold attempt, acquire. change (0 <? 0) with false. cbv iota.
    unfold respond. cbn [calls length]. rewrite Hup.
    change (200 =? 400) with false. change (200 =? 401) with false.
    change (200 =? 429) with false. change (200 =? 200) with true.
    cbn [negb]. unfold handle_200.
    rewrite (thinking_stream_run json_loads Ht Hd).
    destruct (truthy token0); reflexivity. }
  rewrite Hrun. cbn [fst snd out].
  split; [reflexivity|]. split; [reflexivity|].
  split; vm_compute; reflexivity.
Qed.

End PhaseFacts.

Module MarkerFacts.
Import PyJson TokenPool Gateway Examples MoreExamples.
Import TokenPoolFacts GatewayFacts.

Section AnswerStream.

Context {TH : Type} `{ToolHandler TH}.
Variable json_loads : pystr -> option Json.
Hypothesis loads_answer : json_loads answer_payload = Some answer_event.
Hypothesis loads_done : json_loads done_payload = Some done_event.

Lemma answer_stream_run :
  process_fragments json_loads answer_stream (initial_state plain_request)
    = ([RoleChunk; ContentChunk false (JStr (lit "Hi"));
        FinishChunk usage3; DoneMarker],
       mkStreamState None true true [] [] 3 1, false).
Proof.
  unfold answer_stream. cbn [process_fragments process_fragment frag_bytes].
  assert (R : refill (sse_line answer_payload ++ sse_line done_payload)
                (count_chunk (@initial_state TH _ plain_request))
              = ([lit "data: " ++ answer_payload;
                  lit "data: " ++ done_payload; []],
                 mkStreamState None false true [] [] 0 1))
    by (vm_compute; reflexivity).
  destruct (sse_line answer_payload ++ sse_line done_payload) as [|b bs] eqn:Eb;
    [vm_compute in Eb; discriminate Eb|].
  unfold process_fragment. cbn [frag_bytes frag_slow]. rewrite R.
  cbn [process_lines]. unfold process_line.
  replace (classify (lit "data: " ++ answer_payload))
    with (Payload answer_payload) by (vm_compute; reflexivity).
  rewrite loads_answer.
  replace (process_event answer_event
             (count_line (mkStreamState (TH:=TH) None false true [] [] 0 1)))
    with ([RoleChunk; ContentChunk false (JStr (lit "Hi"))],
          mkStreamState (TH:=TH) None true true [] [] 1 1)
    by (vm_compute; reflexivity).
  replace (classify (lit "data: " ++ done_payload))
    with (Payload done_payload) by (vm_compute; reflexivity).
  rewrite loads_done.
  replace (process_event done_event
             (count_line (mkStreamState (TH:=TH) None true true [] [] 1 1)))
    with ([FinishChunk usage3; DoneMarker],
          mkStreamState (TH:=TH) None true true [] [] 2 1)
    by (vm_compute; reflexivity).
  replace (classify []) with Skipped by (vm_compute; reflexivity).
  reflexivity.
Qed.

Variable settings : Settings.
Variable w : World.

(** The response with the answer stream ends the retry loop: the records of
    the stream, which end with the marker of line 516, are followed by the
    marker of line 544. *)
Lemma handle_200_answer tok rc r :
  handle_200 json_loads settings w plain_request answer_stream Eof tok rc r
    = Stop (emit [DoneMarker]
              (emit [RoleChunk; ContentChunk false (JStr (lit "Hi"));
                     FinishChunk usage3; DoneMarker]
                 (if truthy tok then mark_success tok r else r))).
Proof. unfold handle_200. rewrite answer_stream_run. reflexivity. Qed.

End AnswerStream.

(** C2. A complete answer, an [answer] event followed by the closing event
    with the usage statistics, is delivered with two terminal markers: one
    behind the finish chunk (line 516) and one when the body is read to its
    end (line 544).  When the first response has no data and the second one
    is that answer, the marker of the first attempt is yielded before the
    retry is decided: the client receives a terminal marker, then the
    chunks of the answer, and two more markers. *)
Theorem done_marker_is_repeated {TH : Type} `{ToolHandler TH}
    (json_loads : pystr -> option Json) (settings : Settings)
    (w : Gateway.World) (token0 : pystr) (p : TokenManager) :
  0 ≤ MAX_RETRIES settings →
  json_loads answer_payload = Some answer_event →
  json_loads done_payload = Some done_event →
  let res := stream_response json_loads settings w plain_request token0 p in
  (upstream w 0 = Reply 200 answer_stream Eof →
   fst res = Returned ∧
   out (snd res)
     = [RoleChunk; ContentChunk false (JStr (lit "Hi")); FinishChunk usage3;
        DoneMarker; DoneMarker] ∧
   count_done (out (snd res)) = 2%nat) ∧
  (1 ≤ MAX_RETRIES settings → usable p →
   upstream w 0 = Reply 200 [] Eof →
   upstream w 1 = Reply 200 answer_stream Eof →
   fst res = Returned ∧
   length (calls (snd res)) = 2%nat ∧
   out (snd res)
     = [DoneMarker; RoleChunk; ContentChunk false (JStr (lit "Hi"));
        FinishChunk usage3; DoneMarker; DoneMarker] ∧
   count_done (out (snd res)) = 3%nat).
Proof.
  intros Hmax Ha Hd res.
  split.
  - intros Hup.
    assert (Hrun : res
      = (Returned,
         emit [DoneMarker]
           (emit [RoleChunk; ContentChunk false (JStr (lit "Hi"));
                  FinishChunk usage3; DoneMarker]
              (if truthy token0
               then mark_success token0 (mkRun p 0 [token0] 0 [] [])
               else mkRun p 0 [token0] 0 [] [])))).
    { subst res. unfold stream_response. cbn [stream_loop].
      rewrite (proj2 (Z.leb_le _ _) Hmax).
      unfold attempt, acquire. change (0 <? 0) with false. cbv iota.
      unfold respond. cbn [calls length]. rewrite Hup.
      change (200 =? 400) with false. change (200 =? 401) with false.
      change (200 =? 429) with false. change (200 =? 200) with true.
      cbn [negb]. rewrite (handle_200_answer json_loads Ha Hd).
      reflexivity. }
    rewrite Hrun. cbn [fst snd].
    destruct (truthy token0); repeat split.
  - intros Hone Hus Hup0 Hup1.
    assert (Hrun : ∃ R, res = (Returned, R) ∧ length (calls R) = 2%nat ∧
      out R = [DoneMarker; RoleChunk; ContentChunk false (JStr (lit "Hi"));
               FinishChunk usage3; DoneMarker; DoneMarker]).
    { subst res. unfold stream_response. cbn [stream_loop].
      rewrite (proj2 (Z.leb_le _ _) Hmax).
      unfold attempt at 1. unfold acquire at 1. change (0 <? 0) with false.
      cbv iota. unfold respond at 1. cbn [calls length]. rewrite Hup0.
      change (200 =? 400) with false. change (200 =? 401) with false.
      change (200 =? 429) with false. change (200 =? 200) with true.
      cbn [negb]. unfold handle_200 at 1.
      cbn [process_fragments initial_state plain_request has_tools
           has_mcp_servers body_tools body_mcp_servers orb no_tool_call
           tool_handler has_critical_issue line_count Nat.eqb andb].
      rewrite (proj2 (Z.ltb_lt 0 (MAX_RETRIES settings))) by lia.
      destruct (Z.to_nat (MAX_RETRIES settings + 1)) as [|fuel] eqn:Ef; [lia|].
      change (0 + 1) with 1. cbn [stream_loop].
      rewrite (proj2 (Z.leb_le 1 (MAX_RETRIES settings)) Hone).
      set (r1 := emit [DoneMarker] _).
      assert (Hus1 : usable (pool r1)).
      { subst r1. destruct (truthy token0); cbn [emit pool mark_success];
          [apply mark_token_success_usable|]; exact Hus. }
      assert (Hc1 : calls r1 = [token0])
        by (subst r1; destruct (truthy token0); reflexivity).
      assert (Ho1 : out r1 = [DoneMarker])
        by (subst r1; destruct (truthy token0); reflexivity).
      unfold attempt.
      destruct (acquire_usable settings w 1 token0 r1 ltac:(lia) Hus1)
        as [tok [r2 [-> [_ [Hc2 [Ho2 _]]]]]].
      unfold respond. rewrite Hc2, Hc1. cbn [length]. rewrite Hup1.
      change (200 =? 400) with false. change (200 =? 401) with false.
      change (200 =? 429) with false. change (200 =? 200) with true.
      cbn [negb]. rewrite (handle_200_answer json_loads Ha Hd).
      eexists. split; [reflexivity|].
      destruct (truthy tok); cbn [emit calls out mark_success];
        rewrite Ho2, Ho1; split; reflexivity. }
    destruct Hrun as [R [-> [Hcalls Hout]]]. cbn [fst snd].
    rewrite Hout. repeat split. exact Hcalls.
Qed.

End MarkerFacts.

Module TransformFacts.
Import PyJson TokenPool Gateway.

(** C10. In the body that [transform_request_in] builds, [tools] is null
    whenever the request is a thinking request (a thinking model, or a true
    [reasoning] value), also when the request declares tools; the declared
    tools are forwarded exactly when tool support is enabled, the request is
    not a thinking request and the declared list is not empty. *)
Theorem tools_gate (settings : Settings) (w : Gateway.World)
    (request : list (pystr * Json)) (uuid : pystr) (r : Run)
    (body : UpstreamBody) (token : pystr) (r' : Run) :
  transform_request_in settings w request uuid r = (Some (body, token), r') →
  is_thinking settings request
    = (is_str (requested_model settings request) (THINKING_MODEL settings)
       || is_str (requested_model settings request)
            (GLM_46_THINKING_MODEL settings)
       || py_truthy (get_or (lit "reasoning") (JBool false) request)) ∧
  (is_thinking settings request = true → tools body = JNull) ∧
  (tools body ≠ JNull →
     TOOL_SUPPORT settings = true ∧ is_thinking settings request = false ∧
     py_truthy (get_or (lit "tools") JNull request) = true) ∧
  (TOOL_SUPPORT settings = true → is_thinking settings request = false →
   py_truthy (get_or (lit "tools") JNull request) = true →
   tools body = get_or (lit "tools") JNull request).
Proof.
  intros E. unfold transform_request_in in E.
  destruct (get_token settings w r) as [tok r1].
  destruct (truthy tok); [|discriminate E]. cbn [negb] in E.
  destruct (upstream_model_id settings request) as [id|]; [|discriminate E].
  injection E as <- _ _. cbn [tools].
  split.
  { unfold is_thinking, is_thinking_value.
    destruct (is_str _ (THINKING_MODEL settings)); [reflexivity|].
    destruct (is_str _ (GLM_46_THINKING_MODEL settings)); reflexivity. }
  destruct (TOOL_SUPPORT settings); destruct (is_thinking settings request);
    destruct (py_truthy (get_or (lit "tools") JNull request));
    cbn [andb negb]; repeat split; intros; try reflexivity; congruence.
Qed.

End TransformFacts.

(** * The properties at concrete inputs *)

Module Instances.
Import PyJson TokenPool Gateway Examples.
Import TokenPoolFacts GatewayFacts RetryFacts ReaderFacts PhaseFacts
  TransformFacts.

Lemma pool1_eq :
  pool1 = mkTokenManager 3 60 [new_TokenInfo (lit "tok")] [0%nat] 0 0.
Proof. vm_compute. reflexivity. Qed.

Lemma pool1_wf : wf pool1.
Proof.
  rewrite pool1_eq. intros a Ha. simpl in *.
  apply list_elem_of_singleton in Ha. subst a. lia.
Qed.

Lemma pool1_usable : usable pool1.
Proof.
  split; [apply pool1_wf|]. rewrite pool1_eq. split; [discriminate|].
  intros a ti Ha Hti. simpl in *.
  apply list_elem_of_singleton in Ha. subst a.
  injection Hti as <-. reflexivity.
Qed.

Lemma pool_dead_eq :
  pool_dead = mkTokenManager 3 60
                [mkTokenInfo (lit "tok") 3 false (Some 3) None] [0%nat] 0 0.
Proof. vm_compute. reflexivity. Qed.

Lemma pool_dead_wf : wf pool_dead.
Proof.
  rewrite pool_dead_eq. intros a Ha. simpl in *.
  apply list_elem_of_singleton in Ha. subst a. lia.
Qed.

(** The record cut after its second byte is not decoded. *)
Lemma split_record_is_lost_witness :
  toy_loads answer_payload = Some answer_event ∧
  decoded_events toy_loads answer_whole
    (mkStreamState (TH:=unit) None false true [] [] 0 0) = [answer_event] ∧
  decoded_events toy_loads answer_cut
    (mkStreamState (TH:=unit) None false true [] [] 0 0) = [].
Proof.
  split; [vm_compute; reflexivity|].
  destruct (split_record_is_lost (TH:=unit) toy_loads)
    as [_ [Hw [Hc _]]]; [vm_compute; reflexivity|].
  split; assumption.
Defined.

(** An upstream that sends its own terminal marker: the marker is yielded
    twice. *)
Lemma done_marker_twice :
  out (snd (stream_response (TH:=unit) toy_loads (settings_with 1)
              (world_of (fun _ => Reply 200 done_only Eof)) plain_request
              (lit "tok") pool1))
    = [DoneMarker; DoneMarker] ∧
  count_done
    (out (snd (stream_response (TH:=unit) toy_loads (settings_with 1)
                 (world_of (fun _ => Reply 200 done_only Eof)) plain_request
                 (lit "tok") pool1))) ≠ 1%nat.
Proof. split; vm_compute; [reflexivity | discriminate]. Qed.

(** A complete answer is closed by two terminal markers; after a first
    response without data the client receives a marker before the answer. *)
Lemma done_marker_is_repeated_witness :
  0 ≤ MAX_RETRIES (settings_with 1) ∧
  toy_loads answer_payload = Some answer_event ∧
  toy_loads done_payload = Some done_event ∧
  count_done
    (out (snd (stream_response (TH:=unit) toy_loads (settings_with 1)
                 (world_of (fun _ => Reply 200 MoreExamples.answer_stream Eof))
                 plain_request (lit "tok") pool1))) = 2%nat ∧
  out (snd (stream_response (TH:=unit) toy_loads (settings_with 1)
              MoreExamples.empty_then_answer plain_request (lit "tok") pool1))
    = [DoneMarker; RoleChunk; ContentChunk false (JStr (lit "Hi"));
       FinishChunk usage3; DoneMarker; DoneMarker].
Proof.
  split; [simpl; lia|]. split; [vm_compute; reflexivity|].
  split; [vm_compute; reflexivity|]. split.
  - apply (MarkerFacts.done_marker_is_repeated (TH:=unit) toy_loads
             (settings_with 1)
             (world_of (fun _ => Reply 200 MoreExamples.answer_stream Eof))
             (lit "tok") pool1);
      [simpl; lia | vm_compute; reflexivity | vm_compute; reflexivity
       | reflexivity].
  - apply (MarkerFacts.done_marker_is_repeated (TH:=unit) toy_loads
             (settings_with 1) MoreExamples.empty_then_answer
             (lit "tok") pool1);
      [simpl; lia | vm_compute; reflexivity | vm_compute; reflexivity
       | simpl; lia | apply pool1_usable | reflexivity | reflexivity].
Defined.

Lemma stream_ends_with_done_witness :
  0 ≤ MAX_RETRIES (settings_with 1) ∧
  has_tools plain_request = false ∧
  has_mcp_servers plain_request = false ∧
  list.last
    (out (snd (stream_response (TH:=unit) toy_loads (settings_with 1)
                 (world_of (fun _ => Reply 200 done_only Eof)) plain_request
                 (lit "tok") pool1)))
    = Some DoneMarker.
Proof.
  split; [simpl; lia|]. split; [reflexivity|]. split; [reflexivity|].
  apply (stream_ends_with_done (TH:=unit) toy_loads (settings_with 1)
           (world_of (fun _ => Reply 200 done_only Eof)) plain_request
           (lit "tok") pool1);
    [simpl; lia | reflexivity | reflexivity].
Defined.

Lemma thinking_only_stream_is_not_closed_witness :
  0 ≤ MAX_RETRIES (settings_with 1) ∧
  toy_loads thinking_payload = Some thinking_event ∧
  toy_loads done_payload = Some done_event ∧
  length (List.filter is_think_close
            (out (snd (stream_response (TH:=unit) toy_loads (settings_with 1)
                         (world_of (fun _ => Reply 200 thinking_stream Eof))
                         plain_request (lit "tok") pool1)))) = 0%nat.
Proof.
  split; [simpl; lia|]. split; [vm_compute; reflexivity|].
  split; [vm_compute; reflexivity|].
  apply (thinking_only_stream_is_not_closed (TH:=unit) toy_loads
           (settings_with 1)
           (world_of (fun _ => Reply 200 thinking_stream Eof))
           (lit "tok") pool1);
    [simpl; lia | vm_compute; reflexivity | vm_compute; reflexivity
     | reflexivity].
Defined.

(** With three retries configured, [_call_upstream] gives up on a 503
    upstream after three calls, not four. *)
Lemma call_upstream_503_three_calls :
  length (Legacy.calls
            (snd (Legacy._call_upstream 3
                    (legacy_world_of (fun _ => Legacy.Responds 503))
                    (lit "tok") pool1)))
    ≠ Z.to_nat (3 + 1).
Proof. vm_compute. discriminate. Qed.

Lemma retry_bound_503_witness :
  0 ≤ MAX_RETRIES (settings_with 3) ∧
  length (calls (snd (stream_response (TH:=unit) toy_loads (settings_with 3)
                        (world_of (fun _ => Reply 503 [] Eof)) plain_request
                        (lit "tok") pool1)))
    = Z.to_nat (MAX_RETRIES (settings_with 3) + 1) ∧
  length (Legacy.calls
            (snd (Legacy._call_upstream (MAX_RETRIES (settings_with 3))
                    (legacy_world_of (fun _ => Legacy.Responds 503))
                    (lit "tok") pool1)))
    = Z.to_nat (MAX_RETRIES (settings_with 3)).
Proof.
  split; [simpl; lia|].
  destruct (retry_bound_503 (TH:=unit) toy_loads (settings_with 3)
              (world_of (fun _ => Reply 503 [] Eof)) plain_request
              (lit "tok") pool1 []
              (legacy_world_of (fun _ => Legacy.Responds 503))
              (lit "tok") pool1)
    as [[_ [Hcalls _]] Hlegacy];
    [simpl; lia | apply pool1_usable | reflexivity | reflexivity |].
  split; [assumption|]. apply Hlegacy. simpl. lia.
Defined.



(** With a failure threshold of zero the pool that [__init__] loads breaks
    the invariant: its credential is active with a failure count of 0. *)
Lemma pool_invariant_fails_at_zero :
  health (init 0 60 0 source1) (lit "tok") = Some (new_TokenInfo (lit "tok")) ∧
  ¬ pool_inv (init 0 60 0 source1).
Proof.
  assert (E : init 0 60 0 source1
              = mkTokenManager 0 60 [new_TokenInfo (lit "tok")] [0%nat] 0 0)
    by (vm_compute; reflexivity).
  rewrite E. split; [vm_compute; reflexivity|].
  intros Hinv.
  specialize (Hinv 0%nat (new_TokenInfo (lit "tok"))).
  cbn [tokens heap max_failures new_TokenInfo failure_count is_active] in Hinv.
  discriminate Hinv; [left | reflexivity | lia].
Qed.

Lemma pool_invariant_preserved_witness :
  1 ≤ 3 ∧ pool_inv pool1 ∧ pool_inv pool_dead.
Proof.
  split; [lia|].
  destruct (pool_invariant_preserved 3 60) as [Hinit Hstep]; [lia|].
  assert (H1 : pool_inv pool1) by apply Hinit.
  split; [assumption|]. unfold pool_dead.
  apply Hstep; [reflexivity|].
  apply Hstep; [reflexivity|].
  apply Hstep; [reflexivity | assumption].
Defined.

(** A pool whose only credential is inactive, at a time when a reload is
    due, with a token file that holds a second token: the call returns the
    new token and the old credential stays inactive with its three
    failures. *)
Lemma reload_forestalls_amnesty :
  tokens pool_dead = [0%nat] ∧
  PoolMore.active_at pool_dead 0 = false ∧
  _should_reload 61 pool_dead = true ∧
  fst (get_next_token 61 MoreExamples.source_new pool_dead)
    = Some (lit "new") ∧
  health (snd (get_next_token 61 MoreExamples.source_new pool_dead))
    (lit "tok")
    = Some (mkTokenInfo (lit "tok") 3 false (Some 3) None).
Proof. repeat split; vm_compute; reflexivity. Qed.

Lemma amnesty_when_all_inactive_witness :
  wf pool_dead ∧
  ∃ t, fst (get_next_token 4 no_source pool_dead) = Some t.
Proof.
  split; [apply pool_dead_wf|].
  destruct (amnesty_when_all_inactive 4 no_source pool_dead pool_dead_wf)
    as [_ [Hamnesty _]].
  destruct Hamnesty as [[t [Ht _]] _].
  - vm_compute. discriminate.
  - intros a ti Ha Hti. vm_compute in Ha, Hti.
    apply list_elem_of_singleton in Ha. subst a.
    injection Hti as <-. reflexivity.
  - exists t. assumption.
Defined.

(** A token file with the same line twice: the pool holds two credentials
    for it, of which the first has failed three times.  Reloading the
    unchanged file makes both entries refer to the first object: the second
    entry changes from active without failures to inactive with three. *)
Lemma reload_merges_duplicates :
  source_names MoreExamples.source_dup = pool_names MoreExamples.pool_dup ∧
  tokens MoreExamples.pool_dup = [0; 1]%nat ∧
  tokens (reload_tokens 9 MoreExamples.source_dup MoreExamples.pool_dup)
    = [0; 0]%nat ∧
  PoolMore.entry MoreExamples.pool_dup 1 = Some (new_TokenInfo (lit "t")) ∧
  PoolMore.entry
    (reload_tokens 9 MoreExamples.source_dup MoreExamples.pool_dup) 1
    = Some (mkTokenInfo (lit "t") 3 false (Some 3) None).
Proof. repeat split; vm_compute; reflexivity. Qed.

Lemma reload_preserves_health_witness :
  (∀ t, t ∈ source_names source1 ↔ t ∈ pool_names pool_dead) ∧
  wf pool_dead ∧ NoDup (pool_names pool_dead) ∧
  health (reload_tokens 9 source1 pool_dead) (lit "tok")
    = health pool_dead (lit "tok") ∧
  ∀ a, a ∈ tokens (reload_tokens 9 source1 pool_dead) ↔ a ∈ tokens pool_dead.
Proof.
  assert (Hset : ∀ t, t ∈ source_names source1 ↔ t ∈ pool_names pool_dead).
  { intros t.
    assert (source_names source1 = pool_names pool_dead) as ->
      by (vm_compute; reflexivity).
    reflexivity. }
  assert (Hnd : NoDup (pool_names pool_dead)).
  { assert (pool_names pool_dead = [lit "tok"]) as ->
      by (vm_compute; reflexivity).
    apply NoDup_singleton. }
  split; [assumption|]. split; [apply pool_dead_wf|]. split; [assumption|].
  destruct (reload_preserves_health 9 source1 pool_dead)
    as [_ [_ [_ [Hsame [Hentries _]]]]].
  destruct (Hsame Hset) as [_ [Hhealth _]].
  split; [apply Hhealth | apply (Hentries pool_dead_wf Hnd Hset)].
Defined.

Lemma mark_absent_token_noop_witness :
  (∀ a ti, a ∈ tokens pool1 → heap pool1 !! a = Some ti →
           token ti ≠ lit "guest") ∧
  mark_token_failed 1 (lit "guest") pool1 = pool1.
Proof.
  assert (Habs : ∀ a ti, a ∈ tokens pool1 → heap pool1 !! a = Some ti →
                         token ti ≠ lit "guest").
  { intros a ti Ha Hti. rewrite pool1_eq in Ha, Hti. simpl in *.
    apply list_elem_of_singleton in Ha. subst a.
    injection Hti as <-. discriminate. }
  split; [assumption|].
  apply (mark_absent_token_noop 1 (lit "guest") pool1 Habs).
Defined.

Lemma tools_gate_witness :
  ∃ body token r',
    transform_request_in (settings_with 1) (world_of (fun _ => ConnectFail []))
      thinking_request (lit "chat-1") (mkRun pool1 0 [] 0 [] [])
      = (Some (body, token), r') ∧
    tools body = JNull.
Proof.
  destruct (transform_request_in (settings_with 1)
              (world_of (fun _ => ConnectFail [])) thinking_request
              (lit "chat-1") (mkRun pool1 0 [] 0 [] []))
    as [[[body token]|] r'] eqn:E; [|vm_compute in E; discriminate E].
  exists body, token, r'. split; [reflexivity|].
  apply (tools_gate _ _ _ _ _ _ _ _ E). vm_compute. reflexivity.
Defined.

End Instances.

(** ** The credential pool: reports, rotation, statistics, loading *)

Module PoolExtras.
Import TokenPool PoolMore TokenPoolFacts Examples MoreExamples.

Lemma find_in_same_tokens h h' name refs :
  same_tokens h h' → find_in h' name refs = find_in h name refs.
Proof.
  intros Hs. induction refs as [|a r IH]; [reflexivity|]. simpl.
  pose proof (Hs a) as Ha.
  destruct (h' !! a) as [ti'|], (h !! a) as [ti|]; simpl in Ha;
    try discriminate.
  - injection Ha as Ha. rewrite Ha, IH. reflexivity.
  - apply IH.
Qed.

(** The health records after the object found for [name] went through [f],
    a change that keeps the token string. *)
Lemma health_update_at tm f a name :
  (∀ ti, token (f ti) = token ti) →
  find_in (heap tm) name (tokens tm) = Some a →
  health (with_heap tm (update_at f a (heap tm))) name = f <$> health tm name ∧
  (∀ other, other ≠ name →
     health (with_heap tm (update_at f a (heap tm))) other = health tm other) ∧
  (∀ b, b ≠ a → update_at f a (heap tm) !! b = heap tm !! b).
Proof.
  intros Hf Hfind.
  assert (Hs : same_tokens (heap tm) (update_at f a (heap tm)))
    by (apply update_at_same_tokens; assumption).
  split; [|split].
  - unfold health. simpl. rewrite (find_in_same_tokens _ _ _ _ Hs), Hfind.
    simpl. rewrite update_at_lookup. destruct (decide (a = a)); congruence.
  - intros other Hne. unfold health. simpl.
    rewrite (find_in_same_tokens _ _ _ _ Hs).
    destruct (find_in (heap tm) other (tokens tm)) as [b|] eqn:Eb;
      [|reflexivity].
    simpl. rewrite update_at_lookup.
    destruct (decide (a = b)) as [->|]; [|reflexivity].
    exfalso. apply find_in_Some in Hfind, Eb.
    destruct Hfind as [_ [t1 [H1 H1']]], Eb as [_ [t2 [H2 H2']]]. congruence.
  - intros b Hb. rewrite update_at_lookup.
    destruct (decide (a = b)); congruence.
Qed.

Lemma health_find tm name ti :
  health tm name = Some ti →
  ∃ a, find_in (heap tm) name (tokens tm) = Some a ∧ heap tm !! a = Some ti.
Proof.
  unfold health. destruct (find_in (heap tm) name (tokens tm)) as [a|];
    [|discriminate].
  simpl. intros H. exists a. split; [reflexivity | assumption].
Qed.

Lemma token_fail_one maxf now ti : token (fail_one maxf now ti) = token ti.
Proof. reflexivity. Qed.

Lemma token_succeed_one ti : token (succeed_one ti) = token ti.
Proof. reflexivity. Qed.

(** X1. A failure report for a credential of the pool adds one to its
    failure count, stamps the failure time and deactivates it exactly when
    the count reaches the threshold; the record of every other credential,
    every other object, the entry list and the cursor stay as they were. *)
Theorem mark_token_failed_effect (now : Z) (name : pystr) (tm : TokenManager)
    (ti : TokenInfo) :
  health tm name = Some ti →
  let tm' := mark_token_failed now name tm in
  health tm' name =
    Some (mkTokenInfo (token ti) (failure_count ti + 1)
            (if max_failures tm <=? failure_count ti + 1
             then false else is_active ti)
            (Some now) (last_used_time ti)) ∧
  (∀ other, other ≠ name → health tm' other = health tm other) ∧
  (∀ b, find_in (heap tm) name (tokens tm) ≠ Some b →
        heap tm' !! b = heap tm !! b) ∧
  tokens tm' = tokens tm ∧ current_index tm' = current_index tm ∧
  last_reload_time tm' = last_reload_time tm ∧
  max_failures tm' = max_failures tm.
Proof.
  intros Hh tm'. destruct (health_find _ _ _ Hh) as [a [Ha Hti]].
  subst tm'. unfold mark_token_failed. rewrite Ha.
  destruct (health_update_at tm (fail_one (max_failures tm) now) a name
              (token_fail_one _ _) Ha) as [H1 [H2 H3]].
  split; [rewrite H1, Hh; reflexivity|].
  split; [exact H2|].
  split; [intros b Hb; apply H3; congruence|].
  repeat split.
Qed.

Lemma mark_token_failed_effect_witness :
  health pool1 (lit "tok") = Some (new_TokenInfo (lit "tok")) ∧
  health (mark_token_failed 7 (lit "tok") pool1) (lit "tok")
    = Some (mkTokenInfo (lit "tok") 1 true (Some 7) None).
Proof.
  split; [vm_compute; reflexivity|].
  apply (mark_token_failed_effect 7 (lit "tok") pool1
           (new_TokenInfo (lit "tok"))).
  vm_compute. reflexivity.
Defined.

Lemma fail_times_health nows : ∀ name tm ti,
  health tm name = Some ti →
  ∃ ti', health (fail_times nows name tm) name = Some ti' ∧
    token ti' = token ti ∧
    failure_count ti' = failure_count ti + Z.of_nat (length nows) ∧
    (failure_count ti + Z.of_nat (length nows) < max_failures tm →
       is_active ti' = is_active ti) ∧
    (nows ≠ [] → max_failures tm ≤ failure_count ti + Z.of_nat (length nows) →
       is_active ti' = false) ∧
    last_failure_time ti' = default (last_failure_time ti) (Some <$> list.last nows) ∧
    last_used_time ti' = last_used_time ti ∧
    max_failures (fail_times nows name tm) = max_failures tm ∧
    tokens (fail_times nows name tm) = tokens tm ∧
    current_index (fail_times nows name tm) = current_index tm.
Proof.
  induction nows as [|now rest IH]; intros name tm ti Hh.
  - exists ti. simpl. rewrite Z.add_0_r.
    repeat split; try assumption; try reflexivity. intros H; congruence.
  - destruct (health_find _ _ _ Hh) as [a [Ha Hti]].
    assert (H1 : health (mark_token_failed now name tm) name
                 = Some (fail_one (max_failures tm) now ti)).
    { unfold mark_token_failed. rewrite Ha.
      destruct (health_update_at tm (fail_one (max_failures tm) now) a name
                  (token_fail_one _ _) Ha) as [H1 _].
      rewrite H1, Hh. reflexivity. }
    assert (Hm : max_failures (mark_token_failed now name tm)
                 = max_failures tm).
    { unfold mark_token_failed. rewrite Ha. reflexivity. }
    assert (Ht : tokens (mark_token_failed now name tm) = tokens tm).
    { unfold mark_token_failed. rewrite Ha. reflexivity. }
    assert (Hc : current_index (mark_token_failed now name tm)
                 = current_index tm).
    { unfold mark_token_failed. rewrite Ha. reflexivity. }
    destruct (IH name _ _ H1)
      as [ti' [E [Ktok [Kcnt [Klow [Khigh [Klf [Klu [Kmax [Kt Kc]]]]]]]]]].
    exists ti'. change (fail_times (now :: rest) name tm)
      with (fail_times rest name (mark_token_failed now name tm)).
    rewrite Hm in *. cbn [fail_one failure_count is_active token
                          last_failure_time last_used_time] in *.
    cbn [length]. rewrite Nat2Z.inj_succ.
    split; [exact E|]. split; [exact Ktok|]. split; [lia|].
    split.
    { intros Hlt. rewrite Klow by lia.
      destruct (Z.leb_spec (max_failures tm) (failure_count ti + 1));
        [lia | reflexivity]. }
    split.
    { intros _ Hge. destruct rest as [|n2 rest'].
      - change (fail_times [] name (mark_token_failed now name tm))
          with (mark_token_failed now name tm) in E.
        rewrite H1 in E. injection E as <-. simpl in Hge |- *.
        destruct (Z.leb_spec (max_failures tm) (failure_count ti + 1));
          [reflexivity | lia].
      - apply Khigh; [discriminate | lia]. }
    split.
    { rewrite Klf. destruct rest as [|n2 rest']; [reflexivity|].
      change (list.last (now :: n2 :: rest')) with (list.last (n2 :: rest')).
      destruct (list.last (n2 :: rest')) eqn:El; [reflexivity|].
      exfalso. apply last_None in El. discriminate. }
    split; [exact Klu|]. split; [exact Kmax|].
    split; [rewrite Kt; exact Ht | rewrite Kc; exact Hc].
Qed.

(** X2. Consecutive failure reports for a credential add up: after [k]
    reports the count has grown by [k]; the credential keeps its state while
    the count is below the threshold and is inactive as soon as a report
    brings the count to the threshold or beyond.  The time of the last
    report is kept, the time of last use is not touched. *)
Theorem repeated_failures_deactivate (nows : list Z) (name : pystr)
    (tm : TokenManager) (ti : TokenInfo) :
  health tm name = Some ti →
  ∃ ti', health (fail_times nows name tm) name = Some ti' ∧
    failure_count ti' = failure_count ti + Z.of_nat (length nows) ∧
    (failure_count ti + Z.of_nat (length nows) < max_failures tm →
       is_active ti' = is_active ti) ∧
    (nows ≠ [] →
     max_failures tm ≤ failure_count ti + Z.of_nat (length nows) →
       is_active ti' = false) ∧
    last_failure_time ti' =
      default (last_failure_time ti) (Some <$> list.last nows) ∧
    last_used_time ti' = last_used_time ti.
Proof.
  intros Hh.
  destruct (fail_times_health nows name tm ti Hh)
    as [ti' [E [_ [Kcnt [Klow [Khigh [Klf [Klu _]]]]]]]].
  exists ti'. repeat split; assumption.
Qed.

Lemma repeated_failures_deactivate_witness :
  health pool1 (lit "tok") = Some (new_TokenInfo (lit "tok")) ∧
  ∃ ti', health (fail_times [1; 2; 3] (lit "tok") pool1) (lit "tok")
           = Some ti' ∧ is_active ti' = false.
Proof.
  assert (Hh : health pool1 (lit "tok") = Some (new_TokenInfo (lit "tok")))
    by (vm_compute; reflexivity).
  split; [exact Hh|].
  destruct (repeated_failures_deactivate [1; 2; 3] (lit "tok") pool1 _ Hh)
    as [ti' [E [_ [_ [Khigh _]]]]].
  exists ti'. split; [exact E|].
  apply Khigh; [discriminate | vm_compute; discriminate].
Defined.

(** X3. A success report for a credential of the pool clears its failure
    count and reactivates it, whatever number of failures was reported
    before; both timestamps are kept, every other credential and object is
    untouched, and a second report changes nothing. *)
Theorem mark_token_success_effect (name : pystr) (tm : TokenManager)
    (ti : TokenInfo) :
  health tm name = Some ti →
  let tm' := mark_token_success name tm in
  health tm' name =
    Some (mkTokenInfo (token ti) 0 true (last_failure_time ti)
            (last_used_time ti)) ∧
  (∀ other, other ≠ name → health tm' other = health tm other) ∧
  (∀ b, find_in (heap tm) name (tokens tm) ≠ Some b →
        heap tm' !! b = heap tm !! b) ∧
  tokens tm' = tokens tm ∧ current_index tm' = current_index tm ∧
  mark_token_success name tm' = tm' ∧
  (∀ nows, ∃ ti',
     health (mark_token_success name (fail_times nows name tm)) name
       = Some ti' ∧
     failure_count ti' = 0 ∧ is_active ti' = true ∧
     last_failure_time ti' =
       default (last_failure_time ti) (Some <$> list.last nows)).
Proof.
  intros Hh tm'. destruct (health_find _ _ _ Hh) as [a [Ha Hti]].
  assert (Hstep : ∀ p t, health p name = Some t →
            health (mark_token_success name p) name = Some (succeed_one t)).
  { intros p t Hp. destruct (health_find _ _ _ Hp) as [b [Hb _]].
    unfold mark_token_success. rewrite Hb.
    destruct (health_update_at p succeed_one b name token_succeed_one Hb)
      as [H1 _].
    rewrite H1, Hp. reflexivity. }
  subst tm'. split; [apply Hstep; exact Hh|].
  destruct (health_update_at tm succeed_one a name token_succeed_one Ha)
    as [_ [H2 H3]].
  unfold mark_token_success at 1 2 3 4. rewrite Ha.
  split; [exact H2|].
  split; [intros b Hb; apply H3; congruence|].
  split; [reflexivity|]. split; [reflexivity|].
  split.
  - unfold mark_token_success. rewrite Ha. cbn [heap tokens with_heap].
    assert (Hs : same_tokens (heap tm) (update_at succeed_one a (heap tm)))
      by (apply update_at_same_tokens; reflexivity).
    rewrite (find_in_same_tokens _ _ _ _ Hs), Ha.
    unfold with_heap. cbn. f_equal.
    unfold update_at at 1. rewrite update_at_lookup.
    destruct (decide (a = a)); [|congruence]. rewrite Hti. cbn.
    unfold update_at. rewrite Hti. rewrite list_insert_insert_eq.
    reflexivity.
  - intros nows.
    destruct (fail_times_health nows name tm ti Hh)
      as [t1 [E [_ [_ [_ [_ [Klf _]]]]]]].
    exists (succeed_one t1). split; [apply Hstep; exact E|].
    cbn. repeat split. exact Klf.
Qed.

Lemma mark_token_success_effect_witness :
  health pool_dead (lit "tok")
    = Some (mkTokenInfo (lit "tok") 3 false (Some 3) None) ∧
  health (mark_token_success (lit "tok") pool_dead) (lit "tok")
    = Some (mkTokenInfo (lit "tok") 0 true (Some 3) None).
Proof.
  split; [vm_compute; reflexivity|].
  apply (mark_token_success_effect (lit "tok") pool_dead
           (mkTokenInfo (lit "tok") 3 false (Some 3) None)).
  vm_compute. reflexivity.
Defined.

(** *** Rotation *)

Lemma active_indices_complete h refs : ∀ k i a ti,
  refs !! i = Some a → h !! a = Some ti → is_active ti = true →
  (k + i)%nat ∈ active_indices h k refs.
Proof.
  induction refs as [|a0 r IH]; intros k i a ti Hl Hh Ha; [discriminate|].
  destruct i as [|i'].
  - injection Hl as ->. simpl. rewrite Hh, Ha, Nat.add_0_r. left.
  - simpl in Hl. replace (k + S i')%nat with (S k + i')%nat by lia.
    pose proof (IH (S k) i' a ti Hl Hh Ha) as Hin. simpl.
    destruct (h !! a0) as [t0|]; [|exact Hin].
    destruct (is_active t0); [right|]; exact Hin.
Qed.

Lemma active_at_elem tm idx :
  active_at tm idx = true ↔ idx ∈ active_indices (heap tm) 0 (tokens tm).
Proof.
  unfold active_at. split.
  - destruct (tokens tm !! idx) as [a|] eqn:El; [|discriminate].
    destruct (heap tm !! a) as [ti|] eqn:Eh; [|discriminate].
    intros Ha. apply (active_indices_complete _ _ 0%nat idx a ti El Eh Ha).
  - intros Hin.
    destruct (active_indices_elem _ _ _ _ Hin) as [a [ti [_ [Hl [Hh Ha]]]]].
    rewrite Nat.sub_0_r in Hl. rewrite Hl, Hh. exact Ha.
Qed.

Lemma find_map_seq_first (p : nat → bool) (f : nat → nat) n x : ∀ s,
  List.find p (List.map f (seq s n)) = Some x →
  ∃ j, (s ≤ j < s + n)%nat ∧ x = f j ∧ p x = true ∧
       ∀ j', (s ≤ j' < j)%nat → p (f j') = false.
Proof.
  induction n as [|n IH]; intros s; [discriminate|]. simpl.
  destruct (p (f s)) eqn:E.
  - intros [= <-]. exists s. repeat split; try lia. exact E.
  - intros Hf. destruct (IH (S s) Hf) as [j [Hj [-> [Hp Hfirst]]]].
    exists j. repeat split; try lia; [exact Hp|].
    intros j' Hj'. destruct (decide (j' = s)) as [->|]; [exact E|].
    apply Hfirst. lia.
Qed.

(** What the selection does when some entry is active: no amnesty, the first
    active entry from the cursor on is taken. *)
Lemma select_first_active now tm idx0 :
  active_at tm idx0 = true →
  ∃ j a ti, (j < length (tokens tm))%nat ∧
    (∀ j', (j' < j)%nat →
       active_at tm ((current_index tm + j') mod length (tokens tm)) = false) ∧
    tokens tm !! ((current_index tm + j) mod length (tokens tm))%nat = Some a ∧
    heap tm !! a = Some ti ∧ is_active ti = true ∧
    select now tm =
      (Some (token ti),
       mkTokenManager (max_failures tm) (reload_interval tm)
         (<[a := stamp_used now ti]> (heap tm)) (tokens tm)
         ((((current_index tm + j) mod length (tokens tm)) + 1)
            mod length (tokens tm))%nat
         (last_reload_time tm)).
Proof.
  intros Hact. pose proof Hact as Hin. apply active_at_elem in Hin.
  assert (Hlt0 : (idx0 < length (tokens tm))%nat).
  { unfold active_at in Hact.
    destruct (tokens tm !! idx0) eqn:El; [|discriminate].
    eapply lookup_lt_Some; eassumption. }
  destruct (scan_is_Some (length (tokens tm)) (current_index tm) _ _ Hin Hlt0)
    as [idx Hscan].
  pose proof Hscan as Hfirst. unfold scan in Hfirst.
  apply find_map_seq_first in Hfirst as [j [Hj [-> [Hp Hbefore]]]].
  apply bool_decide_eq_true in Hp. pose proof Hp as Hidx.
  apply active_at_elem in Hp. unfold active_at in Hp.
  destruct (tokens tm !! _) as [a|] eqn:El; [|discriminate].
  destruct (heap tm !! a) as [ti|] eqn:Eh; [|discriminate].
  exists j, a, ti. split; [lia|]. split.
  { intros j' Hj'. specialize (Hbefore j' ltac:(lia)).
    apply bool_decide_eq_false in Hbefore.
    apply not_true_is_false. intros E. apply Hbefore, active_at_elem, E. }
  split; [exact El|]. split; [exact Eh|]. split; [exact Hp|].
  unfold select. destruct (tokens tm) as [|r0 rs] eqn:Et; [simpl in Hlt0; lia|].
  rewrite <- Et in *.
  destruct (active_indices (heap tm) 0 (tokens tm)) as [|i0 act] eqn:Ea.
  { apply elem_of_nil in Hin. contradiction. }
  rewrite <- Ea in Hscan |- *.
  assert (Hlen : length (active_indices (heap tm) 0 (tokens tm))
                 = S (length act)) by (rewrite Ea; reflexivity).
  rewrite Hlen, (select_loop_first _ _ _ _ _ Hscan), El, Eh. reflexivity.
Qed.

Lemma no_reload_get_next_token now src tm :
  _should_reload now tm = false → get_next_token now src tm = select now tm.
Proof.
  intros H. unfold get_next_token, reload_if_due. rewrite H. reflexivity.
Qed.

(** X4. While an active credential exists, [get_next_token] hands out the
    first active entry at or after the cursor (in cyclic order), never an
    inactive one; it moves the cursor just behind that entry and changes
    nothing but the time of last use of the chosen credential. *)
Theorem next_token_is_first_active (now : Z) (src : Source)
    (tm : TokenManager) (idx0 : nat) :
  _should_reload now tm = false →
  active_at tm idx0 = true →
  let n := length (tokens tm) in
  let r := get_next_token now src tm in
  ∃ j, (j < n)%nat ∧
    let idx := ((current_index tm + j) mod n)%nat in
    active_at tm idx = true ∧
    (∀ j', (j' < j)%nat →
       active_at tm ((current_index tm + j') mod n) = false) ∧
    is_Some (fst r) ∧ fst r = name_of tm idx ∧
    current_index (snd r) = ((idx + 1) mod n)%nat ∧
    tokens (snd r) = tokens tm ∧
    (∀ a ti, heap tm !! a = Some ti →
       ∃ ti', heap (snd r) !! a = Some ti' ∧ token ti' = token ti ∧
         failure_count ti' = failure_count ti ∧
         is_active ti' = is_active ti ∧
         last_failure_time ti' = last_failure_time ti ∧
         (tokens tm !! idx ≠ Some a → last_used_time ti' = last_used_time ti) ∧
         (tokens tm !! idx = Some a → last_used_time ti' = Some now)).
Proof.
  intros Hnr Hact n r. subst n r.
  rewrite (no_reload_get_next_token _ _ _ Hnr).
  destruct (select_first_active now tm idx0 Hact)
    as [j [a [ti [Hj [Hbefore [El [Eh [Ha Hsel]]]]]]]].
  exists j. split; [exact Hj|]. cbn zeta. rewrite Hsel. cbn [fst snd].
  split; [unfold active_at; rewrite El, Eh; exact Ha|].
  split; [exact Hbefore|]. split; [eauto|].
  split; [unfold name_of; rewrite El; simpl; rewrite Eh; reflexivity|].
  split; [reflexivity|]. split; [reflexivity|].
  intros b tb Hb. cbn [heap]. destruct (decide (a = b)) as [->|Hne].
  - exists (stamp_used now ti). rewrite list_lookup_insert_eq
      by (eapply lookup_lt_Some; eassumption).
    assert (tb = ti) as -> by congruence.
    repeat split; try reflexivity. intros H. congruence.
  - exists tb. rewrite list_lookup_insert_ne by assumption.
    repeat split; try assumption; try reflexivity.
    intros H. congruence.
Qed.

Lemma next_token_is_first_active_witness :
  _should_reload 5 pool3_a_dead = false ∧
  active_at pool3_a_dead 1 = true ∧
  is_Some (fst (get_next_token 5 no_source pool3_a_dead)).
Proof.
  split; [vm_compute; reflexivity|]. split; [vm_compute; reflexivity|].
  destruct (next_token_is_first_active 5 no_source pool3_a_dead 1)
    as [j [_ [_ [_ [H _]]]]]; [vm_compute; reflexivity ..|].
  exact H.
Defined.

Lemma stamp_same_view tm a ti now ci lr idx :
  heap tm !! a = Some ti →
  let tm1 := mkTokenManager (max_failures tm) (reload_interval tm)
               (<[a := stamp_used now ti]> (heap tm)) (tokens tm) ci lr in
  active_at tm1 idx = active_at tm idx ∧ name_of tm1 idx = name_of tm idx.
Proof.
  intros Hh tm1. subst tm1. unfold active_at, name_of. cbn [tokens heap].
  destruct (tokens tm !! idx) as [b|]; [|split; reflexivity]. simpl.
  destruct (decide (a = b)) as [->|Hne].
  - rewrite list_lookup_insert_eq by (eapply lookup_lt_Some; eassumption).
    rewrite Hh. split; reflexivity.
  - rewrite list_lookup_insert_ne by assumption. split; reflexivity.
Qed.

Lemma active_at_name tm idx :
  active_at tm idx = true → is_Some (name_of tm idx).
Proof.
  unfold active_at, name_of.
  destruct (tokens tm !! idx) as [a|]; [|discriminate]. simpl.
  destruct (heap tm !! a); [eauto | discriminate].
Qed.

Lemma draw_all_active now src : ∀ k tm,
  _should_reload now tm = false →
  tokens tm ≠ [] →
  (∀ idx, (idx < length (tokens tm))%nat → active_at tm idx = true) →
  fst (draw k now src tm) =
    List.map (fun i => name_of tm
                         ((current_index tm + i) mod length (tokens tm))%nat)
      (seq 0 k) ∧
  tokens (snd (draw k now src tm)) = tokens tm ∧
  current_index (snd (draw k now src tm))
    = match k with
      | O => current_index tm
      | _ => ((current_index tm + k) mod length (tokens tm))%nat
      end.
Proof.
  induction k as [|k IH]; intros tm Hnr Hne Hall.
  { simpl. split; [reflexivity|]. split; reflexivity. }
  assert (Hn : (0 < length (tokens tm))%nat)
    by (destruct (tokens tm); [contradiction | simpl; lia]).
  assert (Hc : (current_index tm mod length (tokens tm)
                < length (tokens tm))%nat)
    by (apply Nat.mod_upper_bound; lia).
  destruct (select_first_active now tm _ (Hall _ Hc))
    as [j [a [ti [Hj [Hbefore [El [Eh [Ha Hsel]]]]]]]].
  assert (j = 0%nat) as ->.
  { destruct j as [|j']; [reflexivity|]. exfalso.
    specialize (Hbefore 0%nat ltac:(lia)). rewrite Nat.add_0_r in Hbefore.
    rewrite (Hall _ Hc) in Hbefore. discriminate. }
  rewrite Nat.add_0_r in El, Hsel.
  cbn [draw]. rewrite (no_reload_get_next_token _ _ _ Hnr), Hsel.
  set (tm1 := mkTokenManager _ _ _ _ _ _).
  assert (Hview : ∀ idx, active_at tm1 idx = active_at tm idx ∧
                         name_of tm1 idx = name_of tm idx)
    by (intros idx; apply stamp_same_view; exact Eh).
  destruct (IH tm1) as [Hnames [Htok Hcur]].
  { exact Hnr. }
  { exact Hne. }
  { intros idx Hidx. rewrite (proj1 (Hview idx)). apply Hall. exact Hidx. }
  destruct (draw k now src tm1) as [ts tm2]. cbn [fst snd] in *.
  split; [|split].
  - cbn [seq List.map]. f_equal.
    + rewrite Nat.add_0_r. unfold name_of. rewrite El. simpl.
      rewrite Eh. reflexivity.
    + rewrite Hnames, <- seq_shift, List.map_map.
      apply List.map_ext. intros i. rewrite (proj2 (Hview _)).
      f_equal. subst tm1. cbn [current_index tokens].
      rewrite Nat.Div0.add_mod_idemp_l.
      rewrite <- Nat.add_assoc, Nat.Div0.add_mod_idemp_l. f_equal; lia.
  - exact Htok.
  - rewrite Hcur. subst tm1. cbn [current_index tokens].
    destruct k as [|k'].
    + rewrite Nat.Div0.add_mod_idemp_l. reflexivity.
    + rewrite Nat.Div0.add_mod_idemp_l.
      rewrite <- Nat.add_assoc, Nat.Div0.add_mod_idemp_l. f_equal; lia.
Qed.

(** X5. Round robin: with every credential active and no reload due,
    consecutive calls of [get_next_token] hand out the entries in list order,
    starting at the cursor and wrapping at the end of the list; each call
    returns a token and the entry list is never changed. *)
Theorem round_robin (k : nat) (now : Z) (src : Source) (tm : TokenManager) :
  _should_reload now tm = false →
  tokens tm ≠ [] →
  (∀ idx, (idx < length (tokens tm))%nat → active_at tm idx = true) →
  let n := length (tokens tm) in
  fst (draw k now src tm) =
    List.map (fun i => name_of tm ((current_index tm + i) mod n)%nat)
      (seq 0 k) ∧
  Forall is_Some (fst (draw k now src tm)) ∧
  tokens (snd (draw k now src tm)) = tokens tm ∧
  (k ≠ 0%nat →
   current_index (snd (draw k now src tm))
     = ((current_index tm + k) mod n)%nat).
Proof.
  intros Hnr Hne Hall n. subst n.
  destruct (draw_all_active now src k tm Hnr Hne Hall) as [Hnames [Htok Hcur]].
  split; [exact Hnames|].
  split; [|split; [exact Htok | intros Hk; rewrite Hcur;
                                destruct k; [congruence | reflexivity]]].
  rewrite Hnames. apply List.Forall_forall. intros x Hx.
  apply in_map_iff in Hx as [i [<- _]].
  apply active_at_name, Hall, Nat.mod_upper_bound.
  destruct (tokens tm); [contradiction | discriminate].
Qed.

Lemma pool3_eq :
  pool3 = mkTokenManager 3 60
            [new_TokenInfo (lit "a"); new_TokenInfo (lit "b");
             new_TokenInfo (lit "c")] [0; 1; 2]%nat 0 0.
Proof. vm_compute. reflexivity. Qed.

Lemma pool3_all_active idx :
  (idx < length (tokens pool3))%nat → active_at pool3 idx = true.
Proof.
  rewrite pool3_eq. simpl. intros H.
  destruct idx as [|[|[|i]]]; [reflexivity .. | lia].
Qed.

Lemma round_robin_witness :
  _should_reload 5 pool3 = false ∧ tokens pool3 ≠ [] ∧
  fst (draw 4 5 no_source pool3)
    = [Some (lit "a"); Some (lit "b"); Some (lit "c"); Some (lit "a")].
Proof.
  split; [vm_compute; reflexivity|].
  split; [rewrite pool3_eq; discriminate|].
  destruct (round_robin 4 5 no_source pool3) as [H _];
    [vm_compute; reflexivity | rewrite pool3_eq; discriminate
     | apply pool3_all_active |].
  rewrite H. vm_compute. reflexivity.
Defined.

(** *** Statistics and reset *)

Lemma names_same_tokens h h' (refs : list nat) :
  same_tokens h h' →
  omap (fun a => token <$> h' !! a) refs
    = omap (fun a => token <$> h !! a) refs.
Proof.
  intros Hs. induction refs as [|a r IH]; [reflexivity|].
  cbn [omap list_omap]. rewrite (Hs a).
  destruct (token <$> h !! a); [f_equal|]; exact IH.
Qed.

Lemma active_count_le h refs : (active_count h refs ≤ length refs)%nat.
Proof.
  induction refs as [|a r IH]; simpl; [lia|].
  destruct (h !! a) as [ti|]; [destruct (is_active ti)|]; lia.
Qed.

Lemma token_details_spec h refs : ∀ k,
  (∀ a, a ∈ refs → (a < length h)%nat) →
  length (token_details h k refs) = length refs ∧
  active_count h refs
    = length (List.filter d_is_active (token_details h k refs)) ∧
  ∀ i d, token_details h k refs !! i = Some d →
    ∃ a ti, refs !! i = Some a ∧ h !! a = Some ti ∧
      d = mkTokenDetail (k + i) (firstn 20 (token ti) ++ lit "...")
            (is_active ti) (failure_count ti) (last_failure_time ti)
            (last_used_time ti).
Proof.
  induction refs as [|a r IH]; intros k Hb.
  { simpl. repeat split. intros i d H. discriminate. }
  assert (Ha : (a < length h)%nat) by (apply Hb; left).
  apply lookup_lt_is_Some_2 in Ha as [ti Hti].
  destruct (IH (S k)) as [Hlen [Hcnt Hlk]].
  { intros b Hin. apply Hb. right. exact Hin. }
  simpl. rewrite Hti. simpl. split; [rewrite Hlen; reflexivity|]. split.
  - destruct (is_active ti); simpl; rewrite Hcnt; reflexivity.
  - intros [|i] d Hd.
    + injection Hd as <-. exists a, ti. rewrite Nat.add_0_r. auto.
    + simpl in Hd. destruct (Hlk i d Hd) as [b [tb [H1 [H2 H3]]]].
      exists b, tb. replace (k + S i)%nat with (S k + i)%nat by lia. auto.
Qed.

(** The details of [get_token_stats] on a well-formed pool. *)
Lemma get_token_stats_spec (tm : TokenManager) :
  wf tm →
  let s := get_token_stats tm in
  s_total s = length (tokens tm) ∧
  length (s_tokens s) = s_total s ∧
  s_active s = length (List.filter d_is_active (s_tokens s)) ∧
  (∀ i d, s_tokens s !! i = Some d →
     d_index d = i ∧
     ∃ a ti, tokens tm !! i = Some a ∧ heap tm !! a = Some ti ∧
       d_token_preview d = firstn 20 (token ti) ++ lit "..." ∧
       d_is_active d = is_active ti ∧
       d_failure_count d = failure_count ti ∧
       d_last_failure_time d = last_failure_time ti ∧
       d_last_used_time d = last_used_time ti).
Proof.
  intros Hwf s. subst s. unfold get_token_stats.
  destruct (tokens tm) as [|r0 rs] eqn:Et.
  { simpl. repeat split; try reflexivity; intros; discriminate. }
  rewrite <- Et.
  destruct (token_details_spec (heap tm) (tokens tm) 0%nat Hwf)
    as [Hlen [Hcnt Hlk]].
  cbn [s_total s_active s_failed s_tokens s_current_index].
  split; [reflexivity|]. split; [exact Hlen|]. split; [exact Hcnt|].
  intros i d Hd. destruct (Hlk i d Hd) as [a [ti [H1 [H2 ->]]]].
  cbn [d_index d_token_preview d_is_active d_failure_count
       d_last_failure_time d_last_used_time].
  split; [reflexivity|]. exists a, ti. auto 10.
Qed.

(** X6. The statistics are consistent with the pool: [total] is the number
    of entries, [active + failed = total], [active] counts the entries
    reported as active, and the i-th detail reports index [i] and the state
    of the i-th entry, with a preview of at most 23 characters of the
    token. *)
Theorem stats_consistent (tm : TokenManager) :
  wf tm →
  let s := get_token_stats tm in
  s_total s = length (tokens tm) ∧
  (s_active s + s_failed s = s_total s)%nat ∧
  length (s_tokens s) = s_total s ∧
  s_active s = length (List.filter d_is_active (s_tokens s)) ∧
  (∀ i d, s_tokens s !! i = Some d →
     d_index d = i ∧ (length (d_token_preview d) ≤ 23)%nat ∧
     ∃ a ti, tokens tm !! i = Some a ∧ heap tm !! a = Some ti ∧
       d_is_active d = is_active ti ∧
       d_failure_count d = failure_count ti ∧
       d_last_failure_time d = last_failure_time ti ∧
       d_last_used_time d = last_used_time ti) ∧
  (s_current_index s = None ↔ tokens tm = []).
Proof.
  intros Hwf s.
  destruct (get_token_stats_spec tm Hwf) as [Ht [Hlen [Hcnt Hd]]].
  fold s in Ht, Hlen, Hcnt, Hd.
  split; [exact Ht|]. split.
  { subst s. unfold get_token_stats.
    pose proof (active_count_le (heap tm) (tokens tm)) as Hle.
    destruct (tokens tm); [reflexivity|].
    cbn [s_total s_active s_failed]. lia. }
  split; [exact Hlen|]. split; [exact Hcnt|]. split.
  - intros i d Hi.
    destruct (Hd i d Hi) as [Hidx [a [ti [H1 [H2 [Hp [H3 [H4 [H5 H6]]]]]]]]].
    split; [exact Hidx|]. split.
    + rewrite Hp, length_app, length_firstn.
      assert (length (lit "...") = 3%nat) as -> by (vm_compute; reflexivity).
      lia.
    + exists a, ti. auto 10.
  - subst s. unfold get_token_stats.
    destruct (tokens tm); simpl; split; intros; congruence.
Qed.

Lemma stats_consistent_witness :
  wf pool_dead ∧ s_total (get_token_stats pool_dead) = 1%nat ∧
  s_active (get_token_stats pool_dead) = 0%nat ∧
  s_failed (get_token_stats pool_dead) = 1%nat.
Proof.
  split; [apply Instances.pool_dead_wf|].
  destruct (stats_consistent pool_dead Instances.pool_dead_wf)
    as [Ht [Hs _]].
  split; [rewrite Ht; vm_compute; reflexivity|].
  split; vm_compute; reflexivity.
Defined.

(** X7. [reset_all_tokens] makes every entry of the pool active with no
    failure count and no failure time: the statistics then show no failed
    credential.  Token strings, times of last use, the entry list and the
    cursor are kept, and an object that is no longer an entry of the pool is
    not touched. *)
Theorem reset_all_tokens_clears (tm : TokenManager) :
  wf tm →
  let tm' := reset_all_tokens tm in
  let s := get_token_stats tm' in
  s_failed s = 0%nat ∧ s_active s = length (tokens tm) ∧
  Forall (fun d => d_is_active d = true ∧ d_failure_count d = 0 ∧
                   d_last_failure_time d = None) (s_tokens s) ∧
  tokens tm' = tokens tm ∧ current_index tm' = current_index tm ∧
  pool_names tm' = pool_names tm ∧
  (∀ a ti, a ∈ tokens tm → heap tm !! a = Some ti →
     heap tm' !! a =
       Some (mkTokenInfo (token ti) 0 true None (last_used_time ti))) ∧
  (∀ a, a ∉ tokens tm → heap tm' !! a = heap tm !! a).
Proof.
  intros Hwf tm' s.
  assert (Hlk : ∀ a, heap tm' !! a =
            if decide (a ∈ tokens tm) then reset_one <$> heap tm !! a
            else heap tm !! a).
  { intros a. subst tm'. unfold reset_all_tokens. cbn [heap with_heap].
    apply update_all_lookup. apply idem_reset_one. }
  assert (Hwf' : wf tm') by (apply reset_all_tokens_wf; exact Hwf).
  assert (Htok : tokens tm' = tokens tm) by reflexivity.
  destruct (get_token_stats_spec tm' Hwf') as [Ht [Hlen [Hcnt Hd]]].
  fold s in Ht, Hlen, Hcnt, Hd.
  assert (Hsum : (s_active s + s_failed s = s_total s)%nat).
  { subst s. unfold get_token_stats.
    pose proof (active_count_le (heap tm') (tokens tm')) as Hle.
    destruct (tokens tm'); [reflexivity|].
    cbn [s_total s_active s_failed]. lia. }
  assert (Hall : Forall (fun d => d_is_active d = true ∧
                   d_failure_count d = 0 ∧ d_last_failure_time d = None)
                  (s_tokens s)).
  { apply Forall_lookup_2. intros i d Hi.
    destruct (Hd i d Hi) as [_ [a [ti [H1 [H2 [_ [-> [-> [-> _]]]]]]]]].
    rewrite Hlk in H2. rewrite Htok in H1.
    destruct (decide (a ∈ tokens tm)) as [_|Hn].
    - destruct (heap tm !! a) as [t0|]; [|discriminate].
      injection H2 as <-. auto.
    - exfalso. apply Hn. eapply list_elem_of_lookup_2. eassumption. }
  assert (Hact : s_active s = s_total s).
  { rewrite Hcnt, <- Hlen. clear - Hall.
    induction Hall as [|d l [Hd _] _ IH]; [reflexivity|].
    simpl. rewrite Hd. simpl. rewrite IH. reflexivity. }
  split; [lia|]. split; [rewrite Hact, Ht; exact (f_equal _ Htok)|].
  split; [exact Hall|]. split; [reflexivity|]. split; [reflexivity|].
  split; [|split].
  - unfold pool_names. rewrite Htok. apply names_same_tokens.
    subst tm'. unfold reset_all_tokens. cbn [heap with_heap].
    apply update_all_same_tokens. reflexivity.
  - intros a ti Ha Hti. rewrite Hlk, Hti.
    destruct (decide (a ∈ tokens tm)); [reflexivity | contradiction].
  - intros a Ha. rewrite Hlk.
    destruct (decide (a ∈ tokens tm)); [contradiction | reflexivity].
Qed.

Lemma reset_all_tokens_clears_witness :
  wf pool_dead ∧ s_failed (get_token_stats (reset_all_tokens pool_dead)) = 0%nat.
Proof.
  split; [apply Instances.pool_dead_wf|].
  apply (reset_all_tokens_clears pool_dead Instances.pool_dead_wf).
Defined.

(** *** The cursor *)

Lemma cursor_ok_load now src tm : cursor_ok tm → cursor_ok (_load_tokens now src tm).
Proof.
  intros Hc. destruct (_load_tokens_cases now src tm) as [->|[Hne ->]];
    [exact Hc|].
  intros _. cbn [current_index tokens].
  destruct (Nat.leb_spec (length (snd (build_new_tokens src tm)))
              (current_index tm)); [|assumption].
  destruct (snd (build_new_tokens src tm)); [contradiction | simpl; lia].
Qed.

Lemma cursor_ok_select now tm : cursor_ok tm → cursor_ok (snd (select now tm)).
Proof.
  intros Hc. unfold select. destruct (tokens tm) as [|r0 rs] eqn:Et.
  { simpl. exact Hc. }
  rewrite <- Et.
  destruct (match active_indices (heap tm) 0 (tokens tm) with
            | [] => _ | _ => _ end) as [h1 active].
  destruct (select_loop _ _ _ _) as [idx|]; [|exact Hc].
  destruct (tokens tm !! idx) as [a|]; [|exact Hc].
  destruct (h1 !! a) as [ti|]; [|exact Hc].
  intros _. cbn [snd current_index tokens].
  apply Nat.mod_upper_bound. rewrite Et. discriminate.
Qed.

(** X8. The rotation cursor never leaves the pool: whenever the pool has
    entries, [current_index] is a valid position of [self.tokens].  This
    holds after construction and is kept by every operation of the
    manager, including a reload that shortens the list. *)
Theorem cursor_stays_in_range (maxf interval : Z) :
  (∀ now src, cursor_ok (init maxf interval now src)) ∧
  (∀ tm, cursor_ok tm →
     (∀ now name, cursor_ok (mark_token_failed now name tm)) ∧
     (∀ name, cursor_ok (mark_token_success name tm)) ∧
     (∀ now src, cursor_ok (snd (get_next_token now src tm))) ∧
     (∀ now src, cursor_ok (reload_tokens now src tm)) ∧
     cursor_ok (reset_all_tokens tm)).
Proof.
  split.
  - intros now src. apply cursor_ok_load. intros H. contradiction.
  - intros tm Hc. split; [|split; [|split; [|split]]].
    + intros now name. unfold mark_token_failed.
      destruct (find_in _ _ _); exact Hc.
    + intros name. unfold mark_token_success.
      destruct (find_in _ _ _); exact Hc.
    + intros now src. unfold get_next_token, reload_if_due.
      apply cursor_ok_select.
      destruct (_should_reload now tm); [apply cursor_ok_load|]; exact Hc.
    + intros now src. apply cursor_ok_load. exact Hc.
    + exact Hc.
Qed.

Lemma cursor_stays_in_range_witness :
  cursor_ok pool3 ∧ cursor_ok (snd (get_next_token 5 no_source pool3)).
Proof.
  destruct (cursor_stays_in_range 3 60) as [Hinit Hstep].
  assert (H : cursor_ok pool3) by apply Hinit.
  split; [exact H|]. apply (Hstep pool3 H).
Defined.

(** *** Loading *)

Local Ltac names := unfold names_of in *.

Lemma names_snoc h (refs : list nat) a ti :
  h !! a = Some ti → names_of h (refs ++ [a]) = names_of h refs ++ [token ti].
Proof.
  names.
  intros Hh. rewrite omap_app. f_equal. cbn [omap list_omap].
  rewrite Hh. reflexivity.
Qed.

Lemma names_grow h ext (refs : list nat) :
  (∀ a, a ∈ refs → (a < length h)%nat) →
  names_of (h ++ ext) refs = names_of h refs.
Proof.
  names.
  intros Hb. induction refs as [|a r IH]; [reflexivity|].
  cbn [omap list_omap]. rewrite lookup_app_l by (apply Hb; left).
  rewrite IH; [reflexivity|]. intros b Hin. apply Hb. right. exact Hin.
Qed.

Lemma find_in_grow h ext name (refs : list nat) :
  (∀ a, a ∈ refs → (a < length h)%nat) →
  find_in (h ++ ext) name refs = find_in h name refs.
Proof.
  intros Hb. induction refs as [|a r IH]; [reflexivity|].
  simpl. rewrite lookup_app_l by (apply Hb; left).
  rewrite IH; [reflexivity|]. intros b Hin. apply Hb. right. exact Hin.
Qed.

Lemma bound_snoc (n : nat) (refs : list nat) a :
  (∀ b, b ∈ refs → (b < n)%nat) → (a < n)%nat →
  ∀ b, b ∈ refs ++ [a] → (b < n)%nat.
Proof.
  intros Hb Ha b Hin. apply elem_of_app in Hin as [Hin|Hin]; [auto|].
  apply list_elem_of_singleton in Hin. subst b. exact Ha.
Qed.

Lemma bound_grow (n : nat) (refs : list nat) :
  (∀ b, b ∈ refs → (b < n)%nat) → ∀ b, b ∈ refs → (b < S n)%nat.
Proof. intros Hb b Hin. specialize (Hb b Hin). lia. Qed.

Lemma names_length h (refs : list nat) :
  (∀ a, a ∈ refs → (a < length h)%nat) →
  length (names_of h refs) = length refs.
Proof.
  names.
  intros Hb. induction refs as [|a r IH]; [reflexivity|].
  cbn [omap list_omap].
  assert (Ha : (a < length h)%nat) by (apply Hb; left).
  apply lookup_lt_is_Some_2 in Ha as [ti ->]. simpl.
  rewrite IH; [reflexivity|]. intros b Hin. apply Hb. right. exact Hin.
Qed.

Lemma find_in_names h name (refs : list nat) a :
  find_in h name refs = Some a → name ∈ names_of h refs.
Proof.
  names.
  intros Hf. apply find_in_Some in Hf as [Hin [ti [Hh <-]]].
  apply list_elem_of_omap. exists a. rewrite Hh. auto.
Qed.

(** The file loop appends the usable lines of the file, in order. *)
Lemma load_file_names old ls : ∀ h acc,
  (∀ a, a ∈ old → (a < length h)%nat) →
  (∀ a, a ∈ acc → (a < length h)%nat) →
  names_of (fst (load_file old ls h acc)) (snd (load_file old ls h acc))
    = names_of h acc ++ file_tokens ls ∧
  (∀ a, a ∈ old → (a < length (fst (load_file old ls h acc)))%nat) ∧
  (∀ a, a ∈ snd (load_file old ls h acc) →
        (a < length (fst (load_file old ls h acc)))%nat).
Proof.
  induction ls as [|line rest IH]; intros h acc Hold Hacc.
  { simpl. rewrite app_nil_r. auto. }
  cbn [load_file]. unfold file_tokens. cbn [List.map List.filter].
  fold (file_tokens rest).
  destruct (truthy (strip line) && negb (startswith (lit "#") (strip line)))
    eqn:Ec; [|apply IH; assumption].
  destruct (find_in h (strip line) old) as [a|] eqn:Ef.
  - pose proof Ef as Ef'. apply find_in_Some in Ef' as [Hin [ti [Hh Htok]]].
    destruct (IH h (acc ++ [a])) as [H1 [H2 H3]];
      [exact Hold | apply bound_snoc; [exact Hacc | apply Hold, Hin] |].
    rewrite H1, (names_snoc _ _ _ _ Hh), Htok, <- app_assoc.
    split; [reflexivity | split; assumption].
  - destruct (IH (h ++ [new_TokenInfo (strip line)]) (acc ++ [length h]))
      as [H1 [H2 H3]].
    { intros a Ha. rewrite length_app. specialize (Hold a Ha). simpl. lia. }
    { rewrite length_app. simpl. replace (length h + 1)%nat with (S (length h))
        by lia.
      apply bound_snoc; [apply bound_grow; exact Hacc | lia]. }
    rewrite H1.
    rewrite (names_snoc _ _ _ (new_TokenInfo (strip line)))
      by (rewrite lookup_app_r by lia; rewrite Nat.sub_diag; reflexivity).
    rewrite (names_grow _ _ _ Hacc), <- app_assoc.
    split; [reflexivity | split; assumption].
Qed.

(** The backup loop appends backup tokens only, and afterwards every backup
    token is in the list. *)
Lemma load_backup_names old bts : ∀ h acc,
  (∀ a, a ∈ old → (a < length h)%nat) →
  (∀ a, a ∈ acc → (a < length h)%nat) →
  ∃ extra : list pystr,
    names_of (fst (load_backup old bts h acc)) (snd (load_backup old bts h acc))
      = names_of h acc ++ extra ∧
    (∀ t, t ∈ extra → t ∈ bts) ∧
    (∀ t, t ∈ bts → t ∈ names_of h acc ++ extra) ∧
    (∀ a, a ∈ snd (load_backup old bts h acc) →
          (a < length (fst (load_backup old bts h acc)))%nat).
Proof.
  induction bts as [|bt rest IH]; intros h acc Hold Hacc.
  { exists []. simpl. rewrite app_nil_r. repeat split; try assumption.
    - intros t Ht. apply elem_of_nil in Ht. contradiction.
    - intros t Ht. apply elem_of_nil in Ht. contradiction. }
  cbn [load_backup].
  destruct (find_in h bt acc) as [a0|] eqn:Ea.
  { destruct (IH h acc Hold Hacc) as [extra [H1 [H2 [H3 H4]]]].
    exists extra. split; [exact H1|]. split; [|split; [|exact H4]].
    - intros t Ht. right. apply H2, Ht.
    - intros t Ht. apply elem_of_cons in Ht as [->|Ht]; [|apply H3, Ht].
      apply elem_of_app. left. eapply find_in_names. eassumption. }
  destruct (find_in h bt old) as [a|] eqn:Ef.
  - pose proof Ef as Ef'. apply find_in_Some in Ef' as [Hin [ti [Hh Htok]]].
    destruct (IH h (acc ++ [a])) as [extra [H1 [H2 [H3 H4]]]];
      [exact Hold | apply bound_snoc; [exact Hacc | apply Hold, Hin] |].
    rewrite (names_snoc _ _ _ _ Hh), Htok, <- app_assoc in H1, H3.
    exists ([bt] ++ extra). split; [exact H1|]. split; [|split; [|exact H4]].
    + intros t Ht. apply elem_of_app in Ht as [Ht|Ht].
      * apply list_elem_of_singleton in Ht. subst t. left.
      * right. apply H2, Ht.
    + intros t Ht. apply elem_of_cons in Ht as [->|Ht]; [|apply H3, Ht].
      apply elem_of_app. right. left.
  - destruct (IH (h ++ [new_TokenInfo bt]) (acc ++ [length h]))
      as [extra [H1 [H2 [H3 H4]]]].
    { intros a Ha. rewrite length_app. specialize (Hold a Ha). simpl. lia. }
    { rewrite length_app. simpl. replace (length h + 1)%nat with (S (length h))
        by lia.
      apply bound_snoc; [apply bound_grow; exact Hacc | lia]. }
    rewrite (names_snoc _ _ _ (new_TokenInfo bt))
      in H1, H3
      by (rewrite lookup_app_r by lia; rewrite Nat.sub_diag; reflexivity).
    rewrite (names_grow _ _ _ Hacc), <- app_assoc in H1, H3.
    exists ([bt] ++ extra). split; [exact H1|]. split; [|split; [|exact H4]].
    + intros t Ht. apply elem_of_app in Ht as [Ht|Ht].
      * apply list_elem_of_singleton in Ht. subst t. left.
      * right. apply H2, Ht.
    + intros t Ht. apply elem_of_cons in Ht as [->|Ht]; [|apply H3, Ht].
      apply elem_of_app. right. left.
Qed.

(** The list that a load builds: the usable lines of the file in order,
    then backup tokens, covering every token of the source. *)
Lemma build_names src tm :
  wf tm →
  let s := build_new_tokens src tm in
  ∃ extra : list pystr,
    names_of (fst s) (snd s)
      = match token_file src with Lines ls => file_tokens ls | _ => [] end
        ++ extra ∧
    (∀ t, t ∈ extra → t ∈ source_names src) ∧
    (∀ t, t ∈ source_names src → t ∈ names_of (fst s) (snd s)) ∧
    (∀ a, a ∈ snd s → (a < length (fst s))%nat).
Proof.
  intros Hwf s. subst s. unfold build_new_tokens.
  set (s1 := match token_file src with
             | Lines ls => load_file (tokens tm) ls (heap tm) []
             | _ => (heap tm, [])
             end).
  set (file_part := match token_file src with
                    | Lines ls => file_tokens ls | _ => [] end).
  assert (H1 : names_of (fst s1) (snd s1) = file_part ∧
               (∀ a, a ∈ tokens tm → (a < length (fst s1))%nat) ∧
               (∀ a, a ∈ snd s1 → (a < length (fst s1))%nat)).
  { subst s1 file_part.
    assert (Hnil : ∀ a : nat, a ∈ [] → (a < length (heap tm))%nat)
      by (intros a Ha; apply elem_of_nil in Ha; contradiction).
    destruct (token_file src) as [| |ls]; simpl; try (split; [reflexivity|];
      split; assumption).
    destruct (load_file_names (tokens tm) ls (heap tm) [] Hwf Hnil)
      as [Hn [Ho Hb]].
    split; [exact Hn | split; assumption]. }
  clearbody s1. destruct H1 as [Hn1 [Hold1 Hb1]].
  unfold source_names. fold file_part.
  set (s2 := match BACKUP_TOKEN src with
             | Some b => if truthy b
                         then load_backup (tokens tm) (backup_tokens b)
                                (fst s1) (snd s1)
                         else s1
             | None => s1
             end).
  set (backup_part := match BACKUP_TOKEN src with
                      | Some b => if truthy b then backup_tokens b else []
                      | None => []
                      end).
  assert (H2 : ∃ extra : list pystr,
            names_of (fst s2) (snd s2) = file_part ++ extra ∧
            (∀ t, t ∈ extra → t ∈ backup_part) ∧
            (∀ t, t ∈ backup_part → t ∈ file_part ++ extra) ∧
            (∀ a, a ∈ snd s2 → (a < length (fst s2))%nat)).
  { subst s2 backup_part.
    assert (Hsame : ∃ extra : list pystr,
              names_of (fst s1) (snd s1) = file_part ++ extra ∧
              (∀ t, t ∈ extra → t ∈ @nil pystr) ∧
              (∀ t, t ∈ @nil pystr → t ∈ file_part ++ extra) ∧
              (∀ a, a ∈ snd s1 → (a < length (fst s1))%nat)).
    { exists []. rewrite app_nil_r. repeat split; try assumption;
        intros t Ht; apply elem_of_nil in Ht; contradiction. }
    destruct (BACKUP_TOKEN src) as [b|]; [|exact Hsame].
    destruct (truthy b); [|exact Hsame].
    destruct (load_backup_names (tokens tm) (backup_tokens b) (fst s1)
                (snd s1) Hold1 Hb1) as [extra [E1 [E2 [E3 E4]]]].
    rewrite Hn1 in E1, E3. exists extra. auto. }
  clearbody s2. destruct H2 as [extra [Hn2 [Hsub [Hcov Hb2]]]].
  assert (Hres : match snd s2 with
                 | [] => match BACKUP_TOKEN src with
                         | Some b => if truthy b
                                     then fresh_all (backup_tokens b) (fst s2) []
                                     else s2
                         | None => s2
                         end
                 | _ => s2
                 end = s2).
  { destruct (snd s2) as [|r0 rs] eqn:E2; [|reflexivity].
    destruct (BACKUP_TOKEN src) as [b|]; [|reflexivity].
    destruct (truthy b) eqn:Eb; [|reflexivity].
    subst backup_part. simpl in Hn2.
    destruct (backup_tokens b) as [|t0 ts].
    { destruct s2 as [h2 r2]. simpl in E2. subst r2. reflexivity. }
    exfalso.
    specialize (Hcov t0 ltac:(left)). rewrite <- Hn2 in Hcov.
    apply elem_of_nil in Hcov. contradiction. }
  rewrite Hres. exists extra. split; [exact Hn2|].
  split; [|split; [|exact Hb2]].
  - intros t Ht. apply elem_of_app. right. apply Hsub, Ht.
  - intros t Ht. rewrite Hn2. apply elem_of_app in Ht as [Ht|Ht].
    + apply elem_of_app. left. exact Ht.
    + apply Hcov, Ht.
Qed.

(** A source without tokens changes nothing. *)
Lemma load_empty_source now src tm :
  wf tm → source_names src = [] → _load_tokens now src tm = tm.
Proof.
  intros Hwf Hempty.
  destruct (build_names src tm Hwf) as [extra [Hn [Hsub [Hcov Hb]]]].
  cbv zeta in Hn, Hsub, Hcov, Hb. unfold _load_tokens.
  assert (Hs : snd (build_new_tokens src tm) = []).
  { apply length_zero_iff_nil. rewrite <- (names_length _ _ Hb), Hn.
    rewrite Hempty in Hsub. unfold source_names in Hempty.
    apply app_eq_nil in Hempty as [Hf _].
    destruct extra as [|t0 ts].
    - rewrite app_nil_r. destruct (token_file src); try reflexivity.
      rewrite Hf. reflexivity.
    - specialize (Hsub t0 ltac:(left)). apply elem_of_nil in Hsub.
      contradiction. }
  rewrite Hs. destruct (token_file src); reflexivity.
Qed.

(** X9. A load that finds tokens replaces the pool by the tokens of the
    source: the usable lines of the file in file order, followed by backup
    tokens, so that the pool holds exactly the token strings of the source;
    the time of the load is recorded.  A source without any token, and a
    file that cannot be read, leave the pool and the time of the last load
    as they were. *)
Theorem load_takes_source_names (now : Z) (src : Source) (tm : TokenManager) :
  wf tm →
  let tm' := _load_tokens now src tm in
  (token_file src ≠ ReadError → source_names src ≠ [] →
     (∀ t, t ∈ pool_names tm' ↔ t ∈ source_names src) ∧
     (∃ extra, pool_names tm' =
        match token_file src with Lines ls => file_tokens ls | _ => [] end
        ++ extra) ∧
     last_reload_time tm' = now ∧
     max_failures tm' = max_failures tm) ∧
  (source_names src = [] → tm' = tm) ∧
  (token_file src = ReadError → tm' = tm).
Proof.
  intros Hwf tm'. subst tm'.
  destruct (build_names src tm Hwf) as [extra [Hn [Hsub [Hcov Hb]]]].
  cbv zeta in Hn, Hsub, Hcov, Hb.
  split; [|split].
  - intros Hre Hne. unfold _load_tokens.
    destruct (snd (build_new_tokens src tm)) as [|r0 rs] eqn:Es.
    { exfalso. destruct (source_names src) as [|t0 ts]; [congruence|].
      specialize (Hcov t0 ltac:(left)). apply elem_of_nil in Hcov.
      contradiction. }
    assert (Hpn : pool_names
              (mkTokenManager (max_failures tm) (reload_interval tm)
                 (fst (build_new_tokens src tm)) (r0 :: rs)
                 (if (length (r0 :: rs) <=? current_index tm)%nat
                  then 0%nat else current_index tm) now)
              = names_of (fst (build_new_tokens src tm)) (r0 :: rs))
      by reflexivity.
    destruct (token_file src) eqn:Etf; try congruence;
      (rewrite Hpn; split; [|split; [exists extra; exact Hn|split; reflexivity]];
       intros t; split; [|apply Hcov];
       rewrite Hn; intros Ht; apply elem_of_app in Ht as [Ht|Ht];
       [|apply Hsub, Ht]).
    + apply elem_of_nil in Ht. contradiction.
    + unfold source_names. rewrite Etf. apply elem_of_app. left. exact Ht.
  - intros Hempty. apply load_empty_source; assumption.
  - intros Hre. unfold _load_tokens. rewrite Hre. reflexivity.
Qed.

Lemma load_takes_source_names_witness :
  wf pool_dead ∧ token_file source1 ≠ ReadError ∧
  source_names source1 ≠ [] ∧
  last_reload_time (_load_tokens 9 source1 pool_dead) = 9.
Proof.
  split; [apply Instances.pool_dead_wf|].
  split; [discriminate|]. split; [vm_compute; discriminate|].
  destruct (load_takes_source_names 9 source1 pool_dead
              Instances.pool_dead_wf) as [H _].
  destruct H as [_ [_ [H _]]];
    [discriminate | vm_compute; discriminate | exact H].
Defined.

End PoolExtras.

(** ** The streaming endpoint: retries, status codes, role chunk *)

Module GatewayExtras.
Import PyJson TokenPool Gateway GatewayMore TokenPoolFacts GatewayFacts.
Import Examples.

Section Retry.

Context {TH : Type} `{ToolHandler TH}.
Variable json_loads : pystr -> option Json.
Variable settings : Settings.
Variable w : World.
Variable req : Request.

Lemma get_token_calls r : calls (snd (get_token settings w r)) = calls r.
Proof.
  unfold get_token.
  destruct (ANONYMOUS_MODE settings); [destruct (guest w (fetches r)) as [t|];
    [destruct (truthy t); [reflexivity|]|]|];
    cbn [pool tick calls fetches];
    destruct (get_next_token _ _ _) as [[t'|] p];
    try destruct (truthy t'); reflexivity.
Qed.

Lemma on_exception_calls msg cur rc r :
  calls (step_run (on_exception settings w msg cur rc r)) = calls r ∧
  step_next settings rc (on_exception settings w msg cur rc r).
Proof.
  unfold on_exception.
  destruct (Z.ltb_spec (MAX_RETRIES settings) (rc + 1));
    destruct (truthy cur); simpl; (split; [reflexivity | try exact I; lia]).
Qed.

Lemma handle_200_calls frags fin tok rc r :
  calls (step_run (handle_200 json_loads settings w req frags fin tok rc r))
    = calls r ∧
  step_next settings rc
    (handle_200 json_loads settings w req frags fin tok rc r).
Proof.
  unfold handle_200.
  destruct (process_fragments json_loads frags (initial_state req))
    as [[o st] stopped].
  set (r1 := if truthy tok then mark_success tok r else r).
  assert (Hr1 : calls r1 = calls r) by (subst r1; destruct (truthy tok);
    reflexivity).
  assert (Hdone : ∀ r2, calls r2 = calls r →
    calls (step_run
      (if has_critical_issue st && (rc <? MAX_RETRIES settings)
       then Continue (rc + 1) (Some ErrIncomplete) tok
              (if no_tool_call st then emit [DoneMarker] r2 else r2)
       else Stop (if no_tool_call st then emit [DoneMarker] r2 else r2)))
    = calls r ∧
    step_next settings rc
      (if has_critical_issue st && (rc <? MAX_RETRIES settings)
       then Continue (rc + 1) (Some ErrIncomplete) tok
              (if no_tool_call st then emit [DoneMarker] r2 else r2)
       else Stop (if no_tool_call st then emit [DoneMarker] r2 else r2))).
  { intros r2 Hr2. destruct (has_critical_issue st); simpl;
      [destruct (Z.ltb_spec rc (MAX_RETRIES settings)); simpl|];
      destruct (no_tool_call st); simpl; (split; [exact Hr2 | try exact I; lia]).
  }
  destruct stopped; [apply Hdone; exact Hr1|].
  destruct fin as [|msg]; [apply Hdone; exact Hr1|].
  destruct (on_exception_calls msg tok rc (emit o r1)) as [Hc Hn].
  split; [rewrite Hc; exact Hr1 | exact Hn].
Qed.

Lemma respond_calls rc tok r :
  calls (step_run (respond json_loads settings w req rc tok r))
    = calls r ++ [tok] ∧
  step_next settings rc (respond json_loads settings w req rc tok r).
Proof.
  unfold respond.
  set (r3 := mkRun (pool r) (tick r) (calls r ++ [tok]) (fetches r)
               (reports r) (out r)).
  assert (Hex : ∀ msg,
    calls (step_run (on_exception settings w msg tok rc r3)) = calls r ++ [tok]
    ∧ step_next settings rc (on_exception settings w msg tok rc r3)).
  { intros msg. destruct (on_exception_calls msg tok rc r3) as [Hc Hn].
    split; [rewrite Hc; reflexivity | exact Hn]. }
  destruct (upstream w (length (calls r))) as [msg|code frags fin];
    [apply Hex|].
  destruct (code =? 400).
  { destruct (aread frags fin) as [body|msg]; [|apply Hex].
    destruct (Z.leb_spec (rc + 1) (MAX_RETRIES settings)); simpl;
      (split; [reflexivity | try exact I; lia]). }
  destruct (code =? 401).
  { destruct (Z.leb_spec (rc + 1) (MAX_RETRIES settings));
      destruct (truthy tok); simpl; (split; [reflexivity | try exact I; lia]). }
  destruct (code =? 429).
  { destruct (Z.leb_spec (rc + 1) (MAX_RETRIES settings)); simpl;
      (split; [reflexivity | try exact I; lia]). }
  destruct (negb (code =? 200)).
  { destruct (aread frags fin) as [body|msg]; [|apply Hex].
    destruct ((code =? 502) || (code =? 503) || (code =? 504)); simpl;
      [destruct (Z.ltb_spec rc (MAX_RETRIES settings)); simpl|];
      (split; [reflexivity | try exact I; lia]). }
  destruct (handle_200_calls frags fin tok rc r3) as [Hc Hn].
  split; [rewrite Hc; reflexivity | exact Hn].
Qed.

Lemma attempt_calls rc cur r :
  (∃ l, calls (step_run (attempt json_loads settings w req rc cur r))
          = calls r ++ l ∧ (length l ≤ 1)%nat ∧ (rc ≤ 0 → l = [cur])) ∧
  step_next settings rc (attempt json_loads settings w req rc cur r).
Proof.
  unfold attempt, acquire. destruct (Z.ltb_spec 0 rc).
  - set (r1 := if truthy cur then mark_token_failure w cur r else r).
    assert (Hr1 : calls r1 = calls r)
      by (subst r1; destruct (truthy cur); reflexivity).
    pose proof (get_token_calls r1) as Hg.
    destruct (get_token settings w r1) as [new_token r2]. simpl in Hg.
    destruct (truthy new_token).
    + destruct (respond_calls rc new_token r2) as [Hc Hn].
      split; [|exact Hn]. exists [new_token].
      rewrite Hc, Hg, Hr1. split; [reflexivity|]. split; [simpl; lia | lia].
    + destruct (on_exception_calls NO_TOKEN cur rc r2) as [Hc Hn].
      split; [|exact Hn]. exists []. rewrite Hc, Hg, Hr1, app_nil_r.
      split; [reflexivity|]. split; [simpl; lia | lia].
  - destruct (respond_calls rc cur r) as [Hc Hn].
    split; [|exact Hn]. exists [cur]. rewrite Hc.
    split; [reflexivity|]. split; [simpl; lia | auto].
Qed.

Lemma stream_loop_calls fuel : ∀ rc le cur r,
  0 ≤ rc ≤ MAX_RETRIES settings →
  MAX_RETRIES settings - rc + 1 ≤ Z.of_nat fuel →
  fst (stream_loop json_loads settings w req fuel rc le cur r) = Returned ∧
  ∃ l, calls (snd (stream_loop json_loads settings w req fuel rc le cur r))
         = calls r ++ l ∧
       (length l ≤ Z.to_nat (MAX_RETRIES settings - rc + 1))%nat ∧
       (rc ≤ 0 → ∃ l', l = cur :: l').
Proof.
  induction fuel as [|fuel IH]; intros rc le cur r Hrc Hfuel; [lia|].
  cbn [stream_loop].
  destruct (Z.leb_spec rc (MAX_RETRIES settings)); [|lia].
  destruct (attempt_calls rc cur r) as [[l [Hl [Hlen Hfirst]]] Hn].
  destruct (attempt json_loads settings w req rc cur r)
    as [rc' le' cur' r'|r']; simpl in Hl, Hn.
  - destruct Hn as [-> Hle].
    destruct (IH (rc + 1) le' cur' r' ltac:(lia) ltac:(lia))
      as [Hret [l2 [Hl2 [Hlen2 _]]]].
    split; [exact Hret|]. exists (l ++ l2).
    rewrite Hl2, Hl, app_assoc. split; [reflexivity|]. split.
    + rewrite length_app. lia.
    + intros Hz. rewrite (Hfirst Hz). exists l2. reflexivity.
  - split; [reflexivity|]. exists l. split; [exact Hl|]. split; [lia|].
    intros Hz. rewrite (Hfirst Hz). exists []. reflexivity.
Qed.

(** X10. Whatever the upstream, the decoder and the tool handler do,
    [stream_response] comes to a return when [MAX_RETRIES] is not negative,
    after at least one and at most [MAX_RETRIES + 1] upstream calls, the
    first of them with the token of the transformed request.  With a
    negative [MAX_RETRIES] the loop is left before its first turn: no call
    is made and nothing is yielded, not even the terminal marker. *)
Theorem retry_bound (token0 : pystr) (p : TokenManager) :
  (0 ≤ MAX_RETRIES settings →
   fst (stream_response json_loads settings w req token0 p) = Returned ∧
   (1 ≤ length (calls (snd (stream_response json_loads settings w req
                              token0 p)))
      ≤ Z.to_nat (MAX_RETRIES settings + 1))%nat ∧
   head (calls (snd (stream_response json_loads settings w req token0 p)))
     = Some token0) ∧
  (MAX_RETRIES settings < 0 →
   ∀ fuel r,
     stream_loop json_loads settings w req (S fuel) 0 None token0 r
       = (WhileExit, r)).
Proof.
  split.
  - intros Hmax. unfold stream_response.
    destruct (stream_loop_calls (S (Z.to_nat (MAX_RETRIES settings + 1))) 0
                None token0 (mkRun p 0 [] 0 [] []) ltac:(lia) ltac:(lia))
      as [Hret [l [Hl [Hlen Hfirst]]]].
    destruct (Hfirst ltac:(lia)) as [l' ->].
    split; [exact Hret|]. rewrite Hl. simpl in *.
    split; [split; [lia|]|reflexivity].
    replace (MAX_RETRIES settings - 0 + 1) with (MAX_RETRIES settings + 1)
      in Hlen by lia.
    exact Hlen.
  - intros Hneg fuel r. cbn [stream_loop].
    destruct (Z.leb_spec 0 (MAX_RETRIES settings)); [lia | reflexivity].
Qed.


Lemma loop_401 frags fin :
  (∀ n, upstream w n = Reply 401 frags fin) →
  ∀ fuel rc le cur r,
  0 ≤ rc ≤ MAX_RETRIES settings →
  MAX_RETRIES settings - rc + 1 ≤ Z.of_nat fuel →
  usable (pool r) → truthy cur = true →
  fst (stream_loop json_loads settings w req fuel rc le cur r) = Returned ∧
  length (calls (snd (stream_loop json_loads settings w req fuel rc le cur r)))
    = (length (calls r) + Z.to_nat (MAX_RETRIES settings - rc + 1))%nat ∧
  out (snd (stream_loop json_loads settings w req fuel rc le cur r))
    = out r ++ [ErrorRecord (lit "auth_error") (Some 401) None; DoneMarker] ∧
  length (reports (snd (stream_loop json_loads settings w req fuel rc le
                          cur r)))
    = (length (reports r)
       + Z.to_nat (2 * (MAX_RETRIES settings - rc) + 1
                   + (if rc =? 0 then 0 else 1))%Z)%nat.
Proof.
  intros Hup. induction fuel as [|fuel IH]; intros rc le cur r Hrc Hfuel Hus Hcur;
    [lia|].
  cbn [stream_loop].
  destruct (Z.leb_spec rc (MAX_RETRIES settings)); [|lia].
  unfold attempt.
  destruct (acquire_usable settings w rc cur r ltac:(lia) Hus)
    as [tok [r2 [-> [Hus2 [Hc2 [Ho2 [Htok Hrep]]]]]]].
  specialize (Htok Hcur). specialize (Hrep Hcur).
  unfold respond. rewrite Hup.
  change (401 =? 400) with false. change (401 =? 401) with true.
  cbv iota. rewrite Htok.
  set (r4 := mark_token_failure w tok _).
  assert (Hus4 : usable (pool r4))
    by (subst r4; cbn [pool mark_token_failure];
        apply mark_token_failed_usable; exact Hus2).
  assert (Hc4 : calls r4 = calls r ++ [tok])
    by (subst r4; cbn [calls mark_token_failure]; rewrite Hc2; reflexivity).
  assert (Ho4 : out r4 = out r)
    by (subst r4; cbn [out mark_token_failure]; exact Ho2).
  assert (Hr4 : length (reports r4) = S (length (reports r2))).
  { subst r4. cbn [reports mark_token_failure]. rewrite length_app.
    simpl. lia. }
  destruct (Z.leb_spec (rc + 1) (MAX_RETRIES settings)).
  - destruct (IH (rc + 1) (Some Err401) tok r4 ltac:(lia) ltac:(lia) Hus4 Htok)
      as [Hret [Hcalls [Hout Hreports]]].
    split; [exact Hret|]. split; [|split].
    + rewrite Hcalls, Hc4, length_app. simpl. lia.
    + rewrite Hout, Ho4. reflexivity.
    + rewrite Hreports, Hr4, Hrep.
      destruct (Z.eqb_spec (rc + 1) 0); [lia|].
      destruct (Z.eqb_spec rc 0); lia.
  - assert (rc = MAX_RETRIES settings) as -> by lia.
    cbn [fst snd emit calls out reports].
    split; [reflexivity|]. split; [|split].
    + rewrite Hc4, length_app. simpl. lia.
    + rewrite Ho4. reflexivity.
    + rewrite Hr4, Hrep. destruct (Z.eqb_spec (MAX_RETRIES settings) 0); lia.
Qed.

(** X12. On an upstream that answers 401, with a pool that can supply a
    token for each retry and the non-empty token of a transformed request,
    every call is reported to the pool as a failure of its token, and the
    retry that follows reports the same token once more: [MAX_RETRIES + 1]
    calls cost [2 * MAX_RETRIES + 1] failure reports, before the stream ends
    with an [auth_error] record and the terminal marker. *)
Theorem unauthorized_reported_twice (token0 : pystr) (p : TokenManager)
    (frags : list Fragment) (fin : BodyEnd) :
  0 ≤ MAX_RETRIES settings →
  usable p → truthy token0 = true →
  (∀ n, upstream w n = Reply 401 frags fin) →
  let res := stream_response json_loads settings w req token0 p in
  fst res = Returned ∧
  length (calls (snd res)) = Z.to_nat (MAX_RETRIES settings + 1) ∧
  out (snd res) = [ErrorRecord (lit "auth_error") (Some 401) None; DoneMarker] ∧
  length (reports (snd res)) = Z.to_nat (2 * MAX_RETRIES settings + 1).
Proof.
  intros Hmax Hus Htok Hup res. subst res. unfold stream_response.
  destruct (loop_401 frags fin Hup (S (Z.to_nat (MAX_RETRIES settings + 1))) 0
              None token0 (mkRun p 0 [] 0 [] []) ltac:(lia) ltac:(lia) Hus Htok)
    as [Hret [Hcalls [Hout Hrep]]].
  split; [exact Hret|]. split; [|split].
  - rewrite Hcalls. simpl. f_equal. lia.
  - rewrite Hout. reflexivity.
  - rewrite Hrep. simpl. f_equal. lia.
Qed.

(** *** A 200 response without any line *)

Lemma process_fragments_empty frags :
  Forall (fun f => frag_bytes f = []) frags →
  ∀ st : @StreamState TH,
  ∃ st', process_fragments json_loads frags st = ([], st', false) ∧
    line_count st' = line_count st ∧ tool_handler st' = tool_handler st.
Proof.
  induction 1 as [|f fs Hf _ IH]; intros st.
  { exists st. auto. }
  cbn [process_fragments]. unfold process_fragment. rewrite Hf.
  destruct (IH (count_chunk st)) as [st' [E [Hl Ht]]].
  rewrite E. exists st'. auto.
Qed.

Lemma handle_200_empty frags tok rc r :
  has_tools req = false → has_mcp_servers req = false →
  Forall (fun f => frag_bytes f = []) frags →
  handle_200 json_loads settings w req frags Eof tok rc r =
    let r3 := emit [DoneMarker]
                (emit [] (if truthy tok then mark_success tok r else r)) in
    if rc <? MAX_RETRIES settings
    then Continue (rc + 1) (Some ErrIncomplete) tok r3
    else Stop r3.
Proof.
  intros Ht Hm Hf. unfold handle_200.
  destruct (process_fragments_empty frags Hf (initial_state req))
    as [st' [-> [Hl Hh]]].
  assert (Hnone : tool_handler st' = None).
  { rewrite Hh. unfold initial_state. rewrite Ht, Hm. reflexivity. }
  unfold no_tool_call, has_critical_issue. rewrite Hnone, Hl.
  reflexivity.
Qed.

Lemma loop_empty_200 :
  has_tools req = false → has_mcp_servers req = false →
  (∀ n, ∃ frags, upstream w n = Reply 200 frags Eof ∧
                 Forall (fun f => frag_bytes f = []) frags) →
  ∀ fuel rc le cur r,
  0 ≤ rc ≤ MAX_RETRIES settings →
  MAX_RETRIES settings - rc + 1 ≤ Z.of_nat fuel →
  usable (pool r) → truthy cur = true →
  fst (stream_loop json_loads settings w req fuel rc le cur r) = Returned ∧
  length (calls (snd (stream_loop json_loads settings w req fuel rc le cur r)))
    = (length (calls r) + Z.to_nat (MAX_RETRIES settings - rc + 1))%nat ∧
  out (snd (stream_loop json_loads settings w req fuel rc le cur r))
    = out r ++ repeat DoneMarker (Z.to_nat (MAX_RETRIES settings - rc + 1)) ∧
  length (reports (snd (stream_loop json_loads settings w req fuel rc le
                          cur r)))
    = (length (reports r)
       + Z.to_nat (MAX_RETRIES settings - rc
                   + (if rc =? 0 then 0 else 1))%Z)%nat.
Proof.
  intros Ht Hm Hup.
  induction fuel as [|fuel IH]; intros rc le cur r Hrc Hfuel Hus Hcur; [lia|].
  cbn [stream_loop].
  destruct (Z.leb_spec rc (MAX_RETRIES settings)); [|lia].
  unfold attempt.
  destruct (acquire_usable settings w rc cur r ltac:(lia) Hus)
    as [tok [r2 [-> [Hus2 [Hc2 [Ho2 [Htok Hrep]]]]]]].
  specialize (Htok Hcur). specialize (Hrep Hcur).
  unfold respond. destruct (Hup (length (calls r2))) as [frags [-> Hf]].
  change (200 =? 400) with false. change (200 =? 401) with false.
  change (200 =? 429) with false. change (200 =? 200) with true.
  cbv iota. cbn [negb].
  rewrite (handle_200_empty frags tok rc _ Ht Hm Hf). cbv zeta. rewrite Htok.
  set (r3 := emit [DoneMarker] _).
  assert (Hus3 : usable (pool r3))
    by (subst r3; cbn [pool emit mark_success];
        apply mark_token_success_usable; exact Hus2).
  assert (Hc3 : calls r3 = calls r ++ [tok])
    by (subst r3; cbn [calls emit mark_success]; rewrite Hc2; reflexivity).
  assert (Ho3 : out r3 = out r ++ [DoneMarker])
    by (subst r3; cbn [out emit mark_success]; rewrite Ho2, app_nil_r;
        reflexivity).
  assert (Hr3 : reports r3 = reports r2) by reflexivity.
  destruct (Z.ltb_spec rc (MAX_RETRIES settings)).
  - destruct (IH (rc + 1) (Some ErrIncomplete) tok r3 ltac:(lia) ltac:(lia)
                Hus3 Htok) as [Hret [Hcalls [Hout Hreports]]].
    split; [exact Hret|]. split; [|split].
    + rewrite Hcalls, Hc3, length_app. simpl. lia.
    + rewrite Hout, Ho3, <- app_assoc. f_equal.
      replace (Z.to_nat (MAX_RETRIES settings - rc + 1))
        with (S (Z.to_nat (MAX_RETRIES settings - (rc + 1) + 1))) by lia.
      reflexivity.
    + rewrite Hreports, Hr3, Hrep.
      destruct (Z.eqb_spec (rc + 1) 0); [lia|].
      destruct (Z.eqb_spec rc 0); lia.
  - assert (rc = MAX_RETRIES settings) as -> by lia.
    cbn [fst snd]. split; [reflexivity|]. split; [|split].
    + rewrite Hc3, length_app. simpl. lia.
    + rewrite Ho3. f_equal.
      replace (MAX_RETRIES settings - MAX_RETRIES settings + 1) with 1 by lia.
      reflexivity.
    + rewrite Hr3, Hrep. destruct (Z.eqb_spec (MAX_RETRIES settings) 0); lia.
Qed.

(** X13. An upstream that answers 200 with a body without content, on a
    request without tool handler, with a pool that can supply a token for
    each retry and the non-empty token of a transformed request: every
    response counts as incomplete and is retried, and each of the
    [MAX_RETRIES + 1] attempts yields a terminal marker.  The client
    receives [MAX_RETRIES + 1] markers and nothing else, no error record;
    the token is reported as failed at each retry although every call was
    answered with 200. *)
Theorem empty_body_only_done (token0 : pystr) (p : TokenManager) :
  0 ≤ MAX_RETRIES settings →
  usable p → truthy token0 = true →
  has_tools req = false → has_mcp_servers req = false →
  (∀ n, ∃ frags, upstream w n = Reply 200 frags Eof ∧
                 Forall (fun f => frag_bytes f = []) frags) →
  let res := stream_response json_loads settings w req token0 p in
  fst res = Returned ∧
  length (calls (snd res)) = Z.to_nat (MAX_RETRIES settings + 1) ∧
  out (snd res) = repeat DoneMarker (Z.to_nat (MAX_RETRIES settings + 1)) ∧
  length (reports (snd res)) = Z.to_nat (MAX_RETRIES settings).
Proof.
  intros Hmax Hus Htok Ht Hm Hup res. subst res. unfold stream_response.
  destruct (loop_empty_200 Ht Hm Hup (S (Z.to_nat (MAX_RETRIES settings + 1))) 0
              None token0 (mkRun p 0 [] 0 [] []) ltac:(lia) ltac:(lia) Hus Htok)
    as [Hret [Hcalls [Hout Hrep]]].
  split; [exact Hret|]. split; [|split].
  - rewrite Hcalls. simpl. f_equal. lia.
  - rewrite Hout. simpl. f_equal. lia.
  - rewrite Hrep. simpl. f_equal. lia.
Qed.

End Retry.

Section Role.

Context {TH : Type} `{ToolHandler TH}.
Variable json_loads : pystr -> option Json.

Lemma role_first_app s o1 o2 :
  role_first s (o1 ++ o2)
    = role_first s o1 && role_first (s || existsb is_role o1) o2.
Proof.
  revert s. induction o1 as [|x o1 IH]; intros s.
  { simpl. rewrite orb_false_r. reflexivity. }
  destruct x; simpl; rewrite ?IH, ?orb_false_r, ?orb_true_r;
    try reflexivity.
  rewrite andb_assoc. reflexivity.
Qed.

Lemma count_role_app o1 o2 :
  count_role (o1 ++ o2) = (count_role o1 + count_role o2)%nat.
Proof. unfold count_role. rewrite List.filter_app, length_app. reflexivity. Qed.

Lemma role_inv_nil (st st' : @StreamState TH) :
  has_thinking st' = has_thinking st → role_inv st [] st'.
Proof.
  intros E. unfold role_inv. rewrite E, orb_false_r. auto.
Qed.

Lemma role_inv_app (st : @StreamState TH) o1 st1 o2 st2 :
  role_inv st o1 st1 → role_inv st1 o2 st2 → role_inv st (o1 ++ o2) st2.
Proof.
  intros [A1 [B1 C1]] [A2 [B2 C2]]. unfold role_inv.
  rewrite role_first_app, count_role_app, existsb_app, A1, <- B1, A2.
  split; [reflexivity|]. split; [rewrite B2, B1, orb_assoc; reflexivity|].
  lia.
Qed.

Lemma role_inv_plain (st : @StreamState TH) o st' :
  forallb plain o = true → has_thinking st' = has_thinking st →
  role_inv st o st'.
Proof.
  intros Hp E. unfold role_inv. rewrite E. clear E.
  induction o as [|x o IH]; [rewrite orb_false_r; auto|].
  simpl in Hp. apply andb_true_iff in Hp as [Hx Hp].
  destruct (IH Hp) as [A [B C]].
  destruct x; try discriminate; simpl; auto.
Qed.

Lemma role_inv_content (st : @StreamState TH) b c :
  has_thinking st = true → role_inv st [ContentChunk b c] st.
Proof. intros E. unfold role_inv. rewrite E. auto. Qed.

Lemma send_role_inv (st : @StreamState TH) :
  role_inv st (fst (send_role st)) (snd (send_role st)) ∧
  has_thinking (snd (send_role st)) = true.
Proof.
  unfold send_role, role_inv. destruct (has_thinking st) eqn:E; simpl;
    rewrite ?E; auto.
Qed.

Lemma thinking_branch_role data (st : @StreamState TH) :
  role_inv st (fst (fst (thinking_branch data st)))
    (snd (fst (thinking_branch data st))).
Proof.
  unfold thinking_branch. destruct (send_role_inv st) as [Hs Ht].
  destruct (send_role st) as [o st1]. cbn [fst snd] in Hs, Ht.
  destruct (py_truthy _); [|exact Hs].
  destruct (get_or _ _ _); try exact Hs.
  destruct (first_thinking_chunk st1); cbn [fst snd].
  - eapply role_inv_app; [exact Hs|].
    unfold role_inv. cbn. rewrite Ht. auto.
  - eapply role_inv_app; [exact Hs | apply role_inv_content, Ht].
Qed.

Lemma answer_branch_role data (st : @StreamState TH) :
  role_inv st (fst (fst (answer_branch data st)))
    (snd (fst (answer_branch data st))).
Proof.
  unfold answer_branch. destruct (send_role_inv st) as [Hs Ht].
  destruct (send_role st) as [o st1]. cbn [fst snd] in Hs, Ht.
  assert (Hc : ∀ b c, role_inv st (o ++ [ContentChunk b c]) st1)
    by (intros b c; eapply role_inv_app;
        [exact Hs | apply role_inv_content, Ht]).
  assert (Hd : role_inv st
            (fst (fst (if py_truthy (get_or (lit "delta_content") (JStr []) data)
                  then (o ++ [ContentChunk false
                                (get_or (lit "delta_content") (JStr []) data)],
                        st1, true)
                  else (o, st1, true))))
            (snd (fst (if py_truthy (get_or (lit "delta_content") (JStr []) data)
                  then (o ++ [ContentChunk false
                                (get_or (lit "delta_content") (JStr []) data)],
                        st1, true)
                  else (o, st1, true))))).
  { destruct (py_truthy _); cbn [fst snd]; [apply Hc | exact Hs]. }
  destruct (py_truthy (get_or (lit "edit_content") (JStr []) data));
    [|exact Hd].
  destruct (details_end_in _) as [[|]|]; [|exact Hd|exact Hs].
  assert (Ho1 : role_inv st
            (if has_thinking st1 && negb (first_thinking_chunk st1)
             then o ++ [ContentChunk true (JStr THINK_CLOSE)] else o) st1)
    by (destruct (_ && _); [apply Hc | exact Hs]).
  destruct (get_or (lit "edit_content") (JStr []) data); try exact Ho1.
  destruct (truthy _); cbn [fst snd]; [|exact Ho1].
  eapply role_inv_app; [exact Ho1 | apply role_inv_content, Ht].
Qed.

Lemma tool_out_plain raws : forallb plain (List.map tool_out raws) = true.
Proof.
  induction raws as [|x r IH]; [reflexivity|].
  simpl. rewrite IH. unfold tool_out. destruct (eqb x done_text); reflexivity.
Qed.

Lemma tool_branch_role call data h (st : @StreamState TH) :
  role_inv st (fst (fst (tool_branch call data h st)))
    (snd (fst (tool_branch call data h st))).
Proof.
  unfold tool_branch. destruct (call data h) as [[raws h'] raised].
  cbn [fst snd]. apply role_inv_plain; [apply tool_out_plain | reflexivity].
Qed.

Lemma process_event_role chunk (st : @StreamState TH) :
  role_inv st (fst (process_event chunk st)) (snd (process_event chunk st)).
Proof.
  unfold process_event.
  destruct chunk; try (apply role_inv_nil; reflexivity).
  destruct (is_str _ _); [|apply role_inv_nil; reflexivity].
  destruct (get_or (lit "data") (JObj []) kv) as [| | | | | |data];
    try (apply role_inv_nil; reflexivity).
  set (phase := get_or (lit "phase") JNull data).
  assert (Hb : ∃ o st1 finished,
    match tool_handler st with
    | Some h =>
        if is_str phase (lit "tool_call")
        then tool_branch process_tool_call_phase data h st
        else if is_str phase (lit "other")
        then tool_branch process_other_phase data h st
        else if is_str phase (lit "thinking")
        then thinking_branch data st
        else if is_str phase (lit "answer")
        then answer_branch data st
        else ([], st, true)
    | None =>
        if is_str phase (lit "thinking")
        then thinking_branch data st
        else if is_str phase (lit "answer")
        then answer_branch data st
        else ([], st, true)
    end = (o, st1, finished) ∧ role_inv st o st1).
  { assert (Ht := thinking_branch_role data st).
    assert (Ha := answer_branch_role data st).
    assert (Hn : role_inv st [] st) by (apply role_inv_nil; reflexivity).
    destruct (tool_handler st) as [h|].
    - pose proof (tool_branch_role process_tool_call_phase data h st) as H1.
      pose proof (tool_branch_role process_other_phase data h st) as H2.
      destruct (is_str phase (lit "tool_call"));
        [destruct (tool_branch _ _ _ _) as [[o s1] f]; eauto|].
      destruct (is_str phase (lit "other"));
        [destruct (tool_branch process_other_phase _ _ _) as [[o s1] f]; eauto|].
      destruct (is_str phase (lit "thinking"));
        [destruct (thinking_branch _ _) as [[o s1] f]; eauto|].
      destruct (is_str phase (lit "answer"));
        [destruct (answer_branch _ _) as [[o s1] f]; eauto|].
      eauto.
    - destruct (is_str phase (lit "thinking"));
        [destruct (thinking_branch _ _) as [[o s1] f]; eauto|].
      destruct (is_str phase (lit "answer"));
        [destruct (answer_branch _ _) as [[o s1] f]; eauto|].
      eauto. }
  destruct Hb as [o [st1 [finished [-> Hinv]]]].
  destruct finished; [|exact Hinv].
  destruct (_ && _); cbn [fst snd]; [|exact Hinv].
  eapply role_inv_app; [exact Hinv|].
  apply role_inv_plain; reflexivity.
Qed.

Lemma process_line_role l (st : @StreamState TH) :
  role_inv st (fst (process_line json_loads l st))
    (snd (process_line json_loads l st)).
Proof.
  unfold process_line.
  destruct (classify l) as [| |chunk_str]; cbn [fst snd].
  - apply role_inv_nil. reflexivity.
  - apply role_inv_plain; reflexivity.
  - destruct (json_loads chunk_str) as [chunk|];
      [|apply role_inv_nil; reflexivity].
    pose proof (process_event_role chunk (count_line st)) as Hinv.
    exact Hinv.
Qed.

Lemma process_lines_role ls : ∀ st : @StreamState TH,
  role_inv st (fst (process_lines json_loads ls st))
    (snd (process_lines json_loads ls st)).
Proof.
  induction ls as [|l r IH]; intros st; [apply role_inv_nil; reflexivity|].
  cbn [process_lines]. pose proof (process_line_role l st) as H1.
  destruct (process_line json_loads l st) as [o1 st1].
  pose proof (IH st1) as H2.
  destruct (process_lines json_loads r st1) as [o2 st2].
  cbn [fst snd] in *. eapply role_inv_app; eassumption.
Qed.

Lemma refill_has_thinking bytes (st : @StreamState TH) :
  has_thinking (snd (refill bytes st)) = has_thinking st.
Proof.
  unfold refill. destruct (Utf8.decode _); [destruct (take_lines _ _)|];
    [|destruct (_ <? _)]; reflexivity.
Qed.

Lemma process_fragment_role f (st : @StreamState TH) :
  role_inv st (fst (fst (process_fragment json_loads f st)))
    (snd (fst (process_fragment json_loads f st))).
Proof.
  unfold process_fragment. destruct (frag_bytes f) as [|b bs] eqn:Eb.
  { apply role_inv_nil. reflexivity. }
  rewrite <- Eb.
  pose proof (refill_has_thinking (frag_bytes f) (count_chunk st)) as Hr.
  destruct (refill (frag_bytes f) (count_chunk st)) as [lines st1].
  pose proof (process_lines_role lines st1) as Hl.
  destruct (process_lines json_loads lines st1) as [o st2].
  cbn [fst snd] in *. unfold role_inv in *. rewrite Hr in Hl. exact Hl.
Qed.

Lemma process_fragments_role fs : ∀ st : @StreamState TH,
  role_inv st (fst (fst (process_fragments json_loads fs st)))
    (snd (fst (process_fragments json_loads fs st))).
Proof.
  induction fs as [|f r IH]; intros st; [apply role_inv_nil; reflexivity|].
  cbn [process_fragments]. pose proof (process_fragment_role f st) as H1.
  destruct (process_fragment json_loads f st) as [[o1 st1] stop].
  destruct stop; [exact H1|].
  pose proof (IH st1) as H2.
  destruct (process_fragments json_loads r st1) as [[o2 st2] stop2].
  cbn [fst snd] in *. eapply role_inv_app; eassumption.
Qed.

(** X14. In the records that [stream_response] builds from one 200
    response, the role chunk is sent at most once and before any content
    chunk, whatever the upstream sends and whatever the tool handler does;
    the flag [has_thinking] at the end of the response tells whether it was
    sent. *)
Theorem role_chunk_once_and_first (req : Request) (frags : list Fragment) :
  let res := process_fragments json_loads frags (initial_state (TH:=TH) req) in
  (count_role (fst (fst res)) ≤ 1)%nat ∧
  role_first false (fst (fst res)) = true ∧
  (count_role (fst (fst res)) = 1%nat ↔ has_thinking (snd (fst res)) = true).
Proof.
  intros res. subst res.
  destruct (process_fragments_role frags (initial_state req)) as [A [B C]].
  change (has_thinking (initial_state req)) with false in A, B, C.
  simpl in C. split; [|split; [exact A|]].
  - destruct (has_thinking _); simpl in C; lia.
  - destruct (has_thinking _); simpl in C; split; intros; try lia;
      try reflexivity; discriminate.
Qed.

End Role.

(** *** Instances *)

Lemma retry_bound_witness :
  0 ≤ MAX_RETRIES (settings_with 1) ∧
  fst (stream_response (TH:=unit) toy_loads (settings_with 1)
         (world_of (fun _ => Reply 503 [] Eof)) plain_request (lit "tok")
         pool1) = Returned.
Proof.
  split; [simpl; lia|].
  destruct (retry_bound (TH:=unit) toy_loads (settings_with 1)
              (world_of (fun _ => Reply 503 [] Eof)) plain_request
              (lit "tok") pool1) as [Hpos _].
  apply Hpos. simpl. lia.
Defined.


Lemma unauthorized_reported_twice_witness :
  0 ≤ MAX_RETRIES (settings_with 1) ∧ usable pool1 ∧
  truthy (lit "tok") = true ∧
  length (reports (snd (stream_response (TH:=unit) toy_loads (settings_with 1)
                          (world_of (fun _ => Reply 401 [] Eof))
                          plain_request (lit "tok") pool1))) = 3%nat.
Proof.
  split; [simpl; lia|]. split; [apply Instances.pool1_usable|].
  split; [reflexivity|].
  destruct (unauthorized_reported_twice (TH:=unit) toy_loads (settings_with 1)
              (world_of (fun _ => Reply 401 [] Eof)) plain_request
              (lit "tok") pool1 [] Eof)
    as [_ [_ [_ Hrep]]];
    [simpl; lia | apply Instances.pool1_usable | reflexivity | reflexivity |].
  exact Hrep.
Defined.

Lemma empty_body_only_done_witness :
  0 ≤ MAX_RETRIES (settings_with 2) ∧ usable pool1 ∧
  out (snd (stream_response (TH:=unit) toy_loads (settings_with 2)
              (world_of (fun _ => Reply 200 [] Eof)) plain_request
              (lit "tok") pool1))
    = [DoneMarker; DoneMarker; DoneMarker].
Proof.
  split; [simpl; lia|]. split; [apply Instances.pool1_usable|].
  destruct (empty_body_only_done (TH:=unit) toy_loads (settings_with 2)
              (world_of (fun _ => Reply 200 [] Eof)) plain_request
              (lit "tok") pool1)
    as [_ [_ [Hout _]]];
    [simpl; lia | apply Instances.pool1_usable | reflexivity | reflexivity
     | reflexivity | intros n; exists []; split; [reflexivity | constructor] |].
  exact Hout.
Defined.

End GatewayExtras.

(** ** The buffer loop: where fragment boundaries do not matter *)

Module ReaderExtras.
Import PyJson TokenPool Gateway GatewayMore Examples.

Section Reader.

Context {TH : Type} `{ToolHandler TH}.
Variable json_loads : pystr -> option Json.

Lemma refill_undecodable b1 (st : @StreamState TH) :
  Utf8.decode (buffer st ++ b1) = None →
  Z.of_nat (length (buffer st ++ b1)) ≤ 1048576 →
  refill b1 st = ([], set_buffer st (buffer st ++ b1) (incomplete_line st)).
Proof.
  intros Hd Hlen. unfold refill. rewrite Hd.
  destruct (Z.ltb_spec 1048576 (Z.of_nat (length (buffer st ++ b1))));
    [lia | reflexivity].
Qed.

Lemma refill_set_buffer bytes (st : @StreamState TH) buf :
  refill bytes (set_buffer st buf (incomplete_line st))
    = refill bytes (mkStreamState (tool_handler st) (has_thinking st)
                      (first_thinking_chunk st) buf (incomplete_line st)
                      (line_count st) (chunk_count st)).
Proof. reflexivity. Qed.

(** X15. A fragment that ends inside a multi-byte character (the buffer does
    not decode yet, and is within the limit of 1 MiB) loses nothing: it
    yields no line, and reading the next fragment gives the same lines and
    the same state as reading the two fragments as one.  The lines and the
    events read from the whole body are then the same for both
    fragmentations. *)
Theorem undecodable_cut_is_harmless (b1 b2 : list byte)
    (rest : list (list byte)) (st : @StreamState TH) :
  Utf8.decode (buffer st ++ b1) = None →
  Z.of_nat (length (buffer st ++ b1)) ≤ 1048576 →
  fst (refill b1 st) = [] ∧
  refill b2 (snd (refill b1 st)) = refill (b1 ++ b2) st ∧
  lines_read (b1 :: b2 :: rest) st = lines_read ((b1 ++ b2) :: rest) st ∧
  decoded_events json_loads (b1 :: b2 :: rest) st
    = decoded_events json_loads ((b1 ++ b2) :: rest) st.
Proof.
  intros Hd Hlen.
  assert (H1 : refill b1 st
               = ([], set_buffer st (buffer st ++ b1) (incomplete_line st)))
    by (apply refill_undecodable; assumption).
  assert (H2 : refill b2 (snd (refill b1 st)) = refill (b1 ++ b2) st).
  { rewrite H1. cbn [snd]. unfold refill.
    cbn [buffer incomplete_line set_buffer].
    rewrite <- app_assoc. reflexivity. }
  assert (H3 : lines_read (b1 :: b2 :: rest) st
               = lines_read ((b1 ++ b2) :: rest) st).
  { destruct b1 as [|x1 y1].
    - reflexivity.
    - cbn [lines_read app]. change (x1 :: y1 ++ b2) with ((x1 :: y1) ++ b2).
      rewrite <- H2, H1. cbn [snd app].
      destruct b2 as [|x2 y2]; [|reflexivity].
      unfold refill. cbn [buffer incomplete_line set_buffer].
      rewrite app_nil_r, Hd.
      destruct (Z.ltb_spec 1048576 (Z.of_nat (length (buffer st ++ x1 :: y1))));
        [lia|].
      cbn [app]. destruct rest as [|b3 rest']; reflexivity. }
  split; [rewrite H1; reflexivity|]. split; [exact H2|].
  split; [exact H3|]. unfold decoded_events. rewrite H3. reflexivity.
Qed.

(** *** Fragments that end on a line end *)

Lemma fmap_cons_Some (c : N) (o : option pystr) s :
  cons c <$> o = Some s → ∃ s', o = Some s' ∧ s = c :: s'.
Proof. destruct o as [s'|]; [|discriminate]. intros [= <-]. eauto. Qed.

Lemma decode_N_app n : ∀ a s b,
  (length a ≤ n)%nat →
  Utf8.decode_N a = Some s →
  Utf8.decode_N (a ++ b) = (fun t => s ++ t) <$> Utf8.decode_N b.
Proof.
  induction n as [|n IH]; intros a s b Hlen Hd.
  { destruct a; [|simpl in Hlen; lia]. injection Hd as <-. simpl.
    destruct (Utf8.decode_N b); reflexivity. }
  destruct a as [|b0 r0].
  { injection Hd as <-. simpl. destruct (Utf8.decode_N b); reflexivity. }
  assert (Hstep : ∀ c r, (length r ≤ n)%nat →
            cons c <$> Utf8.decode_N r = Some s →
            cons c <$> Utf8.decode_N (r ++ b)
              = (fun t => s ++ t) <$> Utf8.decode_N b).
  { intros c r Hr Hc. apply fmap_cons_Some in Hc as [s' [Hs' ->]].
    rewrite (IH r s' b Hr Hs'). destruct (Utf8.decode_N b); reflexivity. }
  simpl in Hlen. cbn [Utf8.decode_N app] in Hd |- *.
  destruct (b0 <? 128)%N; [apply Hstep; [lia | exact Hd]|].
  destruct ((194 <=? b0) && (b0 <=? 223))%N.
  { destruct r0 as [|b1 r1]; [discriminate|]. cbn [app].
    destruct (Utf8.is_cont b1); [|discriminate].
    apply Hstep; [simpl in Hlen; lia | exact Hd]. }
  destruct ((224 <=? b0) && (b0 <=? 239))%N.
  { destruct r0 as [|b1 [|b2 r2]]; try discriminate. cbn [app].
    destruct (_ && _ && _ && _); [|discriminate].
    apply Hstep; [simpl in Hlen; lia | exact Hd]. }
  destruct ((240 <=? b0) && (b0 <=? 244))%N; [|discriminate].
  destruct r0 as [|b1 [|b2 [|b3 r3]]]; try discriminate. cbn [app].
  destruct (_ && _ && _ && _ && _); [|discriminate].
  apply Hstep; [simpl in Hlen; lia | exact Hd].
Qed.

Lemma decode_app a b s t :
  Utf8.decode a = Some s → Utf8.decode b = Some t →
  Utf8.decode (a ++ b) = Some (s ++ t).
Proof.
  unfold Utf8.decode. intros Ha Hb. rewrite List.map_app.
  rewrite (decode_N_app _ _ s _ (le_n _) Ha), Hb. reflexivity.
Qed.

Lemma split_go_nonempty sep : ∀ t skip cur, split_go sep skip cur t ≠ [].
Proof.
  induction t as [|c r IH]; intros skip cur; [discriminate|].
  simpl. destruct skip; [|apply IH].
  destruct (startswith sep (c :: r)); [discriminate | apply IH].
Qed.

Lemma split_nl_step c r cur :
  split_go NL 0 cur (c :: r) =
    if (10 =? c)%N then rev cur :: split_go NL 0 [] r
    else split_go NL 0 (c :: cur) r.
Proof.
  cbn [split_go]. unfold NL at 1. cbn [startswith].
  rewrite andb_true_r. reflexivity.
Qed.

(** Splitting a text whose first part ends with a newline: the lines of the
    first part, without the empty rest behind its last newline, then the
    lines of the second part. *)
Lemma split_nl_app t1 : ∀ cur t2,
  split_go NL 0 cur (t1 ++ NL ++ t2)
    = removelast (split_go NL 0 cur (t1 ++ NL)) ++ split_go NL 0 [] t2 ∧
  split_go NL 0 cur (t1 ++ NL)
    = removelast (split_go NL 0 cur (t1 ++ NL)) ++ [[]].
Proof.
  induction t1 as [|c r IH]; intros cur t2.
  { cbn [app]. unfold NL at 2 4 5 7. cbn [app].
    rewrite !split_nl_step. cbn. auto. }
  cbn [app]. rewrite !split_nl_step.
  destruct (IH [] t2) as [A1 B1]. destruct (IH (c :: cur) t2) as [A2 B2].
  destruct (10 =? c)%N.
  - pose proof (split_go_nonempty NL (r ++ NL) 0%nat []) as Hne.
    destruct (split_go NL 0 [] (r ++ NL)) as [|x l] eqn:E; [congruence|].
    rewrite A1. cbn [removelast app] in *.
    split; [reflexivity|]. rewrite <- B1. reflexivity.
  - split; [exact A2 | exact B2].
Qed.

Lemma endswith_nl t : endswith NL (t ++ NL) = true.
Proof.
  unfold endswith, NL. rewrite rev_app_distr. reflexivity.
Qed.

(** A fragment holding whole lines, read into a clean buffer. *)
Lemma refill_whole_lines b t (st : @StreamState TH) :
  buffer st = [] → incomplete_line st = [] →
  Utf8.decode b = Some (t ++ NL) →
  refill b st = (split NL (t ++ NL), set_buffer st [] []).
Proof.
  intros Hb Hi Hd. unfold refill. rewrite Hb. cbn [app]. rewrite Hd, Hi.
  unfold take_lines. rewrite endswith_nl. reflexivity.
Qed.

Lemma decode_nonempty b t : Utf8.decode b = Some (t ++ NL) → b ≠ [].
Proof. intros Hd ->. cbn in Hd. destruct t; discriminate. Qed.

Lemma lines_read_whole b t rest (st : @StreamState TH) :
  buffer st = [] → incomplete_line st = [] →
  Utf8.decode b = Some (t ++ NL) →
  lines_read (b :: rest) st
    = split NL (t ++ NL) ++ lines_read rest (set_buffer st [] []).
Proof.
  intros Hb Hi Hd. pose proof (decode_nonempty _ _ Hd) as Hne.
  cbn [lines_read]. rewrite (refill_whole_lines b t st Hb Hi Hd).
  destruct b; [congruence | reflexivity].
Qed.

Lemma concat_whole (frags : list (list byte)) :
  Forall (fun b => ∃ t, Utf8.decode b = Some (t ++ NL)) frags →
  frags ≠ [] →
  ∃ t, Utf8.decode (List.concat frags) = Some (t ++ NL).
Proof.
  induction 1 as [|b r [t Hb] Hr IH]; intros Hne; [congruence|].
  destruct r as [|b2 r2].
  { exists t. cbn. rewrite app_nil_r. exact Hb. }
  destruct (IH ltac:(discriminate)) as [t2 Ht2].
  exists ((t ++ NL) ++ t2).
  change (List.concat (b :: b2 :: r2)) with (b ++ List.concat (b2 :: r2)).
  rewrite (decode_app _ _ _ _ Hb Ht2), <- !app_assoc. reflexivity.
Qed.

(** X16. When every fragment of a body holds whole lines (it decodes and
    ends with a newline) and the buffer is empty at the start, the events
    decoded from the fragments are the events decoded from the body
    delivered in one piece: on line boundaries the fragmentation does not
    matter. *)
Theorem aligned_fragments_lose_nothing (frags : list (list byte)) :
  Forall (fun b => ∃ t, Utf8.decode b = Some (t ++ NL)) frags →
  ∀ st : @StreamState TH,
  buffer st = [] → incomplete_line st = [] →
  decoded_events json_loads frags st
    = decoded_events json_loads [List.concat frags] st.
Proof.
  unfold decoded_events.
  set (F := fun l => match classify l with
                     | Payload chunk_str => json_loads chunk_str
                     | _ => None
                     end).
  induction 1 as [|b r [t Hb] Hr IH]; intros st Hbuf Hinc; [reflexivity|].
  destruct r as [|b2 r2].
  { cbn [List.concat]. rewrite app_nil_r. reflexivity. }
  rewrite (lines_read_whole b t _ st Hbuf Hinc Hb), omap_app.
  rewrite (IH (set_buffer st [] []) eq_refl eq_refl).
  destruct (concat_whole (b2 :: r2) Hr ltac:(discriminate)) as [t2 Ht2].
  rewrite (lines_read_whole _ t2 [] (set_buffer st [] []) eq_refl eq_refl
             Ht2).
  assert (Hall : Utf8.decode (List.concat (b :: b2 :: r2))
                 = Some ((t ++ NL ++ t2) ++ NL)).
  { change (List.concat (b :: b2 :: r2))
      with (b ++ List.concat (b2 :: r2)).
    rewrite (decode_app _ _ _ _ Hb Ht2), <- !app_assoc. reflexivity. }
  rewrite (lines_read_whole _ _ [] st Hbuf Hinc Hall).
  cbn [lines_read]. rewrite !app_nil_r.
  unfold split.
  replace ((t ++ NL ++ t2) ++ NL) with (t ++ NL ++ (t2 ++ NL))
    by (rewrite <- !app_assoc; reflexivity).
  destruct (split_nl_app t [] (t2 ++ NL)) as [A _].
  destruct (split_nl_app t [] []) as [_ B].
  rewrite A, omap_app. rewrite B at 1. rewrite omap_app.
  assert (F [] = None) as Hnil by reflexivity.
  cbn [omap list_omap]. rewrite Hnil, app_nil_r. reflexivity.
Qed.

End Reader.

(** The character U+00E9 cut between its two bytes. *)
Lemma undecodable_cut_is_harmless_witness :
  Utf8.decode ([] ++ [xc3]) = None ∧
  lines_read [[xc3]; [xa9; x0a]]
    (mkStreamState (TH:=unit) None false true [] [] 0 0)
  = lines_read [[xc3; xa9; x0a]]
      (mkStreamState (TH:=unit) None false true [] [] 0 0).
Proof.
  split; [vm_compute; reflexivity|].
  apply (undecodable_cut_is_harmless (TH:=unit) toy_loads [xc3] [xa9; x0a] []
           (mkStreamState None false true [] [] 0 0));
    [vm_compute; reflexivity | vm_compute; discriminate].
Defined.

Lemma aligned_fragments_lose_nothing_witness :
  Forall (fun b => ∃ t, Utf8.decode b = Some (t ++ NL))
    [sse_line answer_payload; sse_line done_payload] ∧
  decoded_events toy_loads [sse_line answer_payload; sse_line done_payload]
    (mkStreamState (TH:=unit) None false true [] [] 0 0)
  = decoded_events toy_loads
      [List.concat [sse_line answer_payload; sse_line done_payload]]
      (mkStreamState (TH:=unit) None false true [] [] 0 0).
Proof.
  assert (Hall : Forall (fun b => ∃ t, Utf8.decode b = Some (t ++ NL))
                   [sse_line answer_payload; sse_line done_payload]).
  { repeat constructor.
    - exists (lit "data: " ++ answer_payload). vm_compute. reflexivity.
    - exists (lit "data: " ++ done_payload). vm_compute. reflexivity. }
  split; [exact Hall|].
  apply (aligned_fragments_lose_nothing (TH:=unit) toy_loads _ Hall);
    reflexivity.
Defined.

End ReaderExtras.

(** ** The request: API key, token, tool handler, messages *)

Module RequestExtras.
Import PyJson TokenPool Gateway GatewayMore Auth TokenPoolFacts GatewayFacts.
Import PoolExtras Examples MoreExamples.

(** *** The API key *)

Lemma startswith_app (p s : pystr) :
  startswith p s = true ↔ ∃ r, s = p ++ r.
Proof.
  revert s. induction p as [|a p IH]; intros s.
  { simpl. split; [intros _; exists s; reflexivity | reflexivity]. }
  destruct s as [|b s].
  { simpl. split; [discriminate | intros [r Hr]; discriminate]. }
  cbn [startswith]. rewrite andb_true_iff, N.eqb_eq, IH. split.
  - intros [-> [r ->]]. exists r. reflexivity.
  - intros [r [= -> ->]]. eauto.
Qed.

Lemma eqb_true (a b : pystr) : eqb a b = true ↔ a = b.
Proof. unfold eqb. apply bool_decide_eq_true. Qed.

(** X17. The chat endpoint lets a request pass exactly when the check is
    switched off or the [Authorization] header is [Bearer ] followed by the
    configured key; every rejection is a 401.  The admin endpoints accept
    exactly the bearer credentials that the chat endpoint accepts. *)
Theorem api_key_check (s : AuthSettings) (authorization : pystr) :
  (check_api_key s authorization = Accepted ↔
     SKIP_AUTH_TOKEN s = true ∨
     authorization = lit "Bearer " ++ AUTH_TOKEN s) ∧
  (∀ code detail, check_api_key s authorization = Rejected code detail →
     code = 401) ∧
  (∀ credentials,
     (verify_admin_token s credentials = Accepted ↔
      check_api_key s (lit "Bearer " ++ credentials) = Accepted) ∧
     (∀ code detail, verify_admin_token s credentials = Rejected code detail →
        code = 401)).
Proof.
  assert (Hchat : ∀ a, check_api_key s a = Accepted ↔
            SKIP_AUTH_TOKEN s = true ∨ a = lit "Bearer " ++ AUTH_TOKEN s).
  { intros a. unfold check_api_key.
    destruct (SKIP_AUTH_TOKEN s); [split; auto|].
    destruct (startswith (lit "Bearer ") a) eqn:Es; cbn [negb].
    - apply startswith_app in Es as [r ->].
      change (drop_prefix 7 (lit "Bearer " ++ r)) with r.
      destruct (eqb r (AUTH_TOKEN s)) eqn:Ek; cbn [negb].
      + apply eqb_true in Ek as ->. split; auto.
      + split; [discriminate|]. intros [Hd|He]; [discriminate|].
        apply app_inv_head in He. subst r.
        assert (eqb (AUTH_TOKEN s) (AUTH_TOKEN s) = true)
          by (apply eqb_true; reflexivity).
        congruence.
    - split; [discriminate|]. intros [Hd|He]; [discriminate|].
      assert (startswith (lit "Bearer ") a = true)
        by (apply startswith_app; eauto).
      congruence. }
  split; [apply Hchat|]. split.
  - intros code detail. unfold check_api_key.
    destruct (SKIP_AUTH_TOKEN s); [discriminate|].
    destruct (negb _); [intros [= <- _]; reflexivity|].
    destruct (negb _); [intros [= <- _]; reflexivity | discriminate].
  - intros credentials. split.
    + rewrite Hchat. unfold verify_admin_token.
      destruct (SKIP_AUTH_TOKEN s); [split; auto|].
      destruct (eqb credentials (AUTH_TOKEN s)) eqn:Ek; cbn [negb].
      * apply eqb_true in Ek as ->. split; auto.
      * split; [discriminate|]. intros [Hd|He]; [discriminate|].
        apply app_inv_head in He. subst credentials.
        assert (eqb (AUTH_TOKEN s) (AUTH_TOKEN s) = true)
          by (apply eqb_true; reflexivity).
        congruence.
    + intros code detail. unfold verify_admin_token.
      destruct (SKIP_AUTH_TOKEN s); [discriminate|].
      destruct (negb _); [intros [= <- _]; reflexivity | discriminate].
Qed.

(** *** The token and the tool handler of a request *)

Lemma mapping_get_values settings s :
  mapping_get s (model_mapping settings) = lit "GLM-4-6-API-V1" ∨
  mapping_get s (model_mapping settings) = lit "0727-106B-API" ∨
  mapping_get s (model_mapping settings) = lit "0727-360B-API".
Proof.
  unfold model_mapping. cbn [mapping_get].
  repeat (destruct (eqb _ s); [auto|]). auto.
Qed.

(** X18. [transform_request_in] raises whenever [get_token] returns no
    token, and what it does to the pool is what [get_token] does.  When it
    returns, for a model name that is a string, the token is not empty and
    is the one [get_token] returned, and the body has the fresh chat id, one
    of the three upstream model ids, and the [deep-web-search] server
    exactly for the search model.  In anonymous mode a non-empty guest token
    is the token of the request and the pool is not touched; without
    anonymous mode a usable pool always yields a token, and an empty pool
    with an empty token source makes the call raise. *)
Theorem transform_needs_token (settings : Settings) (w : World)
    (request : list (pystr * Json)) (uuid : pystr) (r : Run) (s : pystr) :
  requested_model settings request = JStr s →
  let res := transform_request_in settings w request uuid r in
  (fst (get_token settings w r) = [] → fst res = None) ∧
  snd res = snd (get_token settings w r) ∧
  (∀ body token, fst res = Some (body, token) →
     truthy token = true ∧ token = fst (get_token settings w r) ∧
     body_chat_id body = uuid ∧
     (model body = lit "GLM-4-6-API-V1" ∨ model body = lit "0727-106B-API" ∨
      model body = lit "0727-360B-API") ∧
     web_search body = eqb s (SEARCH_MODEL settings) ∧
     mcp_servers body =
       (if eqb s (SEARCH_MODEL settings) then [lit "deep-web-search"]
        else [])) ∧
  (ANONYMOUS_MODE settings = true →
   ∀ t, guest w (fetches r) = Some t → truthy t = true →
     fst (get_token settings w r) = t ∧ pool (snd res) = pool r ∧
     ∀ body token, fst res = Some (body, token) → token = t) ∧
  (ANONYMOUS_MODE settings = false → usable (pool r) →
   truthy (fst (get_token settings w r)) = true) ∧
  (ANONYMOUS_MODE settings = false → tokens (pool r) = [] →
   (∀ n, source_names (source w n) = []) → fst res = None).
Proof.
  intros Hm res. subst res. unfold transform_request_in.
  assert (Hid : upstream_model_id settings request
                = Some (mapping_get s (model_mapping settings)))
    by (unfold upstream_model_id; rewrite Hm; reflexivity).
  assert (Hsearch : is_search settings request = eqb s (SEARCH_MODEL settings))
    by (unfold is_search; rewrite Hm; reflexivity).
  rewrite Hid, Hsearch.
  destruct (get_token settings w r) as [tok r1] eqn:Eg. cbn [fst snd].
  split; [intros ->; reflexivity|].
  split; [destruct (negb (truthy tok)); reflexivity|].
  assert (Hbody : ∀ body token,
    (if negb (truthy tok) then (None, r1) else
       (Some (mkUpstreamBody (mapping_get s (model_mapping settings))
                (eqb s (SEARCH_MODEL settings))
                (is_thinking_value settings request)
                (if eqb s (SEARCH_MODEL settings)
                 then [lit "deep-web-search"] else [])
                (if TOOL_SUPPORT settings
                    && negb (is_thinking settings request)
                    && py_truthy (get_or (lit "tools") JNull request)
                 then get_or (lit "tools") JNull request else JNull)
                uuid, tok), r1)).1 = Some (body, token) →
    truthy token = true ∧ token = tok ∧
    body_chat_id body = uuid ∧
    (model body = lit "GLM-4-6-API-V1" ∨ model body = lit "0727-106B-API" ∨
     model body = lit "0727-360B-API") ∧
    web_search body = eqb s (SEARCH_MODEL settings) ∧
    mcp_servers body =
      (if eqb s (SEARCH_MODEL settings) then [lit "deep-web-search"]
       else [])).
  { intros body token. destruct (truthy tok) eqn:Et; cbn [negb fst];
      [|discriminate].
    intros [= <- <-]. cbn [body_chat_id model web_search mcp_servers].
    split; [exact Et|]. split; [reflexivity|]. split; [reflexivity|].
    split; [apply mapping_get_values|]. split; reflexivity. }
  split; [exact Hbody|].
  split.
  { intros Han t Hg Ht. unfold get_token in Eg. rewrite Han, Hg, Ht in Eg.
    injection Eg as <- <-. rewrite Ht. cbn [negb fst snd pool].
    split; [reflexivity|]. split; [reflexivity|].
    intros body token [= _ <-]. reflexivity. }
  split.
  { intros Han Hus. destruct (get_token_usable settings w r Hus) as [Ht _].
    rewrite Eg in Ht. exact Ht. }
  intros Han Hempty Hsrc.
  unfold get_token in Eg. rewrite Han in Eg.
  assert (Hnone : get_next_token (clock w (tick r)) (source w (tick r)) (pool r)
                  = (None, pool r)).
  { unfold get_next_token, reload_if_due.
    assert (Hload : _load_tokens (clock w (tick r)) (source w (tick r)) (pool r)
                    = pool r).
    { apply load_empty_source; [|apply Hsrc].
      intros a Ha. rewrite Hempty in Ha. apply elem_of_nil in Ha.
      contradiction. }
    destruct (_should_reload _ _); rewrite ?Hload; unfold select;
      rewrite Hempty; reflexivity. }
  rewrite Hnone in Eg. injection Eg as <- _. reflexivity.
Qed.

Lemma transform_needs_token_witness :
  requested_model (settings_with 1) thinking_request
    = JStr (lit "GLM-4.5-Thinking") ∧
  truthy (fst (get_token (settings_with 1)
                 (world_of (fun _ => ConnectFail []))
                 (mkRun pool1 0 [] 0 [] []))) = true.
Proof.
  split; [reflexivity|].
  destruct (transform_needs_token (settings_with 1)
              (world_of (fun _ => ConnectFail [])) thinking_request
              (lit "chat-1") (mkRun pool1 0 [] 0 [] [])
              (lit "GLM-4.5-Thinking") eq_refl)
    as [_ [_ [_ [_ [Hus _]]]]].
  apply Hus; [reflexivity | apply Instances.pool1_usable].
Defined.

(** X19. After a successful transformation, [stream_response] creates a
    tool handler exactly when the request is for the search model or its
    tool list passes the gate (tool support on, not a thinking request, a
    non-empty tool list); the handler is made for the chat id of the
    transformed body. *)
Theorem tool_handler_presence {TH : Type} `{ToolHandler TH}
    (settings : Settings) (w : World) (request : list (pystr * Json))
    (uuid : pystr) (r : Run) (body : UpstreamBody) (token : pystr) (r' : Run)
    (request_model : pystr) :
  transform_request_in settings w request uuid r = (Some (body, token), r') →
  let st := initial_state (TH:=TH) (stream_request request_model body) in
  (tool_handler st = None ↔
     is_search settings request = false ∧
     (TOOL_SUPPORT settings = false ∨ is_thinking settings request = true ∨
      py_truthy (get_or (lit "tools") JNull request) = false)) ∧
  (tool_handler st ≠ None →
     tool_handler st = Some (th_init uuid request_model)).
Proof.
  unfold transform_request_in.
  destruct (get_token settings w r) as [tok r1].
  destruct (negb (truthy tok)); [discriminate|].
  destruct (upstream_model_id settings request) as [id|]; [|discriminate].
  intros [= <- <- <-]. cbv zeta.
  unfold initial_state, has_tools, has_mcp_servers, stream_request.
  cbn [body_tools body_mcp_servers tools mcp_servers chat_id req_model
       body_chat_id tool_handler].
  destruct (is_search settings request).
  { rewrite orb_true_r. split; [|reflexivity].
    split; [discriminate | intros [Hf _]; discriminate]. }
  rewrite orb_false_r.
  destruct (TOOL_SUPPORT settings); cbn [andb];
    [|split; [split; auto | congruence]].
  destruct (is_thinking settings request); cbn [negb andb];
    [split; [split; auto | congruence]|].
  destruct (py_truthy (get_or (lit "tools") JNull request)) eqn:Et;
    [|split; [split; auto | congruence]].
  destruct (get_or (lit "tools") JNull request); try discriminate;
    (split; [|reflexivity]);
    (split; [discriminate | intros [_ [Hf|[Hf|Hf]]]; discriminate]).
Qed.

Lemma tool_handler_presence_witness :
  ∃ body token r',
    transform_request_in (settings_with 1) (world_of (fun _ => ConnectFail []))
      thinking_request (lit "chat-1") (mkRun pool1 0 [] 0 [] [])
      = (Some (body, token), r') ∧
    tool_handler (initial_state (TH:=unit)
                    (stream_request (lit "GLM-4.5-Thinking") body)) = None.
Proof.
  destruct (transform_request_in (settings_with 1)
              (world_of (fun _ => ConnectFail [])) thinking_request
              (lit "chat-1") (mkRun pool1 0 [] 0 [] []))
    as [[[body token]|] r'] eqn:E; [|vm_compute in E; discriminate E].
  exists body, token, r'. split; [reflexivity|].
  apply (tool_handler_presence (TH:=unit) _ _ _ _ _ _ _ _
           (lit "GLM-4.5-Thinking") E).
  split; [reflexivity|]. right. left. reflexivity.
Defined.

(** *** The messages *)

Lemma assoc_dict_set_eq k v kv : assoc k (dict_set k v kv) = Some v.
Proof.
  assert (Hk : eqb k k = true) by (apply eqb_true; reflexivity).
  induction kv as [|[k' v'] r IH]; cbn [dict_set assoc]; [rewrite Hk; auto|].
  destruct (eqb k' k) eqn:E; cbn [assoc]; [rewrite Hk; reflexivity|].
  rewrite E. exact IH.
Qed.

Lemma assoc_dict_set_ne k k2 v kv :
  k2 ≠ k → assoc k2 (dict_set k v kv) = assoc k2 kv.
Proof.
  intros Hne.
  assert (Hk : eqb k k2 = false).
  { destruct (eqb k k2) eqn:E; [|reflexivity].
    apply eqb_true in E. congruence. }
  induction kv as [|[k' v'] r IH]; cbn [dict_set assoc]; [rewrite Hk; auto|].
  destruct (eqb k' k) eqn:E; cbn [assoc].
  - apply eqb_true in E as ->. rewrite Hk. reflexivity.
  - rewrite IH. reflexivity.
Qed.

Lemma dict_set_same k v kv : assoc k kv = Some v → dict_set k v kv = kv.
Proof.
  induction kv as [|[k' v'] r IH]; cbn [dict_set assoc]; [discriminate|].
  destruct (eqb k' k) eqn:E.
  - apply eqb_true in E as ->. intros [= ->]. reflexivity.
  - intros Ha. rewrite (IH Ha). reflexivity.
Qed.

Lemma is_str_true j s : is_str j s = true ↔ j = JStr s.
Proof.
  destruct j; cbn; try (split; [discriminate | intros; discriminate]).
  rewrite eqb_true. split; [intros ->; reflexivity | intros [= ->]; auto].
Qed.

(** One message. *)
Lemma transform_message_spec (m m' : Json) :
  transform_message m = Some m' →
  ∃ kv kv', m = JObj kv ∧ m' = JObj kv' ∧
    role_of m' ≠ JStr (lit "system") ∧
    (role_of m ≠ JStr (lit "system") → kv' = kv) ∧
    (role_of m = JStr (lit "system") →
       role_of m' = JStr (lit "user") ∧
       (∀ k, k ≠ lit "role" → k ≠ lit "content" → assoc k kv' = assoc k kv) ∧
       get_or (lit "content") JNull kv' =
         match get_or (lit "content") JNull kv with
         | JStr c => JStr (SYSTEM_NOTE ++ c)
         | JArr c => JArr (JObj [(lit "type", JStr (lit "text"));
                                 (lit "text", JStr SYSTEM_NOTE)] :: c)
         | other => other
         end).
Proof.
  destruct m as [| | | | | |kv]; try discriminate. cbn [transform_message].
  assert (Hrc : lit "content" ≠ lit "role") by discriminate.
  destruct (is_str (get_or (lit "role") JNull kv) (lit "system")) eqn:Es.
  - apply is_str_true in Es.
    set (msg := dict_set (lit "role") (JStr (lit "user")) kv).
    assert (Hrole : ∀ v, get_or (lit "role") JNull
                           (dict_set (lit "content") v msg)
                         = JStr (lit "user")).
    { intros v. unfold get_or.
      rewrite assoc_dict_set_ne by discriminate.
      subst msg. rewrite assoc_dict_set_eq. reflexivity. }
    assert (Hmsg : get_or (lit "role") JNull msg = JStr (lit "user"))
      by (unfold get_or; subst msg; rewrite assoc_dict_set_eq; reflexivity).
    assert (Hcontent : get_or (lit "content") JNull msg
                       = get_or (lit "content") JNull kv)
      by (unfold get_or; subst msg; rewrite assoc_dict_set_ne by exact Hrc;
          reflexivity).
    assert (Hother : ∀ v k, k ≠ lit "role" → k ≠ lit "content" →
              assoc k (dict_set (lit "content") v msg) = assoc k kv).
    { intros v k H1 H2. rewrite assoc_dict_set_ne by exact H2.
      subst msg. apply assoc_dict_set_ne. exact H1. }
    rewrite Hcontent.
    destruct (get_or (lit "content") JNull kv) eqn:Ec; intros [= <-];
      exists kv; eexists; (split; [reflexivity|]); (split; [reflexivity|]);
      cbn [role_of]; rewrite ?Hrole, ?Hmsg;
      (split; [discriminate|]); (split; [intros Hn; congruence|]);
      intros _; (split; [reflexivity|]);
      try (split; [intros k H1 H2; subst msg; apply assoc_dict_set_ne;
                   exact H1 | rewrite Hcontent, Ec; reflexivity]).
    + split; [apply Hother|]. rewrite Ec. unfold get_or.
      rewrite assoc_dict_set_eq. reflexivity.
    + split; [apply Hother|]. rewrite Ec. unfold get_or.
      rewrite assoc_dict_set_eq. reflexivity.
  - assert (Hns : get_or (lit "role") JNull kv ≠ JStr (lit "system")).
    { intros E. apply is_str_true in E. congruence. }
    assert (Hsame : ∀ kv', Some (JObj kv) = Some m' → kv' = kv →
              ∃ kv0 kv1, JObj kv = JObj kv0 ∧ m' = JObj kv1 ∧
                role_of m' ≠ JStr (lit "system") ∧
                (role_of (JObj kv) ≠ JStr (lit "system") → kv1 = kv0) ∧
                (role_of (JObj kv) = JStr (lit "system") →
                 role_of m' = JStr (lit "user") ∧
                 (∀ k, k ≠ lit "role" → k ≠ lit "content" →
                       assoc k kv1 = assoc k kv0) ∧
                 get_or (lit "content") JNull kv1 =
                   match get_or (lit "content") JNull kv0 with
                   | JStr c => JStr (SYSTEM_NOTE ++ c)
                   | JArr c => JArr (JObj [(lit "type", JStr (lit "text"));
                                           (lit "text", JStr SYSTEM_NOTE)]
                                     :: c)
                   | other => other
                   end)).
    { intros kv' [= <-] _. exists kv, kv. cbn [role_of].
      split; [reflexivity|]. split; [reflexivity|]. split; [exact Hns|].
      split; [reflexivity|]. intros E. congruence. }
    destruct (is_str (get_or (lit "role") JNull kv) (lit "user"));
      [|intros E; apply (Hsame kv E eq_refl)].
    destruct (get_or (lit "content") JNull kv) as [| | | | |content|] eqn:Ec;
      try (intros E; apply (Hsame kv E eq_refl)).
    destruct (forallb part_ok content); [|discriminate].
    rewrite dict_set_same.
    + intros E. apply (Hsame kv E eq_refl).
    + unfold get_or in Ec. destruct (assoc (lit "content") kv); congruence.
Qed.

Lemma transform_list_spec (l : list Json) : ∀ l',
  transform_list l = Some l' →
  length l' = length l ∧
  ∀ i m, l !! i = Some m →
    ∃ m', l' !! i = Some m' ∧ transform_message m = Some m'.
Proof.
  induction l as [|m0 r IH]; intros l' Hl.
  { injection Hl as <-. split; [reflexivity|]. intros i m Hi. discriminate. }
  cbn [transform_list] in Hl.
  destruct (transform_message m0) as [m0'|] eqn:E0; [|discriminate].
  destruct (transform_list r) as [r'|]; [|discriminate].
  injection Hl as <-. destruct (IH r' eq_refl) as [Hlen Hlk].
  split; [simpl; rewrite Hlen; reflexivity|].
  intros [|i] m Hi.
  - injection Hi as <-. exists m0'. auto.
  - apply (Hlk i m Hi).
Qed.

(** X20. The message loop of [transform_request_in] keeps the number and
    the order of the messages and leaves no message with the role
    [system]: a system message becomes a user message whose text content
    is prefixed with the compliance note (a list content gets the note as
    its first part), its other fields unchanged; every other message is
    passed on unchanged.  Messages that are dicts without a list content
    never make the loop raise; a message that is not a dict does. *)
Theorem system_messages_become_user (l : list Json) :
  (∀ l', transform_messages (JArr l) = Some l' →
     length l' = length l ∧
     ∀ i m, l !! i = Some m →
       ∃ kv kv', m = JObj kv ∧ l' !! i = Some (JObj kv') ∧
         role_of (JObj kv') ≠ JStr (lit "system") ∧
         (role_of m ≠ JStr (lit "system") → kv' = kv) ∧
         (role_of m = JStr (lit "system") →
            role_of (JObj kv') = JStr (lit "user") ∧
            (∀ k, k ≠ lit "role" → k ≠ lit "content" →
                  assoc k kv' = assoc k kv) ∧
            get_or (lit "content") JNull kv' =
              match get_or (lit "content") JNull kv with
              | JStr c => JStr (SYSTEM_NOTE ++ c)
              | JArr c => JArr (JObj [(lit "type", JStr (lit "text"));
                                      (lit "text", JStr SYSTEM_NOTE)] :: c)
              | other => other
              end)) ∧
  ((∀ m, m ∈ l → ∃ kv, m = JObj kv ∧
                  ∀ c, get_or (lit "content") JNull kv ≠ JArr c) →
   is_Some (transform_messages (JArr l))) ∧
  ((∃ m, m ∈ l ∧ ∀ kv, m ≠ JObj kv) → transform_messages (JArr l) = None).
Proof.
  cbn [transform_messages]. split; [|split].
  - intros l' Hl. destruct (transform_list_spec l l' Hl) as [Hlen Hlk].
    split; [exact Hlen|]. intros i m Hi.
    destruct (Hlk i m Hi) as [m' [Hi' Hm]].
    destruct (transform_message_spec m m' Hm) as [kv [kv' [-> [-> Hrest]]]].
    exists kv, kv'. split; [reflexivity|]. split; [exact Hi'|]. exact Hrest.
  - induction l as [|m0 r IH]; intros Hall; [cbn; eauto|].
    cbn [transform_list].
    destruct (Hall m0 ltac:(left)) as [kv [-> Hc]].
    destruct (IH (fun m Hm => Hall m ltac:(right; exact Hm))) as [r' ->].
    cbn [transform_message].
    destruct (is_str (get_or (lit "role") JNull kv) (lit "system")).
    + destruct (get_or (lit "content") JNull
                  (dict_set (lit "role") (JStr (lit "user")) kv)); eauto.
    + destruct (is_str (get_or (lit "role") JNull kv) (lit "user")); [|eauto].
      destruct (get_or (lit "content") JNull kv) eqn:Ec; eauto.
      exfalso. eapply Hc. reflexivity.
  - intros [m [Hin Hnd]]. induction l as [|m0 r IH].
    { apply elem_of_nil in Hin. contradiction. }
    cbn [transform_list]. apply elem_of_cons in Hin as [->|Hin].
    + destruct m0; try reflexivity. exfalso. eapply Hnd. reflexivity.
    + destruct (transform_message m0); [|reflexivity].
      rewrite (IH Hin). reflexivity.
Qed.

Lemma system_messages_become_user_witness :
  transform_messages (JArr [system_message; user_message])
    = Some [JObj [(lit "role", JStr (lit "user"));
                  (lit "content", JStr (SYSTEM_NOTE ++ lit "Be brief."))];
            user_message] ∧
  length [JObj [(lit "role", JStr (lit "user"));
                (lit "content", JStr (SYSTEM_NOTE ++ lit "Be brief."))];
          user_message]
    = length [system_message; user_message].
Proof.
  assert (E : transform_messages (JArr [system_message; user_message])
    = Some [JObj [(lit "role", JStr (lit "user"));
                  (lit "content", JStr (SYSTEM_NOTE ++ lit "Be brief."))];
            user_message]) by (vm_compute; reflexivity).
  split; [exact E|].
  destruct (system_messages_become_user [system_message; user_message])
    as [Hspec _].
  apply (Hspec _ E).
Defined.

End RequestExtras.

(** ** The upstream call of the response handlers *)

Module LegacyExtras.
Import TokenPool Legacy LegacyMore Examples MoreExamples.

Section Call.

Variable max_retries : Z.
Variable w : World.

(** What one turn does to the run: it issues one call with the current
    token; a token that is blamed is replaced by another one before a
    retry, any other retry keeps the token; a result that spares the pool
    leaves pool and pool accesses as they were. *)
Lemma attempt_turn rc auth r :
  let c := call_upstream_api w (length (calls r)) in
  match attempt max_retries w rc auth r with
  | Retry t r' =>
      calls r' = calls r ++ [auth] ∧
      (blames_token c = true → t ≠ auth) ∧
      (blames_token c = false → t = auth) ∧
      (spares_pool c = true → pool r' = pool r ∧ tick r' = tick r)
  | Finish o t r' =>
      calls r' = calls r ++ [auth] ∧ o ≠ OutOfFuel ∧ t = auth ∧
      (spares_pool c = true → pool r' = pool r ∧ tick r' = tick r)
  end.
Proof.
  cbv zeta. unfold attempt.
  assert (Hother : ∀ res t, other_token res auth = Some t → t ≠ auth).
  { intros res t. unfold other_token. destruct res as [t0|]; [|discriminate].
    destruct (truthy t0); cbn [andb]; [|discriminate].
    destruct (eqb t0 auth) eqn:E; cbn [negb]; [discriminate|].
    intros [= <-] ->. unfold eqb in E.
    rewrite bool_decide_eq_false in E. congruence. }
  destruct (call_upstream_api w (length (calls r))) as [conn|code].
  - destruct conn; cbn [blames_token spares_pool negb].
    + destruct (rc <? max_retries - 1); cbn [calls pool tick];
        repeat split; congruence.
    + destruct (next_token w _) as [res r3] eqn:En.
      assert (Hc3 : calls r3 = calls r ++ [auth]).
      { unfold next_token, report_failed in En. cbn [pool tick calls] in En.
        destruct (get_next_token _ _ _) as [res' p']. injection En as _ <-.
        reflexivity. }
      destruct (other_token res auth) as [t|] eqn:Eo.
      * destruct (rc <? max_retries - 1);
          repeat split; try congruence; try discriminate;
          intros _; apply (Hother _ _ Eo).
      * repeat split; try congruence; discriminate.
  - cbn [blames_token spares_pool].
    destruct (code =? 200) eqn:E200.
    { cbn [calls negb andb]. repeat split; try congruence; discriminate. }
    destruct ((code =? 401) || (code =? 403)) eqn:E4.
    { destruct (next_token w _) as [res r3] eqn:En.
      assert (Hc3 : calls r3 = calls r ++ [auth]).
      { unfold next_token, report_failed in En. cbn [pool tick calls] in En.
        destruct (get_next_token _ _ _) as [res' p']. injection En as _ <-.
        reflexivity. }
      destruct (other_token res auth) as [t|] eqn:Eo.
      - repeat split; try congruence; try discriminate;
          intros _; apply (Hother _ _ Eo).
      - repeat split; try congruence; discriminate. }
    cbn [negb andb].
    destruct (code =? 429);
      [destruct (rc <? max_retries - 1); cbn [calls pool tick];
       repeat split; congruence|].
    destruct (500 <=? code);
      [destruct (rc <? max_retries - 1); cbn [calls pool tick];
       repeat split; congruence|].
    cbn [calls pool tick]. repeat split; congruence.
Qed.

Lemma call_loop_spec fuel : ∀ rc auth r,
  Z.max 0 (max_retries - rc) < Z.of_nat fuel →
  let res := call_loop max_retries w fuel rc auth r in
  fst (fst res) ≠ OutOfFuel ∧
  ∃ l, calls (snd res) = calls r ++ l ∧
    (length l ≤ Z.to_nat (max_retries - rc))%nat ∧
    (rc < max_retries → ∃ l', l = auth :: l') ∧
    (∀ i a b, l !! i = Some a → l !! S i = Some b →
       if blames_token (call_upstream_api w (length (calls r) + i))
       then a ≠ b else a = b) ∧
    ((∀ n, spares_pool (call_upstream_api w n) = true) →
       pool (snd res) = pool r ∧ tick (snd res) = tick r ∧
       snd (fst res) = auth ∧ Forall (eq auth) l).
Proof.
  induction fuel as [|fuel IH]; intros rc auth r Hfuel; [lia|].
  cbn [call_loop]. destruct (Z.ltb_spec rc max_retries).
  2:{ cbv zeta. cbn [fst snd]. split; [discriminate|]. exists [].
      rewrite app_nil_r. split; [reflexivity|]. split; [simpl; lia|].
      split; [lia|]. split; [intros i a b Hi; discriminate|].
      intros _. auto. }
  pose proof (attempt_turn rc auth r) as Ht. cbv zeta in Ht.
  destruct (attempt max_retries w rc auth r) as [t r'|o t r'].
  - destruct Ht as [Hc [Hblame [Hkeep Hspare]]].
    destruct (IH (rc + 1) t r' ltac:(lia))
      as [Hfuel' [l [Hl [Hlen [Hhead [Hpairs Hsp]]]]]].
    cbv zeta. split; [exact Hfuel'|]. exists (auth :: l).
    split; [rewrite Hl, Hc, <- app_assoc; reflexivity|].
    split; [simpl; lia|]. split; [eauto|]. split.
    + intros [|i] a b Ha Hb.
      * injection Ha as <-. rewrite Nat.add_0_r. cbn in Hb.
        destruct (Z.ltb_spec (rc + 1) max_retries) as [Hlt|Hge].
        -- destruct (Hhead Hlt) as [l' ->]. injection Hb as <-.
           destruct (blames_token _); [intros E; apply Hblame; auto|].
           symmetry. apply Hkeep. reflexivity.
        -- assert (l = []) as -> by (destruct l; [reflexivity|simpl in Hlen; lia]).
           discriminate.
      * cbn in Ha, Hb. specialize (Hpairs i a b Ha Hb).
        rewrite Hc, length_app in Hpairs. cbn [length] in Hpairs.
        replace (length (calls r) + S i)%nat
          with (length (calls r) + 1 + i)%nat by lia.
        exact Hpairs.
    + intros Hall. destruct (Hsp Hall) as [Hp [Htk [Hto Hf]]].
      destruct (Hspare (Hall _)) as [Hp1 Ht1].
      assert (t = auth) as ->.
      { apply Hkeep. specialize (Hall (length (calls r))).
        destruct (call_upstream_api w (length (calls r))) as [[|]|code];
          cbn in Hall |- *; try congruence.
        destruct (code =? 200); cbn in Hall; [discriminate|].
        destruct ((code =? 401) || (code =? 403)); cbn in Hall;
          [discriminate | reflexivity]. }
      split; [congruence|]. split; [congruence|]. split; [exact Hto|].
      constructor; [reflexivity | exact Hf].
  - destruct Ht as [Hc [Ho [-> Hspare]]]. cbv zeta. cbn [fst snd].
    split; [exact Ho|]. exists [auth]. split; [exact Hc|].
    split; [simpl; lia|]. split; [eauto|].
    split; [intros [|i] a b Ha Hb; discriminate|].
    intros Hall. destruct (Hspare (Hall _)) as [Hp1 Ht1].
    repeat split; try assumption. constructor; [reflexivity | constructor].
Qed.

(** X21. [_call_upstream] always ends, by returning a response or by
    raising, after at most [max_retries] calls; with [max_retries] at least
    1 the first call uses the token of the handler, and with [max_retries]
    of 0 or less no call is made at all: the method raises at once and the
    pool is not touched. *)
Theorem call_upstream_bound (auth : pystr) (p : TokenManager) :
  let res := _call_upstream max_retries w auth p in
  fst (fst res) ≠ OutOfFuel ∧
  (length (calls (snd res)) ≤ Z.to_nat max_retries)%nat ∧
  (1 ≤ max_retries → head (calls (snd res)) = Some auth) ∧
  (max_retries ≤ 0 → res = (Raised, auth, mkRun p 0 [])).
Proof.
  intros res. subst res. unfold _call_upstream.
  destruct (call_loop_spec (S (Z.to_nat max_retries)) 0 auth (mkRun p 0 [])
              ltac:(lia))
    as [Hfuel [l [Hl [Hlen [Hhead _]]]]].
  cbv zeta in Hfuel, Hl. split; [exact Hfuel|]. rewrite Hl. cbn [calls app].
  split; [rewrite Z.sub_0_r in Hlen; exact Hlen|]. split.
  - intros Hmax. destruct (Hhead ltac:(lia)) as [l' ->]. reflexivity.
  - intros Hmax. cbn [call_loop].
    destruct (Z.ltb_spec 0 max_retries); [lia | reflexivity].
Qed.

(** X22. Rate limits, server errors, other client errors and connection
    errors are handled without the pool: when no call is answered by 200,
    401 or 403 or fails with another kind of exception, [_call_upstream]
    leaves the pool as it was, reports no failure and makes every call with
    the same token. *)
Theorem call_upstream_spares_pool (auth : pystr) (p : TokenManager) :
  (∀ n, spares_pool (call_upstream_api w n) = true) →
  let res := _call_upstream max_retries w auth p in
  pool (snd res) = p ∧ tick (snd res) = 0%nat ∧ snd (fst res) = auth ∧
  Forall (eq auth) (calls (snd res)).
Proof.
  intros Hall res. subst res. unfold _call_upstream.
  destruct (call_loop_spec (S (Z.to_nat max_retries)) 0 auth (mkRun p 0 [])
              ltac:(lia))
    as [_ [l [Hl [_ [_ [_ Hsp]]]]]].
  cbv zeta in Hl, Hsp. destruct (Hsp Hall) as [Hp [Ht [Hto Hf]]].
  rewrite Hl. cbn [calls app pool tick] in *. auto.
Qed.

(** X23. Between two consecutive calls of [_call_upstream] the token
    changes exactly when the first of them blamed the token: after a 401, a
    403 or an exception that is not a connection error the next call never
    uses the same token again, after any other result it uses the same
    token. *)
Theorem call_upstream_switches_token (auth : pystr) (p : TokenManager)
    (i : nat) (a b : pystr) :
  let res := _call_upstream max_retries w auth p in
  calls (snd res) !! i = Some a → calls (snd res) !! S i = Some b →
  if blames_token (call_upstream_api w i) then a ≠ b else a = b.
Proof.
  intros res. subst res. unfold _call_upstream.
  destruct (call_loop_spec (S (Z.to_nat max_retries)) 0 auth (mkRun p 0 [])
              ltac:(lia))
    as [_ [l [Hl [_ [_ [Hpairs _]]]]]].
  cbv zeta in Hl, Hpairs. rewrite Hl. cbn [calls app length] in *.
  intros Ha Hb. apply (Hpairs i a b Ha Hb).
Qed.

End Call.

Lemma call_upstream_bound_witness :
  (length (calls (snd (_call_upstream 3 always_503 (lit "tok") pool1))) ≤ 3)%nat.
Proof.
  exact (proj1 (proj2 (call_upstream_bound 3 always_503 (lit "tok") pool1))).
Defined.

Lemma call_upstream_spares_pool_witness :
  (∀ n, spares_pool (call_upstream_api always_503 n) = true) ∧
  pool (snd (_call_upstream 3 always_503 (lit "tok") pool1)) = pool1.
Proof.
  split; [intros n; reflexivity|].
  apply (call_upstream_spares_pool 3 always_503 (lit "tok") pool1).
  intros n; reflexivity.
Defined.

(** A handler whose token is not in the pool: the first call is answered by
    401, the second one is made with the first token of the pool. *)
Lemma call_upstream_switches_token_witness :
  calls (snd (_call_upstream 3 once_401 (lit "x") pool3)) !! 0%nat
    = Some (lit "x") ∧
  calls (snd (_call_upstream 3 once_401 (lit "x") pool3)) !! 1%nat
    = Some (lit "a") ∧
  lit "x" ≠ lit "a".
Proof.
  assert (H0 : calls (snd (_call_upstream 3 once_401 (lit "x") pool3)) !! 0%nat
               = Some (lit "x")) by (vm_compute; reflexivity).
  assert (H1 : calls (snd (_call_upstream 3 once_401 (lit "x") pool3)) !! 1%nat
               = Some (lit "a")) by (vm_compute; reflexivity).
  split; [exact H0|]. split; [exact H1|].
  exact (call_upstream_switches_token 3 once_401 (lit "x") pool3 0
           (lit "x") (lit "a") H0 H1).
Defined.

End LegacyExtras.
